(** * certmanager: key/certificate stores and the issuance orchestrator

    A shallow embedding of [certmanager/db.py] (the [KeyStore] contract and
    its two backends [SqliteKeyStore] and [FilesystemKeyStore]) and of
    [certmanager/certauthority.py] ([CertAuthority.obtainCert] and
    [createExistingResponse]), followed by the properties established
    about them. *)

From Stdlib Require Import Ascii.
From stdpp Require Import prelude gmap strings.

Local Open Scope Z_scope.

(** ** Python values shared by both files *)

(** A [bytes] object, and a BLOB column: a sequence of 8-bit characters. *)
Definition bytes := string.

(** The exceptions the embedded code can raise. *)
Inductive exn :=
| ValueError
| TypeError
| AttributeError
| IndexError
| FileNotFoundError
| NotADirectoryError
| IsADirectoryError
| RecursionError.

(** The result of running a piece of Python: a value, a raised exception,
    or [Diverge] when a [while] loop was cut by the iteration budget of the
    model before it ended. *)
Inductive outcome (A : Type) :=
| Return (a : A)
| Raise (e : exn)
| Diverge.
Arguments Return {A} a.
Arguments Raise {A} e.
Arguments Diverge {A}.

#[export] Instance outcome_ret : MRet outcome := fun A a => Return a.

#[export] Instance outcome_bind : MBind outcome := fun A B k m =>
  match m with
  | Return a => k a
  | Raise e => Raise e
  | Diverge => Diverge
  end.

(** The same for code that also leaves a state behind: what follows runs
    on the state left by a step that returned, and a step that raised
    leaves its state as the last one. *)
Definition and_then {S A B} (r : S * outcome A) (k : S -> A -> S * outcome B)
  : S * outcome B :=
  match r with
  | (s, Return a) => k s a
  | (s, Raise e) => (s, Raise e)
  | (s, Diverge) => (s, Diverge)
  end.

(** [if x:] on an optional string: [None] and the empty string are falsy. *)
Definition truthy (name : option string) : bool :=
  match name with
  | Some EmptyString => false
  | Some _ => true
  | None => false
  end.

(** [f"{x}"] for an optional string: [None] prints as the word [None]. *)
Definition fmt (x : option string) : string :=
  match x with
  | Some s => s
  | None => "None"
  end.

(** ** The [crypto] and [crypto_classes] modules

    These modules are imported by the two files but are not part of them;
    their functions are taken as parameters.  A decoder returns [None]
    where the Python function raises [ValueError].  The wrapper class
    [crypto_classes.Key] is identified with the private key it wraps. *)
Class Crypto := {
  Key : Type;
  Certificate : Type;
  key_to_der : Key -> bytes;
  key_to_pem : Key -> bytes;
  Key_from_der : bytes -> option Key;
  Key_from_pem : bytes -> option Key;
  cert_to_der : Certificate -> bytes;   (* cert.public_bytes(Encoding.DER) *)
  cert_to_pem : Certificate -> bytes;
  cert_from_der : bytes -> option Certificate;
  cert_from_pem : bytes -> option Certificate;
}.

(** What the cryptography library guarantees about its codecs: decoding
    what was encoded gives the object back. *)
Class CryptoLaws `{Crypto} : Prop := {
  Key_from_der_to_der : forall k, Key_from_der (key_to_der k) = Some k;
  Key_from_pem_to_pem : forall k, Key_from_pem (key_to_pem k) = Some k;
  cert_from_der_to_der : forall c, cert_from_der (cert_to_der c) = Some c;
  cert_from_pem_to_pem : forall c, cert_from_pem (cert_to_pem c) = Some c;
}.

(** ** class KeyStore(ABC)

    [S] is the state the backend keeps (a database connection, a directory
    tree) and [I] the type of its identifiers ([int] for the relational
    backend, [str] or [None] for the filesystem one).  A write returns the
    state it leaves behind together with its result, so that what was
    written before an exception stays written. *)
Class KeyStore `{Crypto} (S I : Type) := {
  save_key : S -> Key -> option string -> S * outcome I;
  save_cert : S -> I -> Certificate -> list string -> option string -> S * outcome I;
  get_cert : S -> string -> outcome (option (I * Key * Certificate));
}.

(** ** class SqliteKeyStore(KeyStore) *)
Module SqliteKeyStore.

(** The rows of the three tables the code uses. *)
Record private_keys_row := Private_key {
  pk_id : Z;
  pk_name : option string;
  pk_content : bytes;
}.

Record certificates_row := Certificate_row {
  c_id : Z;
  c_name : option string;
  c_priv_id : Z;
  c_content : bytes;
}.

Record ssl_domains_row := Ssl_domain {
  s_domain : string;
  s_certificate_id : Z;
}.

(** A database: each table is the list of its rows in rowid order, which
    is the order of insertion.  The two tables declared AUTOINCREMENT
    also keep the largest rowid ever handed out. *)
Record database := Database {
  private_keys : list private_keys_row;
  private_keys_seq : Z;
  certificates : list certificates_row;
  certificates_seq : Z;
  ssl_domains : list ssl_domains_row;
}.

Definition empty_db : database := Database [] 0 [] 0 [].

(** INTEGER PRIMARY KEY AUTOINCREMENT: one more than the largest rowid
    that ever existed in the table. *)
Definition next_rowid (seq : Z) (ids : list Z) : Z :=
  1 + foldr Z.max seq ids.

(** INSERT INTO private_keys (name, content) VALUES (?, ?) *)
Definition insert_private_key (db : database) (name : option string) (content : bytes)
  : database * Z :=
  let id := next_rowid (private_keys_seq db) (pk_id <$> private_keys db) in
  (Database (private_keys db ++ [Private_key id name content]) id
            (certificates db) (certificates_seq db) (ssl_domains db), id).

(** INSERT INTO certificates (name, priv_id, content) VALUES (?, ?, ?) *)
Definition insert_certificate (db : database) (name : option string) (priv_id : Z)
    (content : bytes) : database * Z :=
  let id := next_rowid (certificates_seq db) (c_id <$> certificates db) in
  (Database (private_keys db) (private_keys_seq db)
            (certificates db ++ [Certificate_row id name priv_id content]) id
            (ssl_domains db), id).

(** INSERT INTO ssl_domains (domain, certificate_id) VALUES (?, ?) *)
Definition insert_ssl_domain (db : database) (domain : string) (cert_id : Z) : database :=
  Database (private_keys db) (private_keys_seq db)
           (certificates db) (certificates_seq db)
           (ssl_domains db ++ [Ssl_domain domain cert_id]).

(** The SELECT of [get_cert]: ssl_domains joined with certificates on the
    certificate id and with private_keys on the key id, restricted to one
    domain.  Without ORDER BY the rows come out in the order of the scan
    of ssl_domains, the only table the query cannot reach by rowid. *)
Definition select_cert (db : database) (domain : string) : list (Z * bytes * bytes) :=
  s ← filter (fun s => s_domain s = domain) (ssl_domains db);
  c ← filter (fun c => c_id c = s_certificate_id s) (certificates db);
  p ← filter (fun p => pk_id p = c_priv_id c) (private_keys db);
  [(c_id c, pk_content p, c_content c)].

(** The three rows a lookup of [domain] reads first: the first index row
    of the domain, the first certificate row with the id it names, and the
    first key row with the id that one names. *)
Definition first_rows (db : database) (domain : string)
    (s : ssl_domains_row) (c : certificates_row) (p : private_keys_row) : Prop :=
  head (filter (fun s => s_domain s = domain) (ssl_domains db)) = Some s
  /\ head (filter (fun c => c_id c = s_certificate_id s) (certificates db)) = Some c
  /\ head (filter (fun p => pk_id p = c_priv_id c) (private_keys db)) = Some p.

(** A connection as [sqlite3.connect(path)] opens it: the default
    isolation level begins a transaction implicitly before the first
    INSERT and keeps it open until [commit].  [durable] is the database
    file as every other connection sees it and as it survives the
    process; [txn] is the working copy of the open transaction. *)
Record connection := Connection {
  durable : database;
  txn : option database;
}.

Definition connect (db : database) : connection := Connection db None.

(** What statements on this connection read. *)
Definition working (conn : connection) : database :=
  default (durable conn) (txn conn).

(** cur.execute of an INSERT. *)
Definition execute {A} (stmt : database -> database * A) (conn : connection)
  : connection * A :=
  let '(db, a) := stmt (working conn) in
  (Connection (durable conn) (Some db), a).

(** conn.commit() *)
Definition commit (conn : connection) : connection :=
  Connection (working conn) None.

Section WithCrypto.
Context {crypto : Crypto}.

Definition save_key (conn : connection) (key : Key) (name : option string)
  : connection * Z :=
  let '(conn, lastrowid) :=
    execute (fun db => insert_private_key db name (key_to_der key)) conn in
  let conn := commit conn in
  (conn, lastrowid).

(** Lines 84 to 94 of [save_cert]: everything before [conn.commit()]. *)
Definition save_cert_statements (conn : connection) (private_key_id : Z)
    (cert : Certificate) (domains : list string) (name : option string)
  : connection * Z :=
  let '(conn, cert_id) :=
    execute (fun db => insert_certificate db name private_key_id (cert_to_der cert)) conn in
  let conn :=
    foldl (fun conn domain =>
             fst (execute (fun db => (insert_ssl_domain db domain cert_id, tt)) conn))
          conn domains in
  (conn, cert_id).

Definition save_cert (conn : connection) (private_key_id : Z) (cert : Certificate)
    (domains : list string) (name : option string) : connection * Z :=
  let '(conn, cert_id) := save_cert_statements conn private_key_id cert domains name in
  let conn := commit conn in
  (conn, cert_id).

(** [save_cert] cut inside its [for] loop, after [k] of the per-domain
    INSERTs: the statements ran on the prefix, and [commit] did not. *)
Definition save_cert_interrupted (k : nat) (conn : connection) (private_key_id : Z)
    (cert : Certificate) (domains : list string) (name : option string) : connection :=
  fst (save_cert_statements conn private_key_id cert (take k domains) name).

(** [fetchone()] takes the first row; the two decoders are not guarded,
    so their [ValueError] leaves [get_cert]. *)
Definition get_cert (conn : connection) (domain : string)
  : outcome (option (Z * Key * Certificate)) :=
  match select_cert (working conn) domain with
  | [] => Return None
  | (id, key_der, cert_der) :: _ =>
      match Key_from_der key_der with
      | None => Raise ValueError
      | Some key =>
          match cert_from_der cert_der with
          | None => Raise ValueError
          | Some cert => Return (Some (id, key, cert))
          end
      end
  end.

(** The view a caller of the [KeyStore] interface has. *)
#[export] Instance keystore : KeyStore connection Z :=
  Build_KeyStore _ connection Z
    (fun conn key name => prod_map id Return (save_key conn key name))
    (fun conn key_id cert domains name =>
       prod_map id Return (save_cert conn key_id cert domains name))
    get_cert.

(** [gen_key]: [gen_key_rsa] is a function of the [crypto] module. *)
Definition gen_key (gen_key_rsa : Z -> Key) (conn : connection) (name : option string)
    (size : Z) : connection * Key :=
  let key := gen_key_rsa size in
  let '(conn, _) := save_key conn key name in
  (conn, key).

(** [_init_account_key]: the SELECT runs on a connection of its own, which
    reads the database file; a row is found by its name, and the name
    column of a row saved without a name is NULL, which equals no name.
    The decoder is [key_from_der], not guarded. *)
Definition _init_account_key (gen_key_rsa : Z -> Key) (conn : connection)
  : connection * outcome Key :=
  let acme_key_name := "ACME Account Key"%string in
  match head (filter (fun p => pk_name p = Some acme_key_name)
                     (private_keys (durable conn))) with
  | None =>
      let '(conn, account_key) := gen_key gen_key_rsa conn (Some acme_key_name) 4096 in
      (conn, Return account_key)
  | Some account_key_data =>
      match Key_from_der (pk_content account_key_data) with
      | Some account_key => (conn, Return account_key)
      | None => (conn, Raise ValueError)
      end
  end.
End WithCrypto.

(** What the schema declares and the code relies on: the ids of each of
    the two AUTOINCREMENT tables are distinct, and every index row names
    the id of a row of [certificates]. *)
Record integrity (db : database) : Prop := Build_integrity {
  keys_unique : NoDup (pk_id <$> private_keys db);
  certs_unique : NoDup (c_id <$> certificates db);
  index_refers : forall s, s ∈ ssl_domains db ->
                           s_certificate_id s ∈ c_id <$> certificates db;
}.

End SqliteKeyStore.

(** ** class FilesystemKeyStore(KeyStore) *)
Module FilesystemKeyStore.

(** *** The file system under [os.path.join], [os.path.exists] and [open]

    A resolved path is the list of its components from the root.  The file
    system says what lies at each resolved path: a directory or a regular
    file with its content; the root is a directory.  There are no symbolic
    links, no access is refused for want of permission, and names are not
    limited in length. *)
Definition path := list string.

Inductive node :=
| Dir
| File (content : bytes).

(** The store: the file system, and the place of the directory [base_dir]
    given to [__init__], in which [keys] and [certs] lie (lines 134 and
    135). *)
Record tree := Tree {
  nodes : gmap path node;
  base_dir : path;
}.

Definition keys_dir (fs : tree) : path := base_dir fs ++ ["keys"%string].
Definition certs_dir (fs : tree) : path := base_dir fs ++ ["certs"%string].

Definition node_at (fs : tree) (p : path) : option node :=
  match p with
  | [] => Some Dir
  | _ :: _ => nodes fs !! p
  end.

(** What lines 136 and 137 leave: both directories exist. *)
Definition initialised (fs : tree) : Prop :=
  node_at fs (keys_dir fs) = Some Dir /\ node_at fs (certs_dir fs) = Some Dir.

(** [a in s] for a character. *)
Fixpoint contains (a : ascii) (s : string) : bool :=
  match s with
  | EmptyString => false
  | String c s => bool_decide (c = a) || contains a s
  end.

(** A path string cut at its separators: the components that name
    directories to go through, and the last component. *)
Fixpoint split_path (s : string) : list string * string :=
  match s with
  | EmptyString => ([], EmptyString)
  | String c s =>
      let '(dirs, final) := split_path s in
      if decide (c = "/"%char) then (EmptyString :: dirs, final)
      else match dirs with
           | d :: dirs => (String c d :: dirs, final)
           | [] => ([], String c final)
           end
  end.

(** One component further from [cur]: an empty component and [.] stay,
    [..] goes to the parent (the root is its own parent), a name goes
    down. *)
Definition step (cur : path) (c : string) : path :=
  if decide (c = ""%string \/ c = "."%string) then cur
  else if decide (c = ".."%string) then removelast cur
  else cur ++ [c].

(** Going through directories: each place on the way has to be one. *)
Fixpoint walk (fs : tree) (cur : path) (dirs : list string) : outcome path :=
  match node_at fs cur with
  | None => Raise FileNotFoundError
  | Some (File _) => Raise NotADirectoryError
  | Some Dir =>
      match dirs with
      | [] => Return cur
      | c :: dirs => walk fs (step cur c) dirs
      end
  end.

(** Where [os.path.join(dir, rel)] leads, [dir] being given by its place:
    a [rel] that begins with the separator is taken from the root and
    [dir] is dropped, any other is taken from [dir].  Python refuses a
    path with a NUL character by [ValueError]. *)
Definition resolve (fs : tree) (dir : path) (rel : string) : outcome path :=
  if contains "000"%char rel then Raise ValueError
  else
    let '(dirs, final) := split_path rel in
    let start :=
      match rel with
      | String c _ => if decide (c = "/"%char) then [] else dir
      | EmptyString => dir
      end in
    d ← walk fs start dirs;
    Return (step d final).

(** What [stat] finds there, if anything. *)
Definition entry (fs : tree) (dir : path) (rel : string) : option node :=
  match resolve fs dir rel with
  | Return p => node_at fs p
  | _ => None
  end.

(** [os.path.exists(os.path.join(dir, rel))]: no exception leaves it. *)
Definition path_exists (fs : tree) (dir : path) (rel : string) : bool :=
  match entry fs dir rel with
  | Some _ => true
  | None => false
  end.

(** [with open(os.path.join(dir, rel), "rb") as f: f.read()] *)
Definition read_file (fs : tree) (dir : path) (rel : string) : outcome bytes :=
  p ← resolve fs dir rel;
  match node_at fs p with
  | Some (File content) => Return content
  | Some Dir => Raise IsADirectoryError
  | None => Raise FileNotFoundError
  end.

(** [with open(os.path.join(dir, rel), "wb") as f: f.write(content)]: the
    file is created in a directory that exists, or replaced. *)
Definition write_file (fs : tree) (dir : path) (rel : string) (content : bytes)
  : tree * outcome unit :=
  match resolve fs dir rel with
  | Return p =>
      match node_at fs p with
      | Some Dir => (fs, Raise IsADirectoryError)
      | _ => (Tree (<[p := File content]> (nodes fs)) (base_dir fs), Return tt)
      end
  | Raise e => (fs, Raise e)
  | Diverge => (fs, Diverge)
  end.

(** [f"{name}.key"] and [f"{name}.crt"]: the path strings joined to the
    two directories. *)
Definition key_file (name : option string) : string := fmt name +:+ ".key".
Definition cert_file (name : option string) : string := fmt name +:+ ".crt".

(** A name that is one component of a path: it has no separator in it (and
    no NUL character). *)
Definition plain (name : string) : Prop :=
  contains "/"%char name = false /\ contains "000"%char name = false.

(** Where the path of a key file, and of a certificate file, can lead: to
    a place whose last component carries the suffix. *)
Definition is_key_path (p : path) : Prop := exists f, last p = Some (f +:+ ".key").
Definition is_cert_path (p : path) : Prop := exists f, last p = Some (f +:+ ".crt").

(** Two file systems with the same directories: every path string leads
    to the same place in both, if it leads anywhere. *)
Definition same_dirs (fs fs' : tree) : Prop :=
  base_dir fs' = base_dir fs
  /\ forall p, node_at fs p = Some Dir <-> node_at fs' p = Some Dir.

(** [fs'] is [fs] but for the key files and the certificate files of the
    given names: directories are the same, and any other place holds what
    it held. *)
Definition written (fs fs' : tree) (key_names cert_names : list (option string)) : Prop :=
  same_dirs fs fs'
  /\ forall p,
       node_at fs' p = node_at fs p
       \/ (exists n, n ∈ key_names /\ resolve fs (keys_dir fs) (key_file n) = Return p)
       \/ (exists n, n ∈ cert_names /\ resolve fs (certs_dir fs) (cert_file n) = Return p).

(** *** The methods *)
Section WithCrypto.
Context {crypto : Crypto}.

Definition save_key (fs : tree) (key : Key) (name : option string)
  : tree * outcome (option string) :=
  and_then (write_file fs (keys_dir fs) (key_file name) (key_to_pem key))
           (fun fs _ => (fs, Return name)).

Definition find_key (fs : tree) (name : option string) : outcome (option Key) :=
  if path_exists fs (keys_dir fs) (key_file name) then
    key_data ← read_file fs (keys_dir fs) (key_file name);
    match Key_from_pem key_data with
    | Some key => Return (Some key)
    | None => Raise ValueError
    end
  else Return None.

Definition find_cert (fs : tree) (name : option string) : outcome (option Certificate) :=
  if path_exists fs (certs_dir fs) (cert_file name) then
    cert_data ← read_file fs (certs_dir fs) (cert_file name);
    match cert_from_pem cert_data with
    | Some cert => Return (Some cert)
    | None => Raise ValueError
    end
  else Return None.

(** One turn of the [for domain in domains] loop of [save_cert]. *)
Definition save_cert_domain (private_key_id : option string) (key_content : bytes)
    (cert : Certificate) (fs : tree) (domain : string) : tree * outcome unit :=
  and_then
    (if decide (Some domain ≠ private_key_id)
     then write_file fs (keys_dir fs) (key_file (Some domain)) key_content
     else (fs, Return tt))
    (fun fs _ => write_file fs (certs_dir fs) (cert_file (Some domain)) (cert_to_pem cert)).

(** The loop: an exception ends it, with the files written so far. *)
Fixpoint save_cert_loop (private_key_id : option string) (key_content : bytes)
    (cert : Certificate) (fs : tree) (domains : list string) : tree * outcome unit :=
  match domains with
  | [] => (fs, Return tt)
  | domain :: domains =>
      and_then (save_cert_domain private_key_id key_content cert fs domain)
               (fun fs _ => save_cert_loop private_key_id key_content cert fs domains)
  end.

Definition save_cert (fs : tree) (private_key_id : option string) (cert : Certificate)
    (domains : list string) (name : option string) : tree * outcome (option string) :=
  and_then
    (if truthy name
     then write_file fs (certs_dir fs) (cert_file name) (cert_to_pem cert)
     else (fs, Return tt))
    (fun fs _ =>
       and_then (fs, read_file fs (keys_dir fs) (key_file private_key_id))
         (fun fs key_content =>
            and_then (save_cert_loop private_key_id key_content cert fs domains)
              (fun fs _ =>
                 (fs, if truthy name then Return name
                      else match domains with
                           | domain :: _ => Return (Some domain)
                           | [] => Raise IndexError
                           end)))).

(** [try: ... except ValueError: pass] around the reading and the decoding
    of a file that exists: a [ValueError] leaves [None], any other
    exception goes on. *)
Definition guarded {A} (fs : tree) (dir : path) (rel : string) (decode : bytes -> option A)
  : outcome (option A) :=
  if path_exists fs dir rel then
    match read_file fs dir rel with
    | Return data => Return (decode data)
    | Raise ValueError => Return None
    | Raise e => Raise e
    | Diverge => Diverge
    end
  else Return None.

Definition get_cert (fs : tree) (domain : string)
  : outcome (option (option string * Key * Certificate)) :=
  key ← guarded fs (keys_dir fs) (key_file (Some domain)) Key_from_pem;
  cert ← guarded fs (certs_dir fs) (cert_file (Some domain)) cert_from_pem;
  match cert, key with
  | Some cert, Some key => Return (Some (Some domain, key, cert))
  | _, _ => Return None
  end.

#[export] Instance keystore : KeyStore tree (option string) :=
  Build_KeyStore _ tree (option string) save_key save_cert get_cert.

(** [gen_key]: [gen_key_rsa] is a function of the [crypto] module. *)
Definition gen_key (gen_key_rsa : Z -> Key) (fs : tree) (name : option string) (size : Z)
  : tree * outcome Key :=
  let key := gen_key_rsa size in
  and_then (save_key fs key name) (fun fs _ => (fs, Return key)).

(** [_init_account_key]: [find_key] first, [gen_key] only when it found no
    file; the [ValueError] of [find_key] is not caught. *)
Definition _init_account_key (gen_key_rsa : Z -> Key) (fs : tree) : tree * outcome Key :=
  let acme_key_name := "acme_account"%string in
  and_then (fs, find_key fs (Some acme_key_name))
    (fun fs account_key =>
       match account_key with
       | Some account_key => (fs, Return account_key)
       | None => gen_key gen_key_rsa fs (Some acme_key_name) 4096
       end).
End WithCrypto.

End FilesystemKeyStore.

(** ** certauthority.py: the response types *)

(** A [dict]: the keys are distinct and are kept in the order in which they
    were first inserted; assigning to a key that is present replaces its
    value in place. *)
Abbreviation dict K V := (list (K * V)).

Section Dict.
Context {K V : Type} `{EqDecision K}.

(** [d.get(k)] *)
Fixpoint dict_get (k : K) (d : dict K V) : option V :=
  match d with
  | [] => None
  | (k', v) :: d => if decide (k = k') then Some v else dict_get k d
  end.

(** [d[k] = v] *)
Fixpoint dict_set (k : K) (v : V) (d : dict K V) : dict K V :=
  match d with
  | [] => [(k, v)]
  | (k', v') :: d => if decide (k = k') then (k', v) :: d else (k', v') :: dict_set k v d
  end.

(** [k in d] *)
Definition dict_in (k : K) (d : dict K V) : bool := bool_decide (is_Some (dict_get k d)).
End Dict.

(** class IssuedCert: the fields after [__init__] has turned keys and
    certificates into text.  The PEM encoders produce ASCII, and
    [.decode("utf-8")] is the identity on it. *)
Record IssuedCert := Build_IssuedCert {
  privateKey : string;
  certificate : string;
  domains : list string;
}.

Record CertificateResponse := Build_CertificateResponse {
  existing : list IssuedCert;
  issued : list IssuedCert;
}.

Section Response.
Context {crypto : Crypto} {I : Type} `{EqDecision I}.

(** The arguments [IssuedCert.__init__] tells apart with [isinstance]. *)
Inductive key_arg := KeyObject (k : Key) | KeyBytes (b : bytes) | KeyStr (s : string).
Inductive cert_arg := CertObject (c : Certificate) | CertBytes (b : bytes) | CertStr (s : string).

Definition IssuedCert_init (key : key_arg) (cert : cert_arg) (domains : list string)
  : IssuedCert :=
  let key := match key with KeyObject k => key_to_pem k | KeyBytes b => b | KeyStr s => s end in
  let cert := match cert with CertObject c => cert_to_pem c | CertBytes b => b | CertStr s => s end in
  Build_IssuedCert key cert domains.

(** The first loop of [createExistingResponse]: one step on [certMap]. *)
Definition certMap_add (certMap : dict I (list string * string * string))
    (item : string * (I * Key * Certificate)) : dict I (list string * string * string) :=
  let '(h, (id, key, cert)) := item in
  match dict_get id certMap with
  | Some (hosts, key_pem, cert_pem) => dict_set id (hosts ++ [h], key_pem, cert_pem) certMap
  | None => dict_set id ([h], key_to_pem key, cert_to_pem cert) certMap
  end.

Definition createExistingResponse (existing : dict string (I * Key * Certificate))
    (issued_certs : list IssuedCert) : CertificateResponse :=
  let certMap := foldl certMap_add [] existing in
  let certs :=
    (fun '(_, (hosts, key, cert)) => IssuedCert_init (KeyStr key) (CertStr cert) hosts)
      <$> certMap in
  Build_CertificateResponse certs issued_certs.

(** The entries of [existing] that carry the certificate identifier [id],
    in the order of [existing]. *)
Definition with_id (id : I) (existing : dict string (I * Key * Certificate))
  : list (string * (I * Key * Certificate)) :=
  filter (fun item => item.2.1.1 = id) existing.

(** The certificate identifiers of the entries of [existing]. *)
Definition ids_of (existing : dict string (I * Key * Certificate)) : list I :=
  (fun item => item.2.1.1) <$> existing.
End Response.

(** ** certauthority.py: the world [obtainCert] runs in *)

(** A challenge handle of the protocol client. *)
Record Challenge := Build_Challenge {
  token : string;
  authorization_key : string;
}.

#[export] Instance Challenge_eq_dec : EqDecision Challenge.
Proof. solve_decision. Defined.

(** What [obtainCert] does to the outside, in the order it does it: the
    calls on the protocol client, the writes to the challenge store and the
    pauses. *)
Inductive event :=
| CreateAuthorizedOrder (domains : list string)
| RemainingChallenges
| Publish (token proof : string)              (* challengesStore[token] = proof *)
| Verify (c : Challenge)                      (* c.verify() *)
| QueryProgress (c : Challenge) (status : bool) (* c.query_progress() and its answer *)
| Sleep (seconds : Z)                         (* time.sleep(seconds) *)
| Finalize                                    (* order.finalize(csr) *)
| Refresh (status : string)                   (* order.refresh(), then order.status *)
| GetCertificate.                             (* order.get_certificate() *)

#[export] Instance event_eq_dec : EqDecision event.
Proof. solve_decision. Defined.

(** The kinds of events the properties below tell apart. *)
Definition is_publication (e : event) : bool :=
  match e with Publish _ _ | Verify _ => true | _ => false end.
Definition is_query (e : event) : bool :=
  match e with QueryProgress _ _ => true | _ => false end.
Definition is_sleep (e : event) : bool :=
  match e with Sleep _ => true | _ => false end.
Definition is_refresh (e : event) : bool :=
  match e with Refresh _ => true | _ => false end.

(** The number of pauses among some events. *)
Definition pauses (events : list event) : nat :=
  length (filter (fun e => is_sleep e = true) events).

(** The places in the events of the challenge loop at which a round
    begins: its start, and after each pause. *)
Definition round_start (pre : list event) : Prop :=
  pre = [] \/ last pre = Some (Sleep 3).

(** No challenge is asked again once it has answered [True]. *)
Fixpoint settled (events : list event) : Prop :=
  match events with
  | [] => True
  | e :: events =>
      match e with
      | QueryProgress c true => forall b, QueryProgress c b ∉ events
      | _ => True
      end /\ settled events
  end.

(** The events of lines 45 to 49 for a list of challenges: each proof is
    written to the challenge store and its verification triggered. *)
Definition publications (challenges : list Challenge) : list event :=
  c ← challenges; [Publish (token c) (authorization_key c); Verify c].

(** The protocol client [Acme], the orders and challenges it hands out, and
    the two [crypto] functions [obtainCert] calls.  None of them is part of
    the two files: each answer is a function of what has happened so far.
    [elapse] is the time the next call takes beyond what the code itself
    asks for.  [json_raises] is the method [json()] of a [requests]
    response: [None] when it returns the decoded body, the exception when
    it raises one (a [ValueError] for a body that is not JSON). *)
Class Acme `{Crypto} := {
  Order : Type;
  Response : Type;
  Csr : Type;
  json_raises : Response -> option exn;
  gen_key_secp256r1 : list event -> Key;
  create_csr : Key -> string -> list string -> Csr;
  create_authorized_order : list event -> list string -> option Order * option Response;
  remaining_challenges : list event -> Order -> list Challenge;
  query_progress : list event -> Challenge -> bool;
  order_status : list event -> Order -> string;
  get_certificate : list event -> Order -> Certificate;
  elapse : list event -> N;
}.

(** The state one call of [obtainCert] threads: the key store, the clock
    [time.time()] reads, the events so far and the challenge store. *)
Record world (S : Type) := World {
  key_store : S;
  now : Z;
  log : list event;
  challengesStore : gmap string string;
}.
Arguments World {S} _ _ _ _.
Arguments key_store {S} _.
Arguments now {S} _.
Arguments log {S} _.
Arguments challengesStore {S} _.

(** How the challenge loop ended: by its [else] branch, the list of pending
    challenges empty, or by [break]. *)
Inductive loop_exit := Exhausted | Broke.

Record poll_result := Build_poll_result {
  exit : loop_exit;
  pending : list Challenge;   (* [source] when the loop ended *)
  rounds : Z;                 (* [counter] when the loop ended *)
}.

(** The argument of [obtainCert]: a [str] or a list of them. *)
Inductive host_arg := HostStr (h : string) | HostList (hosts : list string).

(** Lines 31 and 32: [if type(host) == str: host = [host]]. *)
Definition host_list (host : host_arg) : list string :=
  match host with
  | HostStr h => [h]
  | HostList hosts => hosts
  end.

Section Orchestrator.
Context {crypto : Crypto} {acme : Acme} {S I : Type} {store : KeyStore S I} `{EqDecision I}.

(** Line 42, reached when no order came back.  The argument of
    [ValueError] is evaluated first: [err.status_code], which [None] does
    not have, then [err.json()], then [json.dumps] with a second positional
    argument, which it does not take.  [ValueError] itself is never
    built. *)
Definition order_rejected (error : option Response) : exn :=
  match error with
  | None => AttributeError
  | Some err =>
      match json_raises err with
      | Some e => e
      | None => TypeError
      end
  end.

Definition set_key_store (w : world S) (s : S) : world S :=
  World s (now w) (log w) (challengesStore w).

(** An event happens: it is logged and the clock moves on, by the length
    of the pause for [time.sleep] and by what the call takes besides. *)
Definition emit (e : event) (w : world S) : world S :=
  let pause := match e with Sleep seconds => seconds | _ => 0 end in
  World (key_store w) (now w + pause + Z.of_N (elapse (log w))) (log w ++ [e])
        (challengesStore w).

(** Lines 45 to 49: publish every challenge and trigger its verification. *)
Definition publish (c : Challenge) (w : world S) : world S :=
  let w := emit (Publish (token c) (authorization_key c)) w in
  let w := World (key_store w) (now w) (log w)
                 (<[token c := authorization_key c]> (challengesStore w)) in
  emit (Verify c) w.

Definition publish_all (challenges : list Challenge) (w : world S) : world S :=
  foldl (fun w c => publish c w) w challenges.

(** The challenge store after the proofs of [challenges] were written to
    it one after the other. *)
Definition published (challenges : list Challenge) (store : gmap string string)
  : gmap string string :=
  foldl (fun store c => <[token c := authorization_key c]> store) store challenges.

(** The world after the given events have happened in it one after the
    other. *)
Definition replay (events : list event) (w : world S) : world S :=
  foldl (fun w e => emit e w) w events.

(** Lines 59 to 62: one round of queries; the result is [sink]. *)
Fixpoint query_round (source : list Challenge) (w : world S) : list Challenge * world S :=
  match source with
  | [] => ([], w)
  | c :: source =>
      let status := query_progress (log w) c in
      let w := emit (QueryProgress c status) w in
      let '(sink, w) := query_round source w in
      (if status then sink else c :: sink, w)
  end.

(** Lines 55 to 67: the [while] loop, [fuel] bounding its rounds. *)
Fixpoint poll_loop (fuel : nat) (end_ : Z) (source : list Challenge) (counter : Z)
    (w : world S) : outcome poll_result * world S :=
  match source with
  | [] => (Return (Build_poll_result Exhausted source counter), w)
  | _ :: _ =>
      if bool_decide (now w > end_) && bool_decide (counter > 4)
      then (Return (Build_poll_result Broke source counter), w)
      else
        match fuel with
        | O => (Diverge, w)
        | Datatypes.S fuel =>
            let '(sink, w) := query_round source w in
            let w := match sink with [] => w | _ :: _ => emit (Sleep 3) w end in
            poll_loop fuel end_ sink (counter + 1) w
        end
  end.

Section ObtainCert.
Variables (order : Order) (error : option Response) (private_key : Key)
          (missing0 : string) (missing : list string)
          (existing : dict string (I * Key * Certificate)).

(** Lines 71 to 85: the inner [obtain_cert].  [depth] is the room left
    on the interpreter's call stack; Python raises [RecursionError]
    when it is used up. *)
Fixpoint obtain_cert (depth : nat) (count : Z) (w : world S)
  : outcome (option CertificateResponse * option Response) * world S :=
  match depth with
  | O => (Raise RecursionError, w)
  | Datatypes.S depth =>
      let w := emit (Sleep 3) w in
      let status := order_status (log w) order in
      let w := emit (Refresh status) w in
      if decide (status = "valid") then
        let certificate := get_certificate (log w) order in
        let w := emit GetCertificate w in
        let '(s, key_id) := save_key (key_store w) private_key (Some missing0) in
        let w := set_key_store w s in
        match key_id with
        | Return key_id =>
            let '(s, cert_id) := save_cert (key_store w) key_id certificate missing None in
            let w := set_key_store w s in
            match cert_id with
            | Return cert_id =>
                let issued_cert :=
                  IssuedCert_init (KeyBytes (key_to_pem private_key))
                                  (CertObject certificate) missing in
                let response := createExistingResponse existing [issued_cert] in
                (Return (Some response, None), w)
            | Raise e => (Raise e, w)
            | Diverge => (Diverge, w)
            end
        | Raise e => (Raise e, w)
        | Diverge => (Diverge, w)
        end
      else if decide (status = "processing") then
        if decide (count = 0) then (Return (None, error), w)
        else obtain_cert depth 5 w   (* obtain_cert(): [count] is 5 again *)
      else (Return (None, error), w)
  end.
End ObtainCert.

(** Line 34, the inner list: [(h, get_cert(h)) for h in host]. *)
Fixpoint lookups (s : S) (host : list string)
  : outcome (list (string * option (I * Key * Certificate))) :=
  match host with
  | [] => Return []
  | h :: host =>
      c ← get_cert s h;
      rest ← lookups s host;
      Return ((h, c) :: rest)
  end.

(** Line 34, the dict comprehension over the pairs found. *)
Definition existing_of (found : list (string * option (I * Key * Certificate)))
  : dict string (I * Key * Certificate) :=
  foldl (fun d c => match c.2 with Some r => dict_set c.1 r d | None => d end) [] found.

(** The requested domains for which [get_cert] returns [None], in the
    order of the request. *)
Definition is_absent {A} (o : outcome (option A)) : bool :=
  match o with Return None => true | _ => false end.

Definition unresolved (s : S) (host : list string) : list string :=
  filter (fun h => is_absent (get_cert s h) = true) host.

Definition obtainCert (fuel depth : nat) (host : host_arg) (w : world S)
  : outcome (option CertificateResponse * option Response) * world S :=
  let host := host_list host in
  match lookups (key_store w) host with
  | Raise e => (Raise e, w)
  | Diverge => (Diverge, w)
  | Return found =>
      let existing := existing_of found in
      let missing := filter (fun h => dict_in h existing = false) host in
      match missing with
      | missing0 :: _ =>
          let private_key := gen_key_secp256r1 (log w) in
          let '(order, error) := create_authorized_order (log w) missing in
          let w := emit (CreateAuthorizedOrder missing) w in
          match order with
          | None => (Raise (order_rejected error), w)
          | Some order =>
              let challenges := remaining_challenges (log w) order in
              let w := emit RemainingChallenges w in
              let w := publish_all challenges w in
              let end_ := now w + 40 in
              let '(polled, w) := poll_loop fuel end_ challenges 1 w in
              match polled with
              | Return _ =>
                  let csr := create_csr private_key missing0 (tail missing) in
                  let w := emit Finalize w in
                  obtain_cert order error private_key missing0 missing existing depth 5 w
              | Raise e => (Raise e, w)
              | Diverge => (Diverge, w)
              end
          end
      | [] => (Return (Some (createExistingResponse existing []), None), w)
      end
  end.
End Orchestrator.

(** ** A concrete instance to run the code on *)
Module Toy.

(** A toy codec: an encoding is the text behind a one-letter tag, and a
    decoder refuses whatever does not carry its tag. *)
Definition untag (tag : ascii) (b : bytes) : option string :=
  match b with
  | String a s => if decide (a = tag) then Some s else None
  | EmptyString => None
  end.

Definition crypto : Crypto := {|
  Key := string;
  Certificate := string;
  key_to_der := String "k";
  key_to_pem := String "K";
  Key_from_der := untag "k";
  Key_from_pem := untag "K";
  cert_to_der := String "c";
  cert_to_pem := String "C";
  cert_from_der := untag "c";
  cert_from_pem := untag "C";
|}.

(** A protocol client that grants every order, hands out the given
    challenges and answers as the two given functions say; each of its
    calls, and each pause, takes [latency] more than asked. *)
Definition acme_taking (latency : N) (challenges : list Challenge)
    (progress : list event -> Challenge -> bool) (status : list event -> string)
  : @Acme crypto := {|
  Order := unit;
  Response := string;
  Csr := string;
  json_raises := fun _ => None;
  gen_key_secp256r1 := fun _ => "fresh"%string : @Key crypto;
  create_csr := fun _ subject _ => subject;
  create_authorized_order := fun _ _ => (Some tt, None);
  remaining_challenges := fun _ _ => challenges;
  query_progress := progress;
  order_status := fun events _ => status events;
  get_certificate := fun _ _ => "issued"%string : @Certificate crypto;
  elapse := fun _ => latency;
|}.

(** The same with calls that take no time. *)
Definition acme := acme_taking 0.

Definition ch1 : Challenge := Build_Challenge "token1" "proof1".
Definition ch2 : Challenge := Build_Challenge "token2" "proof2".

(** Challenges that confirm from the third round of queries on: the log
    then holds two pauses. *)
Definition confirms_in_third_round : list event -> Challenge -> bool :=
  fun events _ => bool_decide (2 <= length (filter (fun e => is_sleep e = true) events))%nat.

Definition always_valid : list event -> string := fun _ => "valid"%string.

(** A file system in which a store was just set up in the directory
    [/srv]: the two directories exist and are empty. *)
Definition in_srv (name : string) : FilesystemKeyStore.path := ["srv"%string; name].

Definition empty_tree : FilesystemKeyStore.tree :=
  FilesystemKeyStore.Tree
    {[ ["srv"%string] := FilesystemKeyStore.Dir;
       in_srv "keys" := FilesystemKeyStore.Dir;
       in_srv "certs" := FilesystemKeyStore.Dir ]}
    ["srv"%string].

(** A world with an empty key store of the filesystem kind. *)
Definition world0 : world FilesystemKeyStore.tree :=
  World empty_tree 0 [] ∅.

(** A database and a directory tree whose record for "z.com" holds
    certificate bytes that are not an encoding of anything. *)
Definition corrupt_db : SqliteKeyStore.database :=
  SqliteKeyStore.Database
    [SqliteKeyStore.Private_key 1 None "kzkey"] 1
    [SqliteKeyStore.Certificate_row 1 None 1 "garbage"] 1
    [SqliteKeyStore.Ssl_domain "z.com" 1].

Definition corrupt_tree : FilesystemKeyStore.tree :=
  FilesystemKeyStore.Tree
    (<[ in_srv "keys" ++ ["z.com.key"%string] := FilesystemKeyStore.File "Kzkey" ]>
       (<[ in_srv "certs" ++ ["z.com.crt"%string] := FilesystemKeyStore.File "garbage" ]>
          (FilesystemKeyStore.nodes empty_tree)))
    ["srv"%string].

(** A connection and a directory tree after one [save_key]. *)
Definition conn1 : SqliteKeyStore.connection :=
  (SqliteKeyStore.save_key (crypto := crypto)
     (SqliteKeyStore.connect SqliteKeyStore.empty_db) "key"%string None).1.

Definition tree1 : FilesystemKeyStore.tree :=
  (FilesystemKeyStore.save_key (crypto := crypto)
     empty_tree "key"%string (Some "a.com"%string)).1.

(** A database in which "a.com" already has a certificate under key 1, and
    which holds a second key that no certificate uses yet. *)
Definition indexed_db : SqliteKeyStore.database :=
  SqliteKeyStore.Database
    [SqliteKeyStore.Private_key 1 None "kold"; SqliteKeyStore.Private_key 2 None "knew"] 2
    [SqliteKeyStore.Certificate_row 1 None 1 "cold"] 1
    [SqliteKeyStore.Ssl_domain "a.com" 1].

(** [conn1] after two [save_cert] calls for "a.com", and what the second
    of them returned. *)
Definition saved_twice : SqliteKeyStore.connection * Z :=
  SqliteKeyStore.save_cert (crypto := crypto)
    (SqliteKeyStore.save_cert (crypto := crypto) conn1 1 "first"%string
       ["a.com"%string] None).1
    1 "second"%string ["a.com"%string] None.

(** [indexed_db] after a [save_cert] under key 2 that covers "a.com". *)
Definition saved_over : SqliteKeyStore.connection * Z :=
  SqliteKeyStore.save_cert (crypto := crypto) (SqliteKeyStore.connect indexed_db)
    2 "new"%string ["a.com"%string; "b.com"%string] None.

(** [save_cert] on [conn1] for two domains, cut after the first of the two
    per-domain INSERTs. *)
Definition cut_after_one : SqliteKeyStore.connection :=
  SqliteKeyStore.save_cert_interrupted (crypto := crypto) 1 conn1 1 "cert"%string
    ["a.com"%string; "b.com"%string] None.

(** [tree1] after a [save_cert] that covers two domains. *)
Definition tree2 : FilesystemKeyStore.tree :=
  (FilesystemKeyStore.save_cert (crypto := crypto) tree1 (Some "a.com"%string)
     "cert"%string ["a.com"%string; "b.com"%string] None).1.

(** The two backends after the same calls: one [save_key], then one
    [save_cert] for "a.com" and "b.com". *)
Definition world_fs : world FilesystemKeyStore.tree := World tree2 0 [] ∅.

Definition world_sql : world SqliteKeyStore.connection :=
  World (SqliteKeyStore.save_cert (crypto := crypto) conn1 1 "cert"%string
           ["a.com"%string; "b.com"%string] None).1 0 [] ∅.

(** A protocol client that hands out no order. *)
Definition rejecting_acme : @Acme crypto := {|
  Order := unit;
  Response := string;
  Csr := string;
  json_raises := fun _ => None;
  gen_key_secp256r1 := fun _ => "fresh"%string : @Key crypto;
  create_csr := fun _ subject _ => subject;
  create_authorized_order := fun _ _ => (None, Some "rejected"%string);
  remaining_challenges := fun _ _ => [];
  query_progress := fun _ _ => false;
  order_status := fun _ _ => "pending"%string;
  get_certificate := fun _ _ => "issued"%string : @Certificate crypto;
  elapse := fun _ => 0%N;
|}.

Definition always_invalid : list event -> string := fun _ => "invalid"%string.

(** The key generator of the [crypto] module, for the account key. *)
Definition gen_key_rsa : Z -> @Key crypto := fun _ => "account"%string.
Definition gen_key_rsa' : Z -> @Key crypto := fun _ => "another"%string.

(** A directory tree whose account key file does not decode. *)
Definition corrupt_account_tree : FilesystemKeyStore.tree :=
  FilesystemKeyStore.Tree
    (<[ in_srv "keys" ++ ["acme_account.key"%string] := FilesystemKeyStore.File "garbage" ]>
       (FilesystemKeyStore.nodes empty_tree))
    ["srv"%string].

(** A world on the database with the undecodable record. *)
Definition world_corrupt : world SqliteKeyStore.connection :=
  World (SqliteKeyStore.connect corrupt_db) 0 [] ∅.

Definition never_confirms : list event -> Challenge -> bool := fun _ _ => false.
Definition always_processing : list event -> string := fun _ => "processing"%string.

End Toy.

(** ** Proof steps used more than once *)

(** An inclusion between lists written out with [::], [++] and [<$>]. *)
Ltac list_incl :=
  intros ?x; rewrite ?fmap_cons, ?elem_of_app, ?elem_of_cons, ?elem_of_nil; tauto.

(** * Properties *)

(** ** Dictionaries *)
Section DictFacts.
Context {K V : Type} `{EqDecision K}.
Implicit Types (d : dict K V) (k : K) (v : V).

Lemma dict_get_set_eq d k v : dict_get k (dict_set k v d) = Some v.
Proof.
  induction d as [|[k' v'] d IH]; cbn.
  - by rewrite decide_True.
  - destruct (decide (k = k')) as [->|Hne]; cbn.
    + by rewrite decide_True.
    + by rewrite decide_False.
Qed.

Lemma dict_get_set_ne d k k' v : k <> k' -> dict_get k' (dict_set k v d) = dict_get k' d.
Proof.
  intros Hne. induction d as [|[k0 v0] d IH]; cbn.
  - by rewrite decide_False.
  - destruct (decide (k = k0)) as [->|Hne0]; cbn.
    + by rewrite !decide_False.
    + by destruct (decide (k' = k0)).
Qed.

Lemma dict_get_Some_elem d k v : dict_get k d = Some v -> (k, v) ∈ d.
Proof.
  induction d as [|[k' v'] d IH]; cbn; [done|].
  destruct (decide (k = k')) as [->|Hne].
  - intros [= ->]. apply elem_of_cons. by left.
  - intros Hget. apply elem_of_cons. right. by apply IH.
Qed.

Lemma dict_get_None_keys d k : dict_get k d = None <-> k ∉ d.*1.
Proof.
  induction d as [|[k' v'] d IH]; cbn.
  - split; [intros _ Hin; inversion Hin|done].
  - rewrite not_elem_of_cons. destruct (decide (k = k')) as [->|Hne].
    + split; [done|]. by intros [? _].
    + rewrite IH. split; [by split|by intros [_ ?]].
Qed.

Lemma dict_elem_get d k v : NoDup d.*1 -> (k, v) ∈ d -> dict_get k d = Some v.
Proof.
  induction d as [|[k' v'] d IH]; cbn; [intros _ Hin; inversion Hin|].
  intros [Hnotin Hnodup]%NoDup_cons [[= -> ->]|Hin]%elem_of_cons.
  - by rewrite decide_True.
  - rewrite decide_False; [by apply IH|].
    intros ->. apply Hnotin. apply list_elem_of_fmap. by exists (k', v).
Qed.

Lemma dict_set_keys d k v :
  (dict_set k v d).*1 = match dict_get k d with Some _ => d.*1 | None => d.*1 ++ [k] end.
Proof.
  induction d as [|[k' v'] d IH]; cbn; [done|].
  destruct (decide (k = k')) as [->|Hne]; cbn; [done|].
  rewrite IH. by destruct (dict_get k d).
Qed.

Lemma dict_set_NoDup d k v : NoDup d.*1 -> NoDup (dict_set k v d).*1.
Proof.
  intros Hnodup. rewrite dict_set_keys.
  destruct (dict_get k d) eqn:Hget; [done|].
  apply NoDup_app. split; [done|]. split; [|apply NoDup_singleton].
  intros k' Hin ->%list_elem_of_singleton. by apply dict_get_None_keys in Hget.
Qed.
End DictFacts.

(** ** Response assembly *)
Section ResponseFacts.
Context {crypto : Crypto} {I : Type} `{EqDecision I}.
Implicit Types (ex : dict string (I * Key * Certificate)) (id : I).

Lemma with_id_cons id h id' key cert ex :
  with_id id ((h, (id', key, cert)) :: ex) =
    if decide (id' = id) then (h, (id', key, cert)) :: with_id id ex else with_id id ex.
Proof. unfold with_id. by rewrite filter_cons. Qed.

(** What the first loop of [createExistingResponse] leaves under an
    identifier: the hosts already there followed by the hosts of the
    entries with that identifier, with the key and certificate of the
    first one seen. *)
Lemma certMap_get ex (acc : dict I (list string * string * string)) id :
  dict_get id (foldl certMap_add acc ex) =
    match dict_get id acc with
    | Some (hosts, key, cert) => Some (hosts ++ (with_id id ex).*1, key, cert)
    | None =>
        match with_id id ex with
        | [] => None
        | (_, (_, key, cert)) :: _ =>
            Some ((with_id id ex).*1, key_to_pem key, cert_to_pem cert)
        end
    end.
Proof.
  revert acc. induction ex as [|[h [[id' key] cert]] ex IH]; intros acc.
  - cbn. destruct (dict_get id acc) as [[[hosts k] c]|]; [|done].
    by rewrite app_nil_r.
  - cbn [foldl]. rewrite IH. cbn [certMap_add].
    destruct (decide (id' = id)) as [->|Hne].
    + destruct (dict_get id acc) as [[[hosts k] c]|] eqn:Hacc;
        rewrite dict_get_set_eq, with_id_cons, decide_True by done.
      * cbn. by rewrite <- app_assoc.
      * done.
    + destruct (dict_get id' acc) as [[[hosts k] c]|];
        rewrite dict_get_set_ne by done;
        destruct (dict_get id acc) as [[[hosts0 k0] c0]|];
        by rewrite with_id_cons, decide_False.
Qed.

Lemma certMap_NoDup ex (acc : dict I (list string * string * string)) :
  NoDup acc.*1 -> NoDup (foldl certMap_add acc ex).*1.
Proof.
  revert acc. induction ex as [|[h [[id' key] cert]] ex IH]; intros acc Hacc; [done|].
  cbn [foldl]. apply IH. cbn.
  destruct (dict_get id' acc) as [[[hosts k] c]|]; by apply dict_set_NoDup.
Qed.

Lemma with_id_elem ex id h id' key cert :
  (h, (id', key, cert)) ∈ with_id id ex <-> id' = id /\ (h, (id', key, cert)) ∈ ex.
Proof. unfold with_id. by rewrite list_elem_of_filter. Qed.

(** The bundles of the response, one for one: a bundle is in the list of
    existing ones exactly when it is the merge of the entries of some
    identifier. *)
Lemma createExistingResponse_existing ex (issued_certs : list IssuedCert) (b : IssuedCert) :
  b ∈ existing (createExistingResponse ex issued_certs) <->
  exists id h key cert rest,
    with_id id ex = (h, (id, key, cert)) :: rest
    /\ b = Build_IssuedCert (key_to_pem key) (cert_to_pem cert) (with_id id ex).*1.
Proof.
  unfold createExistingResponse. cbn [existing].
  rewrite list_elem_of_fmap. split.
  - intros ([id [[hosts k] c]] & -> & Hin).
    apply dict_elem_get in Hin; [|apply certMap_NoDup, NoDup_nil_2].
    rewrite certMap_get in Hin. cbn in Hin.
    destruct (with_id id ex) as [|[h [[id' key] cert]] rest] eqn:Hw; [done|].
    injection Hin as <- <- <-.
    assert (id' = id) as ->.
    { assert ((h, (id', key, cert)) ∈ with_id id ex) as Hin
        by (rewrite Hw; apply elem_of_cons; by left).
      by apply with_id_elem in Hin as [-> _]. }
    exists id, h, key, cert, rest. by rewrite Hw.
  - intros (id & h & key & cert & rest & Hw & ->).
    exists (id, ((with_id id ex).*1, key_to_pem key, cert_to_pem cert)).
    split; [done|]. apply dict_get_Some_elem.
    rewrite certMap_get. cbn. by rewrite Hw.
Qed.

(** One bundle per identifier. *)
Lemma createExistingResponse_length ex (issued_certs : list IssuedCert) :
  length (existing (createExistingResponse ex issued_certs))
  = length (remove_dups (ids_of ex)).
Proof.
  unfold createExistingResponse. cbn [existing].
  rewrite length_fmap, <- (length_fmap fst).
  apply Permutation_length, NoDup_Permutation.
  - apply certMap_NoDup, NoDup_nil_2.
  - apply NoDup_remove_dups.
  - intros id. rewrite elem_of_remove_dups.
    destruct (dict_get id (foldl certMap_add [] ex)) as [v|] eqn:Hget.
    + split; [intros _|intros _; apply list_elem_of_fmap; exists (id, v);
                       split; [done|by apply dict_get_Some_elem]].
      rewrite certMap_get in Hget. cbn in Hget.
      destruct (with_id id ex) as [|[h [[id' key] cert]] rest] eqn:Hw; [done|].
      assert ((h, (id', key, cert)) ∈ with_id id ex) as Hin
        by (rewrite Hw; apply elem_of_cons; by left).
      apply with_id_elem in Hin as [-> Hin].
      apply list_elem_of_fmap. by exists (h, (id, key, cert)).
    + split; [intros Hin; by apply dict_get_None_keys in Hget|].
      intros ([h [[id' key] cert]] & -> & Hin)%list_elem_of_fmap. cbn in Hget.
      rewrite certMap_get in Hget. cbn in Hget.
      assert ((h, (id', key, cert)) ∈ with_id id' ex) as Hin'
        by by apply with_id_elem.
      destruct (with_id id' ex) as [|[h0 [[id0 key0] cert0]] rest]; [inversion Hin'|done].
Qed.
End ResponseFacts.

(** ** The orchestrator *)
Section OrchestratorFacts.
Context {crypto : Crypto} {acme : Acme} {S I : Type} {store : KeyStore S I} `{EqDecision I}.

(** C10: [obtainCert] given one hostname as a plain string behaves exactly
    as when given the one-element list holding that hostname: same
    result, same final state. *)
Theorem obtainCert_str_as_singleton (fuel depth : nat) (h : string) (w : world S) :
  obtainCert fuel depth (HostStr h) w = obtainCert fuel depth (HostList [h]) w.
Proof. reflexivity. Qed.

Lemma log_emit (e : event) (w : world S) : log (emit e w) = log w ++ [e].
Proof. reflexivity. Qed.

(** C2: against an order that reports "processing" after every refresh,
    [obtain_cert] started with its default count of 5 does not stop after
    5 attempts: the recursive call passes no count, the test [count == 0]
    never holds, and the recursion goes on for as long as the call stack
    has room, one refresh per frame, to end in [RecursionError] instead
    of returning the failure. *)
Theorem obtain_cert_processing_never_returns
    (order : Order) (error : option Response) (private_key : Key) (missing0 : string)
    (missing : list string) (existing : dict string (I * Key * Certificate)) :
  (forall events o, order_status events o = "processing"%string) ->
  forall (depth : nat) (w : world S),
    exists new w',
      obtain_cert order error private_key missing0 missing existing depth 5 w
        = (Raise RecursionError, w')
      /\ log w' = log w ++ new
      /\ length (filter (fun e => is_refresh e = true) new) = depth.
Proof.
  intros Hproc depth.
  induction depth as [|depth IH]; intros w.
  - exists [], w. cbn. by rewrite app_nil_r.
  - cbn [obtain_cert]. rewrite Hproc.
    destruct (decide ("processing"%string = "valid"%string)) as [?|_]; [done|].
    destruct (decide ("processing"%string = "processing"%string)) as [_|?]; [|done].
    destruct (decide (5 = 0)) as [?|_]; [done|].
    destruct (IH (emit (Refresh "processing") (emit (Sleep 3) w))) as (new & w' & -> & Hlog & Hlen).
    exists (Sleep 3 :: Refresh "processing" :: new), w'.
    split; [done|]. split.
    + rewrite Hlog, !log_emit, <- !app_assoc. done.
    + rewrite filter_cons_False by done. rewrite filter_cons_True by done.
      cbn. by rewrite Hlen.
Qed.

(** *** The partition into existing and missing domains *)

Lemma lookups_spec (s : S) (host : list string) found :
  lookups s host = Return found ->
  found.*1 = host /\ forall h o, (h, o) ∈ found -> get_cert s h = Return o.
Proof.
  revert found. induction host as [|h host IH]; intros found; cbn.
  - intros [= <-]. split; [done|]. intros h o Hin. inversion Hin.
  - destruct (get_cert s h) as [o| |] eqn:Hget; cbn; [|done..].
    destruct (lookups s host) as [rest| |]; cbn; [|done..].
    intros [= <-]. destruct (IH rest eq_refl) as [Hkeys Hall].
    split; [cbn; by rewrite Hkeys|].
    intros h' o' [[= -> ->]|Hin]%elem_of_cons; [done|by apply Hall].
Qed.

Lemma lookups_total (s : S) (host : list string) :
  (forall h, h ∈ host -> exists o, get_cert s h = Return o) ->
  exists found, lookups s host = Return found.
Proof.
  induction host as [|h host IH]; intros Hall; cbn; [by eexists|].
  destruct (Hall h) as [o ->]; [apply elem_of_cons; by left|].
  destruct IH as [rest ->]; [intros h' Hin; apply Hall, elem_of_cons; by right|].
  cbn. by eexists.
Qed.

(** The dict comprehension of line 34 holds a domain exactly when its
    lookup found a record, with that record. *)
Lemma existing_of_fold (s : S) (found : list (string * option (I * Key * Certificate)))
    (d : dict string (I * Key * Certificate)) :
  (forall h o, (h, o) ∈ found -> get_cert s h = Return o) ->
  (forall h r, dict_get h d = Some r -> get_cert s h = Return (Some r)) ->
  NoDup d.*1 ->
  let d' := foldl (fun d c => match c.2 with Some r => dict_set c.1 r d | None => d end)
                  d found in
  NoDup d'.*1
  /\ forall h r, dict_get h d' = Some r <-> dict_get h d = Some r \/ (h, Some r) ∈ found.
Proof.
  revert d. induction found as [|[h0 o0] found IH]; intros d Hfound Hd Hnodup; cbn zeta.
  - split; [done|]. intros h r. split; [by left|]. intros [?|Hin]; [done|inversion Hin].
  - cbn [foldl fst snd].
    assert (forall h o, (h, o) ∈ found -> get_cert s h = Return o) as Hfound'.
    { intros h o Hin. apply Hfound, elem_of_cons. by right. }
    destruct o0 as [r0|].
    + destruct (IH (dict_set h0 r0 d) Hfound') as [Hnd Hget].
      { intros h r. destruct (decide (h0 = h)) as [<-|Hne].
        - rewrite dict_get_set_eq. intros [= <-]. apply Hfound, elem_of_cons. by left.
        - rewrite dict_get_set_ne by done. apply Hd. }
      { by apply dict_set_NoDup. }
      split; [done|]. intros h r. rewrite Hget, elem_of_cons.
      destruct (decide (h0 = h)) as [<-|Hne].
      * rewrite dict_get_set_eq. split.
        -- intros [[= <-]|?]; [right; by left|right; by right].
        -- intros [Hold|[[= <-]|?]]; [|by left|by right].
           left. f_equal. apply Hd in Hold.
           assert (get_cert s h0 = Return (Some r0)) as Hnew
             by (apply Hfound, elem_of_cons; by left).
           congruence.
      * rewrite dict_get_set_ne by done. split.
        -- intros [?|?]; [by left|right; by right].
        -- intros [?|[[= ? ?]|?]]; [by left|done|by right].
    + destruct (IH d Hfound' Hd Hnodup) as [Hnd Hget].
      split; [done|]. intros h r. rewrite Hget, elem_of_cons.
      split; [intros [?|?]; [by left|right; by right]|].
      intros [?|[[=]|?]]; [by left|by right].
Qed.

Lemma existing_of_spec (s : S) (host : list string) found :
  lookups s host = Return found ->
  NoDup (existing_of found).*1
  /\ forall h r, (h, r) ∈ existing_of found <-> h ∈ host /\ get_cert s h = Return (Some r).
Proof.
  intros Hlook. destruct (lookups_spec s host found Hlook) as [Hkeys Hall].
  destruct (existing_of_fold s found [] Hall) as [Hnd Hget]; [done|apply NoDup_nil_2|].
  fold (existing_of found) in Hnd, Hget.
  split; [done|]. intros h r. split.
  - intros Hin. apply (dict_elem_get _ _ _ Hnd), Hget in Hin as [?|Hin]; [done|].
    split; [|by apply Hall]. rewrite <- Hkeys. apply list_elem_of_fmap. by exists (h, Some r).
  - intros [Hin Hcert]. apply dict_get_Some_elem, Hget. right.
    rewrite <- Hkeys in Hin. apply list_elem_of_fmap in Hin as ([h' o] & -> & Hin).
    cbn. apply Hall in Hin as Ho. cbn in Hcert. by replace o with (Some r) in Hin by congruence.
Qed.

(** C6: when every requested domain resolves in the key store,
    [obtainCert] returns at once and leaves the world as it found it, so
    that no protocol-client call, challenge publication or pause took
    place; the response has no issued bundle, and its existing bundles are
    exactly the stored ones: every requested domain is in the bundle of its
    certificate identifier, and every bundle carries the key and the
    certificate stored for a requested domain and lists exactly the
    requested domains stored under that identifier. *)
Theorem obtainCert_all_stored (fuel depth : nat) (host : host_arg) (w : world S) :
  (forall h, h ∈ host_list host -> exists r, get_cert (key_store w) h = Return (Some r)) ->
  exists resp,
    obtainCert fuel depth host w = (Return (Some resp, None), w)
    /\ log (obtainCert fuel depth host w).2 = log w
    /\ issued resp = []
    /\ (forall h id key cert,
          h ∈ host_list host ->
          get_cert (key_store w) h = Return (Some (id, key, cert)) ->
          exists b h0 key0 cert0,
            b ∈ existing resp /\ h ∈ domains b
            /\ h0 ∈ host_list host
            /\ get_cert (key_store w) h0 = Return (Some (id, key0, cert0))
            /\ privateKey b = key_to_pem key0
            /\ certificate b = cert_to_pem cert0)
    /\ (forall b, b ∈ existing resp ->
          exists id h0 key0 cert0,
            h0 ∈ host_list host
            /\ get_cert (key_store w) h0 = Return (Some (id, key0, cert0))
            /\ privateKey b = key_to_pem key0
            /\ certificate b = cert_to_pem cert0
            /\ forall h, h ∈ domains b <->
                 h ∈ host_list host
                 /\ exists key cert, get_cert (key_store w) h = Return (Some (id, key, cert))).
Proof.
  intros Hall.
  destruct (lookups_total (key_store w) (host_list host)) as [found Hlook].
  { intros h Hin. destruct (Hall h Hin) as [r ->]. by eexists. }
  destruct (existing_of_spec _ _ _ Hlook) as [Hnd Hex].
  assert (filter (fun h => dict_in h (existing_of found) = false) (host_list host) = [])
    as Hmissing.
  { apply elem_of_nil_inv. intros h [Hnotin Hin]%list_elem_of_filter.
    destruct (Hall h Hin) as [r Hr].
    assert ((h, r) ∈ existing_of found) as Hhr by by apply Hex.
    apply (dict_elem_get _ _ _ Hnd) in Hhr.
    unfold dict_in in Hnotin. rewrite Hhr in Hnotin.
    by rewrite bool_decide_eq_true_2 in Hnotin. }
  assert (obtainCert fuel depth host w
          = (Return (Some (createExistingResponse (existing_of found) []), None), w)) as Hrun.
  { unfold obtainCert. rewrite Hlook. cbn zeta. by rewrite Hmissing. }
  exists (createExistingResponse (existing_of found) []).
  split; [done|]. split; [by rewrite Hrun|]. split; [done|]. split.
  - intros h id key cert Hin Hget.
    assert ((h, (id, key, cert)) ∈ with_id id (existing_of found)) as Hw
      by (apply with_id_elem; split; [done|by apply Hex]).
    destruct (with_id id (existing_of found)) as [|[h0 [[id0 key0] cert0]] rest] eqn:Heq;
      [inversion Hw|].
    assert ((h0, (id0, key0, cert0)) ∈ with_id id (existing_of found)) as Hw0
      by (rewrite Heq; apply elem_of_cons; by left).
    apply with_id_elem in Hw0 as [-> Hin0]. apply Hex in Hin0 as [Hin0 Hget0].
    exists (Build_IssuedCert (key_to_pem key0) (cert_to_pem cert0)
              (with_id id (existing_of found)).*1), h0, key0, cert0.
    split; [apply createExistingResponse_existing; exists id, h0, key0, cert0, rest;
            by rewrite Heq|].
    split; [|done]. cbn [domains]. rewrite Heq. apply list_elem_of_fmap.
    by exists (h, (id, key, cert)).
  - intros b (id & h0 & key0 & cert0 & rest & Heq & ->)%createExistingResponse_existing.
    assert ((h0, (id, key0, cert0)) ∈ with_id id (existing_of found)) as Hw0
      by (rewrite Heq; apply elem_of_cons; by left).
    apply with_id_elem in Hw0 as [_ Hin0]. apply Hex in Hin0 as [Hin0 Hget0].
    exists id, h0, key0, cert0. split; [done|]. split; [done|]. split; [done|].
    split; [done|]. intros h. cbn [domains]. rewrite list_elem_of_fmap. split.
    + intros ([h' [[id' key] cert]] & -> & [-> Hin]%with_id_elem).
      apply Hex in Hin as [Hin Hget]. split; [done|]. by exists key, cert.
    + intros [Hin (key & cert & Hget)]. exists (h, (id, key, cert)).
      split; [done|]. apply with_id_elem. split; [done|]. by apply Hex.
Qed.

(** *** The challenge loop *)

Lemma now_emit (e : event) (w : world S) :
  now (emit e w)
  = now w + match e with Sleep seconds => seconds | _ => 0 end + Z.of_N (elapse (log w)).
Proof. reflexivity. Qed.

(** One round of queries: what it logs, and what it leaves in [sink]. *)
Lemma query_round_spec (source : list Challenge) (w : world S) :
  exists new,
    log (query_round source w).2 = log w ++ new
    /\ key_store (query_round source w).2 = key_store w
    /\ now w <= now (query_round source w).2
    /\ Forall (fun e => is_query e = true) new
    /\ (forall c b, QueryProgress c b ∈ new -> c ∈ source)
    /\ (forall c, c ∈ (query_round source w).1 -> c ∈ source)
    /\ (forall c, c ∈ source ->
          c ∈ (query_round source w).1 \/ QueryProgress c true ∈ new)
    /\ ((forall events c, query_progress events c = false) ->
        (query_round source w).1 = source).
Proof.
  revert w. induction source as [|c source IH]; intros w.
  - exists []. cbn. rewrite app_nil_r.
    split; [done|]. split; [done|]. split; [lia|]. split; [done|].
    split; [intros c b Hin; inversion Hin|].
    split; [done|]. split; [|done].
    intros c Hin. inversion Hin.
  - cbn [query_round].
    set (status := query_progress (log w) c).
    destruct (IH (emit (QueryProgress c status) w))
      as (new & Hlog & Hks & Hnow & Hq & Hsrc & Hsink & Hconf & Hnever).
    destruct (query_round source (emit (QueryProgress c status) w)) as [sink w'].
    cbn [fst snd] in *.
    exists (QueryProgress c status :: new).
    split; [by rewrite Hlog, log_emit, <- app_assoc|].
    split; [done|].
    split; [rewrite now_emit in Hnow; lia|].
    split; [by constructor|].
    split; [|split; [|split]].
    + intros c' b [Heq|Hin]%elem_of_cons.
      * injection Heq as -> _. apply elem_of_cons. by left.
      * apply elem_of_cons. right. by eapply Hsrc.
    + intros c' Hin. apply elem_of_cons.
      destruct status.
      * right. by apply Hsink.
      * apply elem_of_cons in Hin as [->|Hin]; [by left|right; by apply Hsink].
    + intros c' [->|Hin]%elem_of_cons.
      * destruct status eqn:Hst.
        -- right. apply elem_of_cons. by left.
        -- left. apply elem_of_cons. by left.
      * destruct (Hconf c' Hin) as [Hs|Hc].
        -- left. destruct status; [done|]. apply elem_of_cons. by right.
        -- right. apply elem_of_cons. by right.
    + intros Hfalse. unfold status. rewrite Hfalse. by rewrite (Hnever Hfalse).
Qed.

Lemma poll_loop_nil (fuel : nat) (end_ : Z) (counter : Z) (w : world S) :
  poll_loop fuel end_ [] counter w = (Return (Build_poll_result Exhausted [] counter), w).
Proof. by destruct fuel. Qed.

Lemma poll_loop_cons (fuel : nat) (end_ : Z) (c : Challenge) (source : list Challenge)
    (counter : Z) (w : world S) :
  poll_loop (Datatypes.S fuel) end_ (c :: source) counter w =
    if bool_decide (now w > end_) && bool_decide (counter > 4)
    then (Return (Build_poll_result Broke (c :: source) counter), w)
    else
      let w1 := (query_round (c :: source) w).2 in
      match (query_round (c :: source) w).1 with
      | [] => poll_loop fuel end_ [] (counter + 1) w1
      | c' :: sink => poll_loop fuel end_ (c' :: sink) (counter + 1) (emit (Sleep 3) w1)
      end.
Proof.
  cbn [poll_loop]. destruct (_ && _); [done|].
  by destruct (query_round (c :: source) w) as [[|c' sink] w1].
Qed.

(** The loop from any round on, whatever the number of rounds the model
    allows: what it logs and how it can end. *)
Lemma poll_loop_run (fuel : nat) (end_ : Z) (source : list Challenge) (counter : Z)
    (w : world S) :
  exists new,
    log (poll_loop fuel end_ source counter w).2 = log w ++ new
    /\ key_store (poll_loop fuel end_ source counter w).2 = key_store w
    /\ Forall (fun e => is_query e = true \/ e = Sleep 3) new
    /\ (forall c b, QueryProgress c b ∈ new -> c ∈ source)
    /\ (forall e, (poll_loop fuel end_ source counter w).1 <> Raise e)
    /\ forall pr, (poll_loop fuel end_ source counter w).1 = Return pr ->
        (exit pr = Broke ->
         end_ < now (poll_loop fuel end_ source counter w).2
         /\ 4 < rounds pr /\ pending pr <> [])
        /\ (exit pr = Exhausted ->
            pending pr = [] /\ forall c, c ∈ source -> QueryProgress c true ∈ new)
        /\ ((forall events c, query_progress events c = false) -> source <> [] ->
            exit pr = Broke /\ pending pr = source).
Proof.
  revert source counter w.
  induction fuel as [|fuel IH]; intros [|c source] counter w.
  1,3: rewrite poll_loop_nil; exists []; cbn; rewrite app_nil_r;
       split; [done|]; split; [done|]; split; [done|];
       split; [intros c b Hin; inversion Hin|]; split; [done|];
       intros pr [= <-]; cbn; split; [done|]; split; [|done];
       intros _; split; [done|]; intros c Hin; inversion Hin.
  - exists []. cbn. rewrite app_nil_r.
    destruct (bool_decide (now w > end_) && bool_decide (counter > 4)) eqn:Hcheck; cbn.
    + apply andb_true_iff in Hcheck as [?%bool_decide_eq_true ?%bool_decide_eq_true].
      split; [done|]. split; [done|]. split; [done|].
      split; [intros c0 b Hin; inversion Hin|]. split; [done|].
      intros pr [= <-]. cbn. split; [intros _; repeat split; [lia|lia|done]|].
      split; [done|]. done.
    + split; [done|]. split; [done|]. split; [done|].
      split; [intros c0 b Hin; inversion Hin|]. split; [done|]. done.
  - rewrite poll_loop_cons.
    destruct (bool_decide (now w > end_) && bool_decide (counter > 4)) eqn:Hcheck.
    { apply andb_true_iff in Hcheck as [?%bool_decide_eq_true ?%bool_decide_eq_true].
      exists []. cbn. rewrite app_nil_r.
      split; [done|]. split; [done|]. split; [done|].
      split; [intros c0 b Hin; inversion Hin|]. split; [done|].
      intros pr [= <-]. cbn. split; [intros _; repeat split; [lia|lia|done]|].
      split; [done|]. done. }
    cbn zeta.
    destruct (query_round_spec (c :: source) w)
      as (new & Hlog & Hks & Hnow & Hq & Hsrc & Hsink & Hconf & Hnever).
    destruct (query_round (c :: source) w) as [sink w1]. cbn [fst snd] in *.
    destruct sink as [|c' sink].
    + rewrite poll_loop_nil. cbn [fst snd]. exists new.
      split; [done|]. split; [done|].
      split; [eapply Forall_impl; [exact Hq|]; cbn; by left|].
      split; [done|]. split; [done|].
      intros pr [= <-]. cbn. split; [done|]. split.
      * intros _. split; [done|]. intros c0 Hin.
        destruct (Hconf c0 Hin) as [Hnil|?]; [inversion Hnil|done].
      * intros Hfalse _. by specialize (Hnever Hfalse).
    + destruct (IH (c' :: sink) (counter + 1) (emit (Sleep 3) w1))
        as (new' & Hlog' & Hks' & Hq' & Hsrc' & Hraise & Hret).
      exists (new ++ Sleep 3 :: new').
      split; [by rewrite Hlog', log_emit, Hlog, <- !app_assoc|].
      split; [by rewrite Hks'|].
      split.
      { apply Forall_app. split.
        - eapply Forall_impl; [exact Hq|]. cbn. by left.
        - constructor; [by right|done]. }
      split.
      { intros c0 b [Hin|Hin]%elem_of_app; [by eapply Hsrc|].
        apply elem_of_cons in Hin as [[=]|Hin].
        apply Hsink. by eapply Hsrc'. }
      split; [done|].
      intros pr Hpr. destruct (Hret pr Hpr) as (Hbroke & Hexh & Hnev').
      split; [done|]. split.
      * intros Hex. destruct (Hexh Hex) as [Hpend Hall]. split; [done|].
        intros c0 Hin. apply elem_of_app.
        destruct (Hconf c0 Hin) as [Hs|?]; [|by left].
        right. apply elem_of_cons. right. by apply Hall.
      * intros Hfalse _. specialize (Hnever Hfalse). rewrite <- Hnever.
        by apply Hnev'.
Qed.

(** With enough rounds allowed the loop ends. *)
Lemma poll_loop_enough (fuel : nat) (end_ : Z) (source : list Challenge) (counter : Z)
    (w : world S) :
  end_ - now w < 3 * Z.of_nat fuel ->
  4 - counter < Z.of_nat fuel ->
  exists pr, (poll_loop fuel end_ source counter w).1 = Return pr.
Proof.
  revert source counter w.
  induction fuel as [|fuel IH]; intros [|c source] counter w Htime Hround.
  1,3: rewrite poll_loop_nil; by eexists.
  - cbn. rewrite !bool_decide_eq_true_2 by lia. by eexists.
  - rewrite poll_loop_cons.
    destruct (bool_decide (now w > end_) && bool_decide (counter > 4)); [by eexists|].
    cbn zeta.
    destruct (query_round_spec (c :: source) w) as (new & _ & _ & Hnow & _).
    destruct (query_round (c :: source) w) as [[|c' sink] w1]; cbn [fst snd] in *.
    + rewrite poll_loop_nil. by eexists.
    + apply IH; [rewrite now_emit|]; lia.
Qed.

(** *** Runs as replays of their events *)

Lemma replay_app (l k : list event) (w : world S) :
  replay (l ++ k) w = replay k (replay l w).
Proof. unfold replay. by rewrite foldl_app. Qed.

Lemma log_replay (events : list event) (w : world S) :
  log (replay events w) = log w ++ events.
Proof.
  revert w. induction events as [|e events IH]; intros w; cbn.
  - by rewrite app_nil_r.
  - change (log (replay events (emit e w)) = log w ++ e :: events).
    rewrite IH, log_emit, <- app_assoc. done.
Qed.

Lemma key_store_replay (events : list event) (w : world S) :
  key_store (replay events w) = key_store w.
Proof.
  revert w. induction events as [|e events IH]; intros w; [done|].
  change (key_store (replay events (emit e w)) = key_store w). by rewrite IH.
Qed.

Lemma challengesStore_replay (events : list event) (w : world S) :
  challengesStore (replay events w) = challengesStore w.
Proof.
  revert w. induction events as [|e events IH]; intros w; [done|].
  change (challengesStore (replay events (emit e w)) = challengesStore w). by rewrite IH.
Qed.

Lemma pauses_app (l k : list event) : pauses (l ++ k) = (pauses l + pauses k)%nat.
Proof. unfold pauses. by rewrite filter_app, length_app. Qed.

Lemma pauses_queries (l : list event) :
  Forall (fun e => is_query e = true) l -> pauses l = 0%nat.
Proof.
  unfold pauses. induction 1 as [|e l He _ IH]; [done|].
  rewrite filter_cons_False; [done|]. by destruct e.
Qed.

(** One round of queries is the replay of its events; it takes no longer
    than its calls do. *)
Lemma query_round_replay (source : list Challenge) (w : world S) :
  exists new,
    (query_round source w).2 = replay new w
    /\ Forall (fun e => is_query e = true) new
    /\ (source <> [] -> new <> [])
    /\ ((forall c, c ∈ source -> forall pre post, new = pre ++ post ->
           query_progress (log w ++ pre) c = true) ->
        (query_round source w).1 = [])
    /\ forall L, (forall events, Z.of_N (elapse events) <= L) ->
         now (query_round source w).2 <= now w + L * Z.of_nat (length source)
         /\ (length (query_round source w).1 <= length source)%nat.
Proof.
  revert w. induction source as [|c source IH]; intros w.
  - exists []. cbn. split; [done|]. split; [done|]. split; [done|]. split; [done|].
    intros L HL. split; [lia|done].
  - cbn [query_round].
    set (status := query_progress (log w) c).
    destruct (IH (emit (QueryProgress c status) w)) as (new & Hrun & Hq & _ & Htrue & Htime).
    destruct (query_round source (emit (QueryProgress c status) w)) as [sink w'].
    cbn [fst snd] in *.
    exists (QueryProgress c status :: new).
    split; [done|]. split; [by constructor|]. split; [done|]. split.
    + intros Hall.
      assert (status = true) as ->.
      { unfold status. rewrite <- (app_nil_r (log w)).
        apply (Hall c (list_elem_of_here _ _) [] (QueryProgress c status :: new)). done. }
      apply Htrue. intros c' Hc' pre post ->. rewrite log_emit, <- app_assoc.
      apply (Hall c' (list_elem_of_further _ _ _ Hc') (QueryProgress c true :: pre) post).
      done.
    + intros L HL. destruct (Htime L HL) as [Hnow Hlen]. rewrite now_emit in Hnow.
      specialize (HL (log w)). cbn [length]. destruct status; cbn [length]; split; lia.
Qed.

(** The loop is the replay of its events, and it begins no round with both
    thresholds passed. *)
Lemma poll_loop_rounds (fuel : nat) (end_ : Z) (source : list Challenge) (counter : Z)
    (w : world S) :
  exists new,
    (poll_loop fuel end_ source counter w).2 = replay new w
    /\ forall pre post, new = pre ++ post -> post <> [] -> round_start pre ->
         ~ (now (replay pre w) > end_ /\ counter + Z.of_nat (pauses pre) > 4).
Proof.
  revert source counter w.
  induction fuel as [|fuel IH]; intros [|c source] counter w.
  1,3: rewrite poll_loop_nil; exists []; split; [done|];
       intros pre post Hnew Hpost; by destruct pre, post.
  - exists []. cbn. split; [by destruct (_ && _)|].
    intros pre post Hnew Hpost. by destruct pre, post.
  - rewrite poll_loop_cons.
    destruct (bool_decide (now w > end_) && bool_decide (counter > 4)) eqn:Hcheck.
    { exists []. split; [done|]. intros pre post Hnew Hpost. by destruct pre, post. }
    assert (~ (now w > end_ /\ counter > 4)) as Hgo.
    { intros [? ?]. by rewrite !bool_decide_eq_true_2 in Hcheck. }
    cbn zeta.
    destruct (query_round_replay (c :: source) w) as (q & Hrun & Hq & Hne & _).
    destruct (query_round (c :: source) w) as [sink w1]. cbn [fst snd] in *. subst w1.
    destruct sink as [|c' sink].
    + rewrite poll_loop_nil. cbn [snd]. exists q. split; [done|].
      intros pre post -> Hpost [->|[pre' ->]%last_Some].
      * cbn. rewrite Z.add_0_r. exact Hgo.
      * apply Forall_app in Hq as [Hq _]. apply Forall_app in Hq as [_ Hq].
        by apply Forall_cons in Hq as [? _].
    + destruct (IH (c' :: sink) (counter + 1) (emit (Sleep 3) (replay q w)))
        as (new' & Hrun' & Hstarts).
      exists (q ++ Sleep 3 :: new').
      split; [by rewrite Hrun', replay_app|].
      intros pre post Hsplit Hpost [->|[pre' ->]%last_Some].
      * cbn. rewrite Z.add_0_r. exact Hgo.
      * symmetry in Hsplit. apply app_eq_inv in Hsplit as [(k & Hpre & Hk)|(k & Hqk & _)].
        -- destruct k as [|e k].
           { rewrite app_nil_r in Hpre. subst q.
             apply Forall_app in Hq as [_ Hq]. by apply Forall_cons in Hq as [? _]. }
           injection Hk as <- Hk.
           assert (pauses (q ++ Sleep 3 :: k) = Datatypes.S (pauses k)) as Hpauses.
           { rewrite pauses_app, pauses_queries by done. unfold pauses.
             by rewrite filter_cons_True. }
           rewrite Hpre, replay_app, Hpauses.
           change (replay (Sleep 3 :: k) (replay q w))
             with (replay k (emit (Sleep 3) (replay q w))).
           intros [Hnow Hcount].
           apply (Hstarts k post Hk Hpost).
           { destruct k as [|e k _] using rev_ind; [by left|]. right.
             rewrite last_snoc.
             assert (last ((q ++ [Sleep 3]) ++ k ++ [e]) = Some e) as Hlast
               by (by rewrite !app_assoc, last_snoc).
             rewrite <- app_assoc in Hlast. cbn in Hlast. rewrite <- Hpre in Hlast.
             rewrite last_snoc in Hlast. by injection Hlast as <-. }
           split; [done|lia].
        -- subst q. apply Forall_app in Hq as [Hq _].
           apply Forall_app in Hq as [_ Hq]. by apply Forall_cons in Hq as [? _].
Qed.
Lemma round_time_nonneg (k n : nat) (L : Z) :
  0 <= L -> 0 <= Z.of_nat k * (3 + L * (Z.of_nat n + 1)).
Proof.
  intros HL. apply Z.mul_nonneg_nonneg; [lia|].
  assert (0 <= L * (Z.of_nat n + 1)) by (apply Z.mul_nonneg_nonneg; lia). lia.
Qed.

Lemma round_time_mono (k n m : nat) (L : Z) :
  0 <= L -> (n <= m)%nat ->
  Z.of_nat k * (3 + L * (Z.of_nat n + 1)) <= Z.of_nat k * (3 + L * (Z.of_nat m + 1)).
Proof.
  intros HL Hnm. apply Z.mul_le_mono_nonneg_l; [lia|].
  assert (L * (Z.of_nat n + 1) <= L * (Z.of_nat m + 1))
    by (apply Z.mul_le_mono_nonneg_l; lia).
  lia.
Qed.

(** Challenges that all answer [True] once [k] pauses have passed make the
    loop end by its [else] branch, when round [k + 1] begins within the
    budget: the counter is then at most 4, or the clock, with calls that
    take [L] at most, has not passed the deadline. *)
Lemma poll_loop_confirming (k fuel : nat) (end_ : Z) (source : list Challenge) (counter : Z)
    (w : world S) :
  (k < fuel)%nat ->
  (forall c new, c ∈ source -> (k <= pauses new)%nat ->
                 query_progress (log w ++ new) c = true) ->
  (counter + Z.of_nat k <= 4
   \/ exists L, (forall events, Z.of_N (elapse events) <= L)
                /\ now w + Z.of_nat k * (3 + L * (Z.of_nat (length source) + 1)) <= end_) ->
  exists pr,
    (poll_loop fuel end_ source counter w).1 = Return pr
    /\ exit pr = Exhausted /\ pending pr = [] /\ rounds pr <= counter + Z.of_nat k + 1.
Proof.
  revert fuel source counter w.
  induction k as [|k IH]; intros [|fuel] [|c source] counter w Hfuel Htrue Hbudget;
    try lia.
  1,3: rewrite poll_loop_nil; eexists; (split; [reflexivity|]); cbn; repeat split; lia.
  - rewrite poll_loop_cons.
    assert (bool_decide (now w > end_) && bool_decide (counter > 4) = false) as ->.
    { apply andb_false_iff. destruct Hbudget as [?|(L & HL & ?)].
      - right. apply bool_decide_eq_false_2. lia.
      - left. apply bool_decide_eq_false_2. cbn in *. lia. }
    cbn zeta.
    destruct (query_round_replay (c :: source) w) as (q & _ & _ & _ & Hnil & _).
    rewrite Hnil by (intros c' Hc' pre post _; apply Htrue; [done|lia]).
    rewrite poll_loop_nil. eexists. split; [reflexivity|]. cbn. repeat split; lia.
  - rewrite poll_loop_cons.
    assert (bool_decide (now w > end_) && bool_decide (counter > 4) = false) as ->.
    { apply andb_false_iff. destruct Hbudget as [?|(L & HL & ?)].
      - right. apply bool_decide_eq_false_2. lia.
      - left. apply bool_decide_eq_false_2. specialize (HL (log w)).
        pose proof (round_time_nonneg (Datatypes.S k) (length (c :: source)) L). lia. }
    cbn zeta.
    destruct (query_round_replay (c :: source) w) as (q & Hrun & Hq & _ & _ & Htime).
    destruct (query_round_spec (c :: source) w) as (_ & _ & _ & _ & _ & _ & Hsink & _).
    destruct (query_round (c :: source) w) as [[|c' sink] w1]; cbn [fst snd] in *.
    { rewrite poll_loop_nil. eexists. split; [reflexivity|]. cbn. repeat split; lia. }
    destruct (IH fuel (c' :: sink) (counter + 1) (emit (Sleep 3) w1)) as (pr & Hpr & ? & ? & ?).
    + lia.
    + intros c0 new Hc0 Hnew. rewrite log_emit, Hrun, log_replay, <- !app_assoc.
      apply Htrue; [by apply Hsink|].
      rewrite !pauses_app, pauses_queries by done.
      change (pauses [Sleep 3]) with 1%nat. lia.
    + destruct Hbudget as [?|(L & HL & Hend)]; [left; lia|right].
      exists L. split; [done|]. destruct (Htime L HL) as [Hnow Hlen].
      rewrite now_emit. pose proof (HL (log w1)) as HL1.
      pose proof (round_time_mono k (length (c' :: sink)) (length (c :: source)) L).
      replace (Z.of_nat (Datatypes.S k)) with (Z.of_nat k + 1) in Hend by lia.
      rewrite Z.mul_add_distr_r in Hend. lia.
    + exists pr. repeat split; [done..|lia].
Qed.

(** *** The order of events *)

Lemma publish_all_log (challenges : list Challenge) (w : world S) :
  log (publish_all challenges w) = log w ++ publications challenges.
Proof.
  revert w. unfold publish_all, publications.
  induction challenges as [|c challenges IH]; intros w; cbn [foldl].
  - cbn. by rewrite app_nil_r.
  - rewrite IH, bind_cons. unfold publish. rewrite log_emit. cbn [log].
    rewrite log_emit. by rewrite <- !app_assoc.
Qed.

(** After finalization nothing is published, queried or finalized again. *)
Lemma obtain_cert_log (order : Order) (error : option Response) (private_key : Key)
    (missing0 : string) (missing : list string) (ex : dict string (I * Key * Certificate))
    (depth : nat) (count : Z) (w : world S) :
  exists new,
    log (obtain_cert order error private_key missing0 missing ex depth count w).2
      = log w ++ new
    /\ Forall (fun e => is_publication e = false /\ is_query e = false /\ e <> Finalize) new.
Proof.
  revert count w. induction depth as [|depth IH]; intros count w.
  - exists []. cbn. by rewrite app_nil_r.
  - cbn [obtain_cert].
    set (w1 := emit (Sleep 3) w).
    set (status := order_status (log w1) order).
    set (w2 := emit (Refresh status) w1).
    assert (log w2 = log w ++ [Sleep 3; Refresh status]) as Hw2
      by (unfold w2, w1; by rewrite !log_emit, <- app_assoc).
    assert (Forall (fun e => is_publication e = false /\ is_query e = false /\ e <> Finalize)
                   [Sleep 3; Refresh status]) as Hnew by (by repeat constructor).
    destruct (decide (status = "valid"%string)) as [_|_].
    + exists [Sleep 3; Refresh status; GetCertificate].
      split; [|by repeat constructor].
      destruct (save_key _ _ _) as [s1 [key_id|e|]]; cbn [set_key_store key_store];
        [destruct (save_cert _ _ _ _ _) as [s2 [cert_id|e|]]|..];
        cbn [snd log set_key_store]; rewrite log_emit, Hw2, <- app_assoc; done.
    + destruct (decide (status = "processing"%string)) as [_|_].
      * destruct (decide (count = 0)) as [_|_]; [by exists [Sleep 3; Refresh status]|].
        destruct (IH 5 w2) as (new & Hlog & Hall).
        exists ([Sleep 3; Refresh status] ++ new).
        split; [by rewrite Hlog, Hw2, <- app_assoc|by apply Forall_app].
      * by exists [Sleep 3; Refresh status].
Qed.

Lemma filter_ext_elem {A} (P Q : A -> Prop) `{forall x, Decision (P x)}
    `{forall x, Decision (Q x)} (l : list A) :
  (forall x, x ∈ l -> P x <-> Q x) -> filter P l = filter Q l.
Proof.
  induction l as [|x l IH]; intros Hpq; [done|].
  rewrite !filter_cons, IH by (intros y Hy; apply Hpq, elem_of_cons; by right).
  assert (P x <-> Q x) as Hx by (apply Hpq, elem_of_cons; by left).
  destruct (decide (P x)), (decide (Q x)); tauto.
Qed.

(** The list [missing] of line 35 holds the requested domains that did not
    resolve, in the order of the request. *)
Lemma missing_unresolved (s : S) (host : list string) found :
  lookups s host = Return found ->
  filter (fun h => dict_in h (existing_of found) = false) host = unresolved s host.
Proof.
  intros Hlook. destruct (lookups_spec s host found Hlook) as [Hkeys Hall].
  destruct (existing_of_spec s host found Hlook) as [Hnd Hex].
  apply filter_ext_elem. intros h Hin.
  assert (exists o, get_cert s h = Return o) as [o Ho].
  { rewrite <- Hkeys in Hin. apply list_elem_of_fmap in Hin as ([h' o] & -> & Hin).
    exists o. by apply Hall. }
  rewrite Ho. unfold dict_in. destruct o as [r|]; cbn.
  - assert (dict_get h (existing_of found) = Some r) as ->
      by (apply (dict_elem_get _ _ _ Hnd), Hex; by rewrite Ho).
    by rewrite bool_decide_eq_true_2.
  - destruct (dict_get h (existing_of found)) as [r|] eqn:Hget.
    + apply dict_get_Some_elem, Hex in Hget as [_ Hget]. congruence.
    + rewrite bool_decide_eq_false_2; [done|]. by intros [? ?].
Qed.

(** [obtainCert] once the lookups have returned, path by path. *)
Lemma obtainCert_paths (fuel depth : nat) (host : host_arg) (w : world S) found :
  lookups (key_store w) (host_list host) = Return found ->
  let missing := unresolved (key_store w) (host_list host) in
  (missing = [] ->
   obtainCert fuel depth host w
   = (Return (Some (createExistingResponse (existing_of found) []), None), w))
  /\ (forall missing0 rest, missing = missing0 :: rest ->
      let private_key := gen_key_secp256r1 (log w) in
      let wo := emit (CreateAuthorizedOrder missing) w in
      match create_authorized_order (log w) missing with
      | (None, error) => obtainCert fuel depth host w = (Raise (order_rejected error), wo)
      | (Some order, error) =>
          let challenges := remaining_challenges (log wo) order in
          let w0 := publish_all challenges (emit RemainingChallenges wo) in
          match poll_loop fuel (now w0 + 40) challenges 1 w0 with
          | (Return _, w1) =>
              obtainCert fuel depth host w
              = obtain_cert order error private_key missing0 missing (existing_of found)
                  depth 5 (emit Finalize w1)
          | (Raise e, w1) => obtainCert fuel depth host w = (Raise e, w1)
          | (Diverge, w1) => obtainCert fuel depth host w = (Diverge, w1)
          end
      end).
Proof.
  intros Hlook. cbn zeta. unfold obtainCert. rewrite Hlook. cbn zeta.
  rewrite (missing_unresolved _ _ _ Hlook). split.
  - by intros ->.
  - intros missing0 rest ->.
    destruct (create_authorized_order (log w) (missing0 :: rest)) as [[order|] error];
      [|done].
    by destruct (poll_loop _ _ _ _ _) as [[pr|e|] w1].
Qed.

Lemma challengesStore_emit (e : event) (w : world S) :
  challengesStore (emit e w) = challengesStore w.
Proof. reflexivity. Qed.

(** What the publications leave in the challenge store. *)
Lemma publish_all_store (challenges : list Challenge) (w : world S) :
  challengesStore (publish_all challenges w) = published challenges (challengesStore w).
Proof.
  revert w. unfold publish_all, published.
  induction challenges as [|c challenges IH]; intros w; [done|].
  cbn [foldl]. by rewrite IH.
Qed.

Lemma published_lookup (challenges : list Challenge) (store0 : gmap string string)
    (t proof : string) :
  (forall c, c ∈ challenges -> token c = t -> authorization_key c = proof) ->
  store0 !! t = Some proof \/ (exists c, c ∈ challenges /\ token c = t) ->
  published challenges store0 !! t = Some proof.
Proof.
  revert store0. unfold published.
  induction challenges as [|c0 challenges IH]; intros store0 Hagree Hin; cbn [foldl].
  - destruct Hin as [?|(c & Hc & _)]; [done|inversion Hc].
  - apply IH; [intros c Hc; apply Hagree, elem_of_cons; by right|].
    destruct (decide (token c0 = t)) as [Ht|Ht].
    + left. rewrite <- Ht, lookup_insert_eq. f_equal.
      apply Hagree; [apply elem_of_cons; by left|done].
    + rewrite lookup_insert_ne by done.
      destruct Hin as [?|(c & [->|Hc]%elem_of_cons & Hct)]; [by left|done|].
      right. by exists c.
Qed.

(** The inner [obtain_cert] does not touch the challenge store. *)
Lemma obtain_cert_store (order : Order) (error : option Response) (private_key : Key)
    (missing0 : string) (missing : list string) (ex : dict string (I * Key * Certificate))
    (depth : nat) (count : Z) (w : world S) :
  challengesStore (obtain_cert order error private_key missing0 missing ex depth count w).2
  = challengesStore w.
Proof.
  revert count w. induction depth as [|depth IH]; intros count w; [done|].
  cbn [obtain_cert].
  destruct (decide (_ = "valid"%string)) as [_|_].
  - destruct (save_key _ _ _) as [s1 [key_id|e|]]; cbn [set_key_store key_store];
      [destruct (save_cert _ _ _ _ _) as [s2 [cert_id|e|]]|..]; done.
  - destruct (decide (_ = "processing"%string)) as [_|_]; [|done].
    destruct (decide (count = 0)) as [_|_]; [done|]. by rewrite IH.
Qed.

(** C8: the order of events within one [obtainCert] that gets an order.
    The challenges are those the order hands out.  When the challenge loop
    begins, the log holds the creation of the order and then, for every
    challenge in turn, the writing of its proof and the triggering of its
    verification, and the challenge store holds the proofs written, that
    of every challenge under its token.  From then on the store is not
    touched, and the log grows by the rounds of the loop, made of queries
    of those challenges and of pauses only, and then, unless the model cut
    the loop for want of rounds, by the finalization and what follows it,
    in which nothing is published or queried.  The finalization comes
    after the loop has ended, by its [else] branch with every challenge
    confirmed, or by [break] with the clock past the deadline and the
    counter past 4. *)
Theorem obtainCert_order_of_events (fuel depth : nat) (host : host_arg) (w : world S)
    (order : Order) (error : option Response) :
  (forall h, h ∈ host_list host -> exists o, get_cert (key_store w) h = Return o) ->
  let missing := unresolved (key_store w) (host_list host) in
  missing <> [] ->
  create_authorized_order (log w) missing = (Some order, error) ->
  let wo := emit (CreateAuthorizedOrder missing) w in
  let challenges := remaining_challenges (log wo) order in
  let w0 := publish_all challenges (emit RemainingChallenges wo) in
  let r := obtainCert fuel depth host w in
  log w0 = log w ++ [CreateAuthorizedOrder missing; RemainingChallenges]
                 ++ publications challenges
  /\ challengesStore w0 = published challenges (challengesStore w)
  /\ (forall c, c ∈ challenges ->
        (forall c', c' ∈ challenges -> token c' = token c ->
                    authorization_key c' = authorization_key c) ->
        challengesStore w0 !! token c = Some (authorization_key c))
  /\ exists polls rest,
       log r.2 = log w0 ++ polls ++ rest
       /\ challengesStore r.2 = challengesStore w0
       /\ Forall (fun e => is_query e = true \/ e = Sleep 3) polls
       /\ (forall c b, QueryProgress c b ∈ polls -> c ∈ challenges)
       /\ ((rest = [] /\ r = (Diverge, replay polls w0) /\ (fuel < 14)%nat)
           \/ exists pr after,
                poll_loop fuel (now w0 + 40) challenges 1 w0 = (Return pr, replay polls w0)
                /\ rest = Finalize :: after
                /\ Forall (fun e => is_publication e = false /\ is_query e = false
                                    /\ e <> Finalize) after
                /\ ((exit pr = Exhausted
                     /\ forall c, c ∈ challenges -> QueryProgress c true ∈ polls)
                    \/ (exit pr = Broke /\ now w0 + 40 < now (replay polls w0)
                        /\ 4 < rounds pr))).
Proof.
  intros Hall missing Hne Hcreate wo challenges w0 r.
  destruct (lookups_total _ _ Hall) as [found Hlook].
  destruct (obtainCert_paths fuel depth host w found Hlook) as [_ Hsome].
  cbn zeta in Hsome. fold missing in Hsome.
  destruct missing as [|missing0 rest0] eqn:Hmissing; [done|].
  specialize (Hsome missing0 rest0 eq_refl). rewrite Hcreate in Hsome.
  fold wo challenges w0 r in Hsome.
  assert (log w0 = log w ++ [CreateAuthorizedOrder (missing0 :: rest0); RemainingChallenges]
                         ++ publications challenges) as Hw0.
  { unfold w0, wo. rewrite publish_all_log, !log_emit. by rewrite <- !app_assoc. }
  assert (challengesStore w0 = published challenges (challengesStore w)) as Hstore.
  { unfold w0. by rewrite publish_all_store. }
  split; [done|]. split; [done|]. split.
  { intros c Hc Hagree. rewrite Hstore. apply published_lookup; [done|].
    right. by exists c. }
  destruct (poll_loop_run fuel (now w0 + 40) challenges 1 w0)
    as (polls & Hlog & _ & Hq & Hsrc & Hraise & Hret).
  destruct (poll_loop_rounds fuel (now w0 + 40) challenges 1 w0) as (polls' & Hrun & _).
  assert (polls' = polls) as ->.
  { rewrite Hrun, log_replay in Hlog. by apply app_inv_head in Hlog. }
  pose proof (poll_loop_enough fuel (now w0 + 40) challenges 1 w0) as Henough.
  destruct (poll_loop fuel (now w0 + 40) challenges 1 w0) as [polled w1] eqn:Hpoll.
  cbn [fst snd] in *. subst w1.
  exists polls. destruct polled as [pr|e|].
  - destruct (obtain_cert_log order error (gen_key_secp256r1 (log w)) missing0
                (missing0 :: rest0) (existing_of found) depth 5
                (emit Finalize (replay polls w0))) as (after & Hafter & Hnone).
    exists (Finalize :: after).
    split; [by rewrite Hsome, Hafter, log_emit, log_replay, <- !app_assoc|].
    split; [by rewrite Hsome, obtain_cert_store, challengesStore_emit, challengesStore_replay|].
    split; [done|]. split; [done|]. right.
    exists pr, after. split; [done|]. split; [done|]. split; [done|].
    destruct (Hret pr eq_refl) as (Hbroke & Hexh & _).
    destruct (exit pr) eqn:Hexit.
    + left. split; [done|]. by apply Hexh.
    + right. split; [done|]. destruct Hbroke as (? & ? & _); done.
  - by destruct (Hraise e).
  - exists []. rewrite app_nil_r, Hsome. cbn [fst snd].
    split; [by rewrite log_replay|].
    split; [by rewrite challengesStore_replay|].
    split; [done|]. split; [done|]. left. split; [done|]. split; [done|].
    destruct (decide (fuel < 14)%nat) as [?|Hfuel]; [done|].
    destruct Henough as [pr Hpr]; [lia..|done].
Qed.

(** C5: the challenge loop as [obtainCert] starts it, with the deadline 40
    after the clock and the counter at 1.  It ends whatever the challenges
    answer, within 14 rounds.  It ends by [break] only with the clock past
    the deadline and the counter past 4, both, and with challenges still
    pending; it ends by its [else] branch with no challenge pending and
    every challenge confirmed by an answer of [True].  Challenges that
    never confirm make it end by [break].  No round is begun with both
    thresholds passed: where a round begins, the clock has not passed the
    deadline or the counter is at most 4.  Challenges that all confirm
    within the budget make it end by its [else] branch: they answer [True]
    from the round after [k] pauses on, and that round comes among the
    first four, or, with calls that take [L] at most, before the
    deadline. *)
Theorem poll_loop_terminates (fuel : nat) (source : list Challenge) (w : world S) :
  (14 <= fuel)%nat ->
  exists pr w' new,
    poll_loop fuel (now w + 40) source 1 w = (Return pr, w')
    /\ log w' = log w ++ new
    /\ (exit pr = Broke -> now w + 40 < now w' /\ 4 < rounds pr /\ pending pr <> [])
    /\ (exit pr = Exhausted ->
        pending pr = [] /\ forall c, c ∈ source -> QueryProgress c true ∈ new)
    /\ ((forall events c, query_progress events c = false) -> source <> [] ->
        exit pr = Broke /\ pending pr = source)
    /\ w' = replay new w
    /\ (forall pre post, new = pre ++ post -> post <> [] -> round_start pre ->
          now (replay pre w) <= now w + 40 \/ 1 + Z.of_nat (pauses pre) <= 4)
    /\ (forall k : nat,
          (forall c events, c ∈ source -> (k <= pauses events)%nat ->
                            query_progress (log w ++ events) c = true) ->
          (k <= 3)%nat
          \/ (exists L, (forall events, Z.of_N (elapse events) <= L)
                        /\ Z.of_nat k * (3 + L * (Z.of_nat (length source) + 1)) <= 40) ->
          exit pr = Exhausted /\ pending pr = [] /\ rounds pr <= Z.of_nat k + 2).
Proof.
  intros Hfuel.
  destruct (poll_loop_enough fuel (now w + 40) source 1 w) as [pr Hpr]; [lia|lia|].
  destruct (poll_loop_run fuel (now w + 40) source 1 w)
    as (new & Hlog & _ & _ & _ & _ & Hret).
  destruct (poll_loop_rounds fuel (now w + 40) source 1 w) as (new' & Hrun & Hstarts).
  assert (new' = new) as ->.
  { rewrite Hrun, log_replay in Hlog. by apply app_inv_head in Hlog. }
  destruct (Hret pr Hpr) as (Hbroke & Hexh & Hnever).
  assert (forall k : nat,
            (forall c events, c ∈ source -> (k <= pauses events)%nat ->
                              query_progress (log w ++ events) c = true) ->
            (k <= 3)%nat
            \/ (exists L, (forall events, Z.of_N (elapse events) <= L)
                          /\ Z.of_nat k * (3 + L * (Z.of_nat (length source) + 1)) <= 40) ->
            exit pr = Exhausted /\ pending pr = [] /\ rounds pr <= Z.of_nat k + 2) as Hconfirm.
  { intros k Htrue Hbudget.
    destruct (poll_loop_confirming k fuel (now w + 40) source 1 w) as (pr' & Hpr' & ? & ? & ?).
    - destruct Hbudget as [?|(L & HL & Hk)]; [lia|].
      pose proof (HL []) as HL0.
      assert (Z.of_nat k * 3 <= Z.of_nat k * (3 + L * (Z.of_nat (length source) + 1))).
      { apply Z.mul_le_mono_nonneg_l; [lia|].
        assert (0 <= L * (Z.of_nat (length source) + 1))
          by (apply Z.mul_nonneg_nonneg; lia).
        lia. }
      lia.
    - done.
    - destruct Hbudget as [?|(L & HL & Hk)]; [left; lia|right].
      exists L. split; [done|lia].
    - rewrite Hpr in Hpr'. injection Hpr' as <-. repeat split; [done..|lia]. }
  destruct (poll_loop fuel (now w + 40) source 1 w) as [r w'].
  cbn [fst snd] in *. subst r w'.
  exists pr, (replay new w), new.
  split; [done|]. split; [done|]. split; [done|]. split; [done|]. split; [done|].
  split; [done|]. split; [|done].
  intros pre post Hsplit Hpost Hstart.
  pose proof (Hstarts pre post Hsplit Hpost Hstart) as Hnot.
  destruct (decide (now (replay pre w) <= now w + 40)) as [?|?]; [by left|].
  right. destruct (decide (1 + Z.of_nat (pauses pre) <= 4)) as [?|?]; [done|].
  exfalso. apply Hnot. lia.
Qed.
End OrchestratorFacts.

(** ** The relational backend *)
Section SqliteFacts.
Import SqliteKeyStore.
Context {crypto : Crypto}.

Lemma next_rowid_fresh (seq : Z) (ids : list Z) (id : Z) :
  id ∈ ids -> id < next_rowid seq ids.
Proof.
  unfold next_rowid. induction ids as [|x ids IH]; cbn; [by intros ?%elem_of_nil|].
  intros [->|Hin]%elem_of_cons; [lia|]. specialize (IH Hin). lia.
Qed.

(** The per-domain INSERTs of [save_cert] append one index row per domain
    to the working copy and leave the database file alone. *)
Lemma insert_ssl_domains_spec (cert_id : Z) (domains : list string) (conn : connection) :
  let conn' :=
    foldl (fun conn domain =>
             fst (execute (fun db => (insert_ssl_domain db domain cert_id, tt)) conn))
          conn domains in
  durable conn' = durable conn
  /\ working conn' =
     Database (private_keys (working conn)) (private_keys_seq (working conn))
              (certificates (working conn)) (certificates_seq (working conn))
              (ssl_domains (working conn) ++ ((fun d => Ssl_domain d cert_id) <$> domains)).
Proof.
  revert conn. induction domains as [|d domains IH]; intros conn; cbn.
  - split; [done|]. rewrite app_nil_r. by destruct (working conn).
  - destruct (IH (execute (fun db => (insert_ssl_domain db d cert_id, tt)) conn).1)
      as [Hd Hw].
    cbn in Hd, Hw. split; [exact Hd|]. rewrite Hw. cbn.
    by rewrite <- app_assoc.
Qed.

(** What the statements of [save_cert] leave in the working copy, and that
    they leave the database file alone. *)
Lemma save_cert_statements_spec (conn : connection) (key_id : Z) (cert : Certificate)
    (domains : list string) (name : option string) :
  let db := working conn in
  let cert_id := next_rowid (certificates_seq db) (c_id <$> certificates db) in
  let conn' := (save_cert_statements conn key_id cert domains name).1 in
  (save_cert_statements conn key_id cert domains name).2 = cert_id
  /\ durable conn' = durable conn
  /\ working conn' =
     Database (private_keys db) (private_keys_seq db)
              (certificates db ++ [Certificate_row cert_id name key_id (cert_to_der cert)])
              cert_id
              (ssl_domains db ++ ((fun d => Ssl_domain d cert_id) <$> domains)).
Proof.
  cbn zeta. unfold save_cert_statements, execute. cbn.
  match goal with
  | |- context [foldl ?f ?c domains] =>
      destruct (insert_ssl_domains_spec
                  (next_rowid (certificates_seq (working conn))
                              (c_id <$> certificates (working conn))) domains c) as [Hd Hw]
  end.
  cbn in Hd, Hw. by rewrite Hd, Hw.
Qed.

Lemma save_cert_spec (conn : connection) (key_id : Z) (cert : Certificate)
    (domains : list string) (name : option string) :
  let db := working conn in
  let cert_id := next_rowid (certificates_seq db) (c_id <$> certificates db) in
  save_cert conn key_id cert domains name =
    (connect (Database (private_keys db) (private_keys_seq db)
                (certificates db ++ [Certificate_row cert_id name key_id (cert_to_der cert)])
                cert_id
                (ssl_domains db ++ ((fun d => Ssl_domain d cert_id) <$> domains))),
     cert_id).
Proof.
  cbn zeta. unfold save_cert.
  destruct (save_cert_statements_spec conn key_id cert domains name) as (Hid & _ & Hw).
  destruct (save_cert_statements conn key_id cert domains name) as [conn' cert_id].
  cbn in Hid, Hw. subst cert_id. unfold commit, connect. by rewrite Hw.
Qed.

Lemma save_key_spec (conn : connection) (key : Key) (name : option string) :
  let db := working conn in
  let key_id := next_rowid (private_keys_seq db) (pk_id <$> private_keys db) in
  save_key conn key name =
    (connect (Database (private_keys db ++ [Private_key key_id name (key_to_der key)]) key_id
                (certificates db) (certificates_seq db) (ssl_domains db)),
     key_id).
Proof. reflexivity. Qed.

Lemma head_filter_app {A} (P : A -> Prop) `{forall x, Decision (P x)} (l k : list A) (x : A) :
  head (filter P l) = Some x -> head (filter P (l ++ k)) = Some x.
Proof. intros Hx. rewrite filter_app, head_app. by rewrite Hx. Qed.

Lemma first_rows_select (db : database) (domain : string) s c p :
  first_rows db domain s c p ->
  exists rest, select_cert db domain = (c_id c, pk_content p, c_content c) :: rest.
Proof.
  intros (Hs & Hc & Hp). unfold select_cert.
  apply head_Some in Hs as [ss ->]. rewrite bind_cons.
  apply head_Some in Hc as [cs ->]. rewrite bind_cons.
  apply head_Some in Hp as [ps ->]. rewrite bind_cons.
  cbn. eauto.
Qed.

(** Rows appended to the tables do not change what a lookup reads first. *)
Lemma first_rows_append (db : database) (domain : string) s c p pks pseq certs cseq doms :
  first_rows db domain s c p ->
  first_rows (Database (private_keys db ++ pks) pseq (certificates db ++ certs) cseq
                       (ssl_domains db ++ doms)) domain s c p.
Proof.
  intros (Hs & Hc & Hp). repeat split; cbn; by apply head_filter_app.
Qed.

(** After [save_cert], a domain of the call that had no index row reads the
    rows of this call first. *)
Lemma first_rows_save_cert (conn : connection) (key_id : Z) (cert : Certificate)
    (domains : list string) (name : option string) (domain : string) (p : private_keys_row) :
  (forall s, s ∈ ssl_domains (working conn) -> s_domain s ≠ domain) ->
  domain ∈ domains ->
  head (filter (fun p => pk_id p = key_id) (private_keys (working conn))) = Some p ->
  let r := save_cert conn key_id cert domains name in
  first_rows (working r.1) domain (Ssl_domain domain r.2)
             (Certificate_row r.2 name key_id (cert_to_der cert)) p.
Proof.
  intros Hnew Hin Hp. rewrite save_cert_spec. cbn.
  set (cert_id := next_rowid _ _).
  repeat split; cbn.
  - rewrite filter_app.
    assert (filter (fun s => s_domain s = domain) (ssl_domains (working conn)) = []) as ->.
    { apply elem_of_nil_inv. intros s [Hs Hsin]%list_elem_of_filter.
      by apply (Hnew s). }
    rewrite app_nil_l. clear Hnew. induction domains as [|d ds IH]; [by apply elem_of_nil in Hin|].
    rewrite fmap_cons. destruct (decide (d = domain)) as [->|Hne].
    + by rewrite filter_cons_True.
    + rewrite filter_cons_False by done. apply IH.
      apply elem_of_cons in Hin as [?|?]; [congruence|done].
  - rewrite filter_app.
    assert (filter (fun c => c_id c = cert_id) (certificates (working conn)) = []) as ->.
    { apply elem_of_nil_inv. intros c [Hc Hcin]%list_elem_of_filter.
      assert (c_id c < cert_id); [|lia].
      apply next_rowid_fresh, list_elem_of_fmap. eauto. }
    rewrite app_nil_l. by rewrite filter_cons_True.
  - done.
Qed.

Lemma first_rows_save_cert_stable (conn : connection) (key_id : Z) (cert : Certificate)
    (domains : list string) (name : option string) (domain : string) s c p :
  first_rows (working conn) domain s c p ->
  first_rows (working (save_cert conn key_id cert domains name).1) domain s c p.
Proof.
  intros Hrows. rewrite save_cert_spec. cbn.
  rewrite <- (app_nil_r (private_keys (working conn))).
  by apply first_rows_append.
Qed.
End SqliteFacts.

(** ** The filesystem backend *)
Section FilesystemFacts.
Import FilesystemKeyStore.
Context {crypto : Crypto}.

(** *** Path strings *)

Lemma string_app_cons (a : ascii) (s t : string) : String a s +:+ t = String a (s +:+ t).
Proof. reflexivity. Qed.

Lemma string_app_empty (t : string) : ""%string +:+ t = t.
Proof. reflexivity. Qed.

Lemma string_length_app (s t : string) :
  String.length (s +:+ t) = (String.length s + String.length t)%nat.
Proof.
  induction s as [|a s IH]; [done|].
  rewrite string_app_cons. cbn [String.length]. by rewrite IH.
Qed.

Lemma string_app_inj_r (s1 s2 t : string) : s1 +:+ t = s2 +:+ t -> s1 = s2.
Proof.
  revert s2. induction s1 as [|a s1 IH]; intros [|b s2] Heq; [done| | |].
  - apply (f_equal String.length) in Heq.
    rewrite string_app_empty, string_app_cons in Heq. cbn [String.length] in Heq.
    rewrite string_length_app in Heq. lia.
  - apply (f_equal String.length) in Heq.
    rewrite string_app_empty, string_app_cons in Heq. cbn [String.length] in Heq.
    rewrite string_length_app in Heq. lia.
  - rewrite !string_app_cons in Heq.
    injection Heq as -> Heq. f_equal. by apply IH.
Qed.

(** The two suffixes keep key files and certificate files apart. *)
Lemma suffixes_apart (f g : string) : f +:+ ".key" <> g +:+ ".crt".
Proof.
  revert g. induction f as [|a f IH]; intros [|b g] Heq.
  - discriminate Heq.
  - apply (f_equal String.length) in Heq.
    rewrite string_app_empty, string_app_cons in Heq. cbn [String.length] in Heq.
    rewrite string_length_app in Heq. cbn in Heq. lia.
  - apply (f_equal String.length) in Heq.
    rewrite string_app_empty, string_app_cons in Heq. cbn [String.length] in Heq.
    rewrite string_length_app in Heq. cbn in Heq. lia.
  - rewrite !string_app_cons in Heq. injection Heq as _ Heq. by apply (IH g).
Qed.

Lemma key_cert_paths_apart (p : path) : is_key_path p -> is_cert_path p -> False.
Proof. intros [f Hf] [g Hg]. rewrite Hf in Hg. injection Hg. apply suffixes_apart. Qed.

Lemma contains_app (a : ascii) (s t : string) :
  contains a (s +:+ t) = contains a s || contains a t.
Proof.
  induction s as [|c s IH]; [done|].
  rewrite string_app_cons. cbn [contains]. by rewrite IH, orb_assoc.
Qed.

Lemma split_path_plain (t : string) :
  contains "/"%char t = false -> split_path t = ([], t).
Proof.
  induction t as [|c t IH]; [done|]. cbn [contains split_path].
  intros [Hc Ht]%orb_false_iff. rewrite (IH Ht).
  apply bool_decide_eq_false in Hc. by rewrite decide_False.
Qed.

(** A suffix without separator stays with the last component. *)
Lemma split_path_app (s t : string) :
  contains "/"%char t = false ->
  split_path (s +:+ t) = ((split_path s).1, (split_path s).2 +:+ t).
Proof.
  intros Ht. induction s as [|c s IH].
  - by rewrite string_app_empty, split_path_plain.
  - rewrite string_app_cons. cbn [split_path]. rewrite IH.
    destruct (split_path s) as [dirs final]. cbn [fst snd].
    destruct (decide (c = "/"%char)); [done|]. by destruct dirs.
Qed.

Lemma step_name (cur : path) (c : string) :
  (3 < String.length c)%nat -> step cur c = cur ++ [c].
Proof.
  intros Hlen. unfold step. rewrite !decide_False; [done|..].
  - intros ->. cbn in Hlen. lia.
  - intros [-> | ->]; cbn in Hlen; lia.
Qed.

(** Where a path with one of the two suffixes leads, the last component
    carries the suffix. *)
Lemma resolve_suffix (fs : tree) (dir : path) (s t : string) (p : path) :
  contains "/"%char t = false -> (3 < String.length t)%nat ->
  resolve fs dir (s +:+ t) = Return p ->
  exists f, last p = Some (f +:+ t).
Proof.
  intros Ht Hlen. unfold resolve.
  destruct (contains "000"%char (s +:+ t)); [done|].
  rewrite split_path_app by done.
  destruct (walk fs _ _) as [d| |]; cbn; [|done..].
  intros [= <-]. exists (split_path s).2.
  rewrite step_name by (rewrite string_length_app; lia). apply last_snoc.
Qed.

Lemma resolve_key_path (fs : tree) (dir : path) (name : option string) (p : path) :
  resolve fs dir (key_file name) = Return p -> is_key_path p.
Proof. by apply resolve_suffix; [|cbn; lia]. Qed.

Lemma resolve_cert_path (fs : tree) (dir : path) (name : option string) (p : path) :
  resolve fs dir (cert_file name) = Return p -> is_cert_path p.
Proof. by apply resolve_suffix; [|cbn; lia]. Qed.

(** A plain file name leads into the directory itself. *)
Lemma resolve_plain (fs : tree) (dir : path) (name suffix : string) :
  plain name ->
  contains "/"%char suffix = false -> contains "000"%char suffix = false ->
  (3 < String.length suffix)%nat ->
  resolve fs dir (name +:+ suffix) =
    match node_at fs dir with
    | Some Dir => Return (dir ++ [name +:+ suffix])
    | Some (File _) => Raise NotADirectoryError
    | None => Raise FileNotFoundError
    end.
Proof.
  intros [Hsep Hnul] Hs Hn Hlen. unfold resolve.
  rewrite !contains_app, Hnul, Hn, split_path_app, split_path_plain by done.
  cbn [orb fst snd].
  assert (match name +:+ suffix with
          | String c _ => if decide (c = "/"%char) then [] else dir
          | EmptyString => dir
          end = dir) as ->.
  { assert (contains "/"%char (name +:+ suffix) = false) as Hrel
      by by rewrite contains_app, Hsep, Hs.
    destruct (name +:+ suffix) as [|c rel]; [done|]. cbn in Hrel.
    apply orb_false_iff in Hrel as [Hc%bool_decide_eq_false _]. by rewrite decide_False. }
  cbn [walk]. destruct (node_at fs dir) as [[|content]|]; [|done..]. cbn.
  by rewrite step_name by (rewrite string_length_app; lia).
Qed.

Lemma resolve_plain_key (fs : tree) (dir : path) (name : option string) :
  plain (fmt name) ->
  resolve fs dir (key_file name) =
    match node_at fs dir with
    | Some Dir => Return (dir ++ [key_file name])
    | Some (File _) => Raise NotADirectoryError
    | None => Raise FileNotFoundError
    end.
Proof. intros Hplain. by apply resolve_plain; [| | |cbn; lia]. Qed.

Lemma resolve_plain_cert (fs : tree) (dir : path) (name : option string) :
  plain (fmt name) ->
  resolve fs dir (cert_file name) =
    match node_at fs dir with
    | Some Dir => Return (dir ++ [cert_file name])
    | Some (File _) => Raise NotADirectoryError
    | None => Raise FileNotFoundError
    end.
Proof. intros Hplain. by apply resolve_plain; [| | |cbn; lia]. Qed.

Lemma key_file_inj (a b : option string) : key_file a = key_file b -> fmt a = fmt b.
Proof. apply string_app_inj_r. Qed.

Lemma cert_file_inj (a b : option string) : cert_file a = cert_file b -> fmt a = fmt b.
Proof. apply string_app_inj_r. Qed.

Lemma keys_certs_apart (fs : tree) (a b : string) : keys_dir fs ++ [a] <> certs_dir fs ++ [b].
Proof.
  unfold keys_dir, certs_dir. intros [Heq _]%app_inj_tail.
  by apply app_inv_head in Heq.
Qed.

(** *** The same directories *)

Lemma same_dirs_refl (fs : tree) : same_dirs fs fs.
Proof. by split. Qed.

Lemma same_dirs_sym (fs fs' : tree) : same_dirs fs fs' -> same_dirs fs' fs.
Proof. intros [Hb Hd]. split; [done|]. intros p. by rewrite Hd. Qed.

Lemma same_dirs_trans (fs1 fs2 fs3 : tree) :
  same_dirs fs1 fs2 -> same_dirs fs2 fs3 -> same_dirs fs1 fs3.
Proof.
  intros [Hb Hd] [Hb' Hd']. split; [congruence|]. intros p. by rewrite Hd, Hd'.
Qed.

Lemma same_dirs_keys (fs fs' : tree) : same_dirs fs fs' -> keys_dir fs' = keys_dir fs.
Proof. intros [Hb _]. unfold keys_dir. by rewrite Hb. Qed.

Lemma same_dirs_certs (fs fs' : tree) : same_dirs fs fs' -> certs_dir fs' = certs_dir fs.
Proof. intros [Hb _]. unfold certs_dir. by rewrite Hb. Qed.

Lemma walk_same_dirs (fs fs' : tree) (cur : path) (dirs : list string) (p : path) :
  same_dirs fs fs' -> walk fs cur dirs = Return p -> walk fs' cur dirs = Return p.
Proof.
  intros [_ Hd]. revert cur. induction dirs as [|c dirs IH]; intros cur; cbn [walk];
    destruct (node_at fs cur) as [[|content]|] eqn:Hcur; try done;
    apply Hd in Hcur; rewrite Hcur; [done|apply IH].
Qed.

Lemma resolve_same_dirs (fs fs' : tree) (dir : path) (rel : string) (p : path) :
  same_dirs fs fs' -> resolve fs dir rel = Return p -> resolve fs' dir rel = Return p.
Proof.
  intros Hsame. unfold resolve. destruct (contains _ rel); [done|].
  destruct (split_path rel) as [dirs final].
  destruct (walk fs _ dirs) as [d| |] eqn:Hwalk; cbn; [|done..].
  intros [= <-]. by rewrite (walk_same_dirs _ _ _ _ _ Hsame Hwalk).
Qed.

Lemma resolve_same_dirs_iff (fs fs' : tree) (dir : path) (rel : string) (p : path) :
  same_dirs fs fs' -> resolve fs dir rel = Return p <-> resolve fs' dir rel = Return p.
Proof.
  intros Hsame. split; apply resolve_same_dirs; [done|by apply same_dirs_sym].
Qed.

(** *** Reading and writing one file *)

Lemma read_file_entry (fs : tree) (dir : path) (rel : string) (content : bytes) :
  read_file fs dir rel = Return content <-> entry fs dir rel = Some (File content).
Proof.
  unfold read_file, entry. destruct (resolve fs dir rel) as [p| |]; cbn; [|done..].
  destruct (node_at fs p) as [[|c]|]; [done| |done]. split; by intros [= ->].
Qed.

Lemma read_file_exists (fs : tree) (dir : path) (rel : string) (content : bytes) :
  read_file fs dir rel = Return content -> path_exists fs dir rel = true.
Proof. intros Hread%read_file_entry. unfold path_exists. by rewrite Hread. Qed.

Lemma read_file_resolve (fs : tree) (dir : path) (rel : string) (content : bytes) :
  read_file fs dir rel = Return content <->
  exists p, resolve fs dir rel = Return p /\ node_at fs p = Some (File content).
Proof.
  unfold read_file. destruct (resolve fs dir rel) as [p| |]; cbn.
  - split.
    + intros Hread. exists p. split; [done|].
      by destruct (node_at fs p) as [[|c]|]; [|injection Hread as ->|].
    + intros (p' & [= <-] & ->). done.
  - split; [done|]. by intros (p' & ? & _).
  - split; [done|]. by intros (p' & ? & _).
Qed.

Lemma node_at_write (fs : tree) (p q : path) (content : bytes) :
  node_at fs p <> Some Dir ->
  node_at (Tree (<[p := File content]> (nodes fs)) (base_dir fs)) q =
    if decide (q = p) then Some (File content) else node_at fs q.
Proof.
  intros Hp. destruct q as [|c q]; cbn [node_at nodes].
  - case_decide as Heq; [|done]. subst p. by destruct Hp.
  - rewrite lookup_insert. repeat case_decide; congruence.
Qed.

(** What one [open(..., "wb")] does: it replaces or creates one regular
    file, or it raises and changes nothing. *)
Lemma write_file_spec (fs : tree) (dir : path) (rel : string) (content : bytes) :
  (exists p,
     resolve fs dir rel = Return p /\ node_at fs p <> Some Dir
     /\ write_file fs dir rel content
        = (Tree (<[p := File content]> (nodes fs)) (base_dir fs), Return tt))
  \/ ((write_file fs dir rel content).1 = fs
      /\ (write_file fs dir rel content).2 <> Return tt).
Proof.
  unfold write_file. destruct (resolve fs dir rel) as [p| |]; [|by right..].
  destruct (node_at fs p) as [[|c]|] eqn:Hp; [by right|left; exists p..];
    by rewrite Hp.
Qed.

Lemma same_dirs_write (fs : tree) (p : path) (content : bytes) :
  node_at fs p <> Some Dir ->
  same_dirs fs (Tree (<[p := File content]> (nodes fs)) (base_dir fs)).
Proof.
  intros Hp. split; [done|]. intros q. rewrite node_at_write by done.
  destruct (decide (q = p)) as [->|?]; [|done]. split; [done|]. discriminate.
Qed.

Lemma written_refl (fs : tree) (key_names cert_names : list (option string)) :
  written fs fs key_names cert_names.
Proof. split; [apply same_dirs_refl|]. intros p. by left. Qed.

Lemma written_mono (fs fs' : tree) (key_names key_names' cert_names cert_names' : list (option string)) :
  key_names ⊆ key_names' -> cert_names ⊆ cert_names' ->
  written fs fs' key_names cert_names -> written fs fs' key_names' cert_names'.
Proof.
  intros Hk Hc [Hsame Hw]. split; [done|]. intros p.
  destruct (Hw p) as [?|[(n & Hn & ?)|(n & Hn & ?)]]; [by left|right; left|right; right];
    exists n; split; [by apply Hk|done|by apply Hc|done].
Qed.

Lemma written_trans (fs1 fs2 fs3 : tree) (key_names cert_names : list (option string)) :
  written fs1 fs2 key_names cert_names -> written fs2 fs3 key_names cert_names ->
  written fs1 fs3 key_names cert_names.
Proof.
  intros [Hsame Hw] [Hsame' Hw']. split; [by eapply same_dirs_trans|]. intros p.
  destruct (Hw' p) as [Heq|[(n & Hn & Hres)|(n & Hn & Hres)]].
  - rewrite Heq. apply Hw.
  - right. left. exists n. split; [done|].
    rewrite (same_dirs_keys _ _ Hsame) in Hres. by apply (resolve_same_dirs_iff fs1 fs2).
  - right. right. exists n. split; [done|].
    rewrite (same_dirs_certs _ _ Hsame) in Hres. by apply (resolve_same_dirs_iff fs1 fs2).
Qed.

Lemma write_key_written (fs : tree) (name : option string) (content : bytes) :
  written fs (write_file fs (keys_dir fs) (key_file name) content).1 [name] [].
Proof.
  destruct (write_file_spec fs (keys_dir fs) (key_file name) content)
    as [(p & Hres & Hp & ->)|[-> _]]; [|apply written_refl].
  split; [by apply same_dirs_write|]. intros q. cbn [fst]. rewrite node_at_write by done.
  destruct (decide (q = p)) as [->|?]; [|by left].
  right. left. exists name. split; [apply list_elem_of_here|done].
Qed.

Lemma write_cert_written (fs : tree) (name : option string) (content : bytes) :
  written fs (write_file fs (certs_dir fs) (cert_file name) content).1 [] [name].
Proof.
  destruct (write_file_spec fs (certs_dir fs) (cert_file name) content)
    as [(p & Hres & Hp & ->)|[-> _]]; [|apply written_refl].
  split; [by apply same_dirs_write|]. intros q. cbn [fst]. rewrite node_at_write by done.
  destruct (decide (q = p)) as [->|?]; [|by left].
  right. right. exists name. split; [apply list_elem_of_here|done].
Qed.

(** A write of a key file keeps what every certificate file holds, and
    what the key files with the same content hold; and the other way
    round. *)
Lemma write_key_keeps (fs : tree) (name : option string) (content : bytes) (p : path)
    (held : bytes) :
  (is_key_path p -> held = content) ->
  node_at fs p = Some (File held) ->
  node_at (write_file fs (keys_dir fs) (key_file name) content).1 p = Some (File held).
Proof.
  intros Hheld Hp.
  destruct (write_file_spec fs (keys_dir fs) (key_file name) content)
    as [(q & Hres & Hq & ->)|[-> _]]; [|done].
  cbn [fst]. rewrite node_at_write by done.
  destruct (decide (p = q)) as [->|?]; [|done].
  by rewrite Hheld by by eapply resolve_key_path.
Qed.

Lemma write_cert_keeps (fs : tree) (name : option string) (content : bytes) (p : path)
    (held : bytes) :
  (is_cert_path p -> held = content) ->
  node_at fs p = Some (File held) ->
  node_at (write_file fs (certs_dir fs) (cert_file name) content).1 p = Some (File held).
Proof.
  intros Hheld Hp.
  destruct (write_file_spec fs (certs_dir fs) (cert_file name) content)
    as [(q & Hres & Hq & ->)|[-> _]]; [|done].
  cbn [fst]. rewrite node_at_write by done.
  destruct (decide (p = q)) as [->|?]; [|done].
  by rewrite Hheld by by eapply resolve_cert_path.
Qed.

(** A write that returned left the content where the path leads. *)
Lemma write_file_returned (fs fs' : tree) (dir : path) (rel : string) (content : bytes) :
  write_file fs dir rel content = (fs', Return tt) ->
  exists p, resolve fs dir rel = Return p /\ node_at fs' p = Some (File content)
            /\ same_dirs fs fs'.
Proof.
  intros Hwrite.
  destruct (write_file_spec fs dir rel content) as [(p & Hres & Hp & Heq)|[_ Hne]];
    [|by rewrite Hwrite in Hne].
  rewrite Hwrite in Heq. injection Heq as ->. exists p.
  split; [done|]. split; [|by apply same_dirs_write].
  rewrite node_at_write by done. by rewrite decide_True.
Qed.
(** What is read is read again after writes that keep it. *)
Lemma read_file_keep (fs fs' : tree) (dir : path) (rel : string) (held : bytes) :
  same_dirs fs fs' ->
  (forall p, resolve fs dir rel = Return p -> node_at fs p = Some (File held) ->
             node_at fs' p = Some (File held)) ->
  read_file fs dir rel = Return held -> read_file fs' dir rel = Return held.
Proof.
  intros Hsame Hkeep (p & Hres & Hp)%read_file_resolve. apply read_file_resolve.
  exists p. split; [by eapply resolve_same_dirs|by apply Hkeep].
Qed.

Lemma entry_frame (fs fs' : tree) (dir : path) (rel : string) :
  same_dirs fs fs' ->
  (forall p, resolve fs dir rel = Return p -> node_at fs' p = node_at fs p) ->
  entry fs' dir rel = entry fs dir rel.
Proof.
  intros Hsame Hframe. unfold entry.
  destruct (resolve fs dir rel) as [p| |] eqn:Hres.
  - rewrite (resolve_same_dirs _ _ _ _ _ Hsame Hres). by apply Hframe.
  - destruct (resolve fs' dir rel) as [p'| |] eqn:Hres'; [|done..].
    apply (resolve_same_dirs_iff fs fs') in Hres'; [congruence|done].
  - destruct (resolve fs' dir rel) as [p'| |] eqn:Hres'; [|done..].
    apply (resolve_same_dirs_iff fs fs') in Hres'; [congruence|done].
Qed.

Lemma read_file_frame (fs fs' : tree) (dir : path) (rel : string) :
  same_dirs fs fs' ->
  (forall p, resolve fs dir rel = Return p -> node_at fs' p = node_at fs p) ->
  path_exists fs dir rel = true ->
  read_file fs' dir rel = read_file fs dir rel.
Proof.
  intros Hsame Hframe. unfold path_exists, entry, read_file.
  destruct (resolve fs dir rel) as [p| |] eqn:Hres; [|done..].
  rewrite (resolve_same_dirs _ _ _ _ _ Hsame Hres). cbn. by rewrite Hframe.
Qed.

(** *** [get_cert] and [find_key] by what the files hold *)

Lemma guarded_read {A} (fs : tree) (dir : path) (rel : string) (decode : bytes -> option A)
    (content : bytes) :
  read_file fs dir rel = Return content -> guarded fs dir rel decode = Return (decode content).
Proof.
  intros Hread. unfold guarded. by rewrite (read_file_exists _ _ _ _ Hread), Hread.
Qed.

Lemma guarded_absent {A} (fs : tree) (dir : path) (rel : string) (decode : bytes -> option A) :
  entry fs dir rel = None -> guarded fs dir rel decode = Return None.
Proof. intros Hentry. unfold guarded, path_exists. by rewrite Hentry. Qed.

Lemma guarded_frame {A} (fs fs' : tree) (dir : path) (rel : string)
    (decode : bytes -> option A) :
  same_dirs fs fs' ->
  (forall p, resolve fs dir rel = Return p -> node_at fs' p = node_at fs p) ->
  guarded fs' dir rel decode = guarded fs dir rel decode.
Proof.
  intros Hsame Hframe. unfold guarded, path_exists.
  rewrite (entry_frame _ _ _ _ Hsame Hframe).
  destruct (entry fs dir rel) as [n|] eqn:Hentry; [|done].
  rewrite (read_file_frame _ _ _ _ Hsame Hframe); [done|].
  unfold path_exists. by rewrite Hentry.
Qed.

Lemma get_cert_read (fs : tree) (domain : string) (key_data cert_data : bytes) :
  read_file fs (keys_dir fs) (key_file (Some domain)) = Return key_data ->
  read_file fs (certs_dir fs) (cert_file (Some domain)) = Return cert_data ->
  get_cert fs domain =
    match cert_from_pem cert_data, Key_from_pem key_data with
    | Some cert, Some key => Return (Some (Some domain, key, cert))
    | _, _ => Return None
    end.
Proof.
  intros Hk Hc. unfold get_cert.
  by rewrite (guarded_read _ _ _ _ _ Hk), (guarded_read _ _ _ _ _ Hc).
Qed.

Lemma get_cert_frame (fs fs' : tree) (domain : string) :
  same_dirs fs fs' ->
  (forall p, resolve fs (keys_dir fs) (key_file (Some domain)) = Return p ->
             node_at fs' p = node_at fs p) ->
  (forall p, resolve fs (certs_dir fs) (cert_file (Some domain)) = Return p ->
             node_at fs' p = node_at fs p) ->
  get_cert fs' domain = get_cert fs domain.
Proof.
  intros Hsame Hk Hc. unfold get_cert.
  rewrite (same_dirs_keys _ _ Hsame), (same_dirs_certs _ _ Hsame).
  by rewrite (guarded_frame _ _ _ _ _ Hsame Hk), (guarded_frame _ _ _ _ _ Hsame Hc).
Qed.

Lemma find_key_read (fs : tree) (name : option string) (key_data : bytes) :
  read_file fs (keys_dir fs) (key_file name) = Return key_data ->
  find_key fs name =
    match Key_from_pem key_data with
    | Some key => Return (Some key)
    | None => Raise ValueError
    end.
Proof.
  intros Hread. unfold find_key. by rewrite (read_file_exists _ _ _ _ Hread), Hread.
Qed.

Lemma find_cert_read (fs : tree) (name : option string) (cert_data : bytes) :
  read_file fs (certs_dir fs) (cert_file name) = Return cert_data ->
  find_cert fs name =
    match cert_from_pem cert_data with
    | Some cert => Return (Some cert)
    | None => Raise ValueError
    end.
Proof.
  intros Hread. unfold find_cert. by rewrite (read_file_exists _ _ _ _ Hread), Hread.
Qed.

(** Where the files of a plain name lie. *)
Lemma resolve_plain_key_inv (fs : tree) (name : option string) (p : path) :
  plain (fmt name) ->
  resolve fs (keys_dir fs) (key_file name) = Return p -> p = keys_dir fs ++ [key_file name].
Proof.
  intros Hplain. rewrite resolve_plain_key by done.
  destruct (node_at fs (keys_dir fs)) as [[|c]|]; [|done..]. by intros [= <-].
Qed.

Lemma resolve_plain_cert_inv (fs : tree) (name : option string) (p : path) :
  plain (fmt name) ->
  resolve fs (certs_dir fs) (cert_file name) = Return p -> p = certs_dir fs ++ [cert_file name].
Proof.
  intros Hplain. rewrite resolve_plain_cert by done.
  destruct (node_at fs (certs_dir fs)) as [[|c]|]; [|done..]. by intros [= <-].
Qed.

(** The files of a plain name are not among the files written for other
    plain names. *)
Lemma written_plain_key (fs fs' : tree) (key_names cert_names : list (option string))
    (name : option string) (p : path) :
  written fs fs' key_names cert_names ->
  plain (fmt name) ->
  (forall n, n ∈ key_names -> plain (fmt n) /\ fmt n <> fmt name) ->
  (forall n, n ∈ cert_names -> plain (fmt n)) ->
  resolve fs (keys_dir fs) (key_file name) = Return p ->
  node_at fs' p = node_at fs p.
Proof.
  intros [_ Hw] Hplain Hk Hc ->%resolve_plain_key_inv; [|done].
  destruct (Hw (keys_dir fs ++ [key_file name]))
    as [?|[(n & Hn & Hres)|(n & Hn & Hres)]]; [done|exfalso..].
  - destruct (Hk n Hn) as [Hpn Hne]. apply resolve_plain_key_inv in Hres; [|done].
    apply app_inj_tail in Hres as [_ Heq]. by apply key_file_inj in Heq.
  - apply resolve_plain_cert_inv in Hres; [|by apply Hc].
    by apply keys_certs_apart in Hres.
Qed.

Lemma written_plain_cert (fs fs' : tree) (key_names cert_names : list (option string))
    (name : option string) (p : path) :
  written fs fs' key_names cert_names ->
  plain (fmt name) ->
  (forall n, n ∈ key_names -> plain (fmt n)) ->
  (forall n, n ∈ cert_names -> plain (fmt n) /\ fmt n <> fmt name) ->
  resolve fs (certs_dir fs) (cert_file name) = Return p ->
  node_at fs' p = node_at fs p.
Proof.
  intros [_ Hw] Hplain Hk Hc ->%resolve_plain_cert_inv; [|done].
  destruct (Hw (certs_dir fs ++ [cert_file name]))
    as [?|[(n & Hn & Hres)|(n & Hn & Hres)]]; [done|exfalso..].
  - apply resolve_plain_key_inv in Hres; [|by apply Hk].
    symmetry in Hres. by apply keys_certs_apart in Hres.
  - destruct (Hc n Hn) as [Hpn Hne]. apply resolve_plain_cert_inv in Hres; [|done].
    apply app_inj_tail in Hres as [_ Heq]. by apply cert_file_inj in Heq.
Qed.

(** Writes for plain names leave the answer for another plain domain as
    it was. *)
Lemma written_get_cert (fs fs' : tree) (key_names cert_names : list (option string))
    (domain : string) :
  written fs fs' key_names cert_names ->
  plain domain ->
  (forall n, n ∈ key_names -> plain (fmt n) /\ fmt n <> domain) ->
  (forall n, n ∈ cert_names -> plain (fmt n) /\ fmt n <> domain) ->
  get_cert fs' domain = get_cert fs domain.
Proof.
  intros Hw Hplain Hk Hc. apply get_cert_frame; [apply Hw|..]; intros p Hres.
  - eapply (written_plain_key _ _ _ _ (Some domain)); [done..| |done].
    intros n Hn. by apply Hc.
  - eapply (written_plain_cert _ _ _ _ (Some domain)); [done..| | |done]; [|done].
    intros n Hn. by apply Hk.
Qed.

(** *** [save_key] *)

Lemma save_key_written (fs : tree) (key : Key) (name : option string) :
  written fs (save_key fs key name).1 [name] [].
Proof.
  unfold save_key.
  pose proof (write_key_written fs name (key_to_pem key)) as Hw.
  by destruct (write_file fs (keys_dir fs) (key_file name) (key_to_pem key)) as [fs1 [[]|e|]].
Qed.

Lemma save_key_returned (fs fs' : tree) (key : Key) (name id : option string) :
  save_key fs key name = (fs', Return id) ->
  id = name
  /\ read_file fs' (keys_dir fs') (key_file name) = Return (key_to_pem key).
Proof.
  unfold save_key.
  destruct (write_file fs (keys_dir fs) (key_file name) (key_to_pem key))
    as [fs1 [[]|e|]] eqn:Hwrite; cbn; [|done..].
  intros [= <- <-]. split; [done|].
  destruct (write_file_returned _ _ _ _ _ Hwrite) as (p & Hres & Hp & Hsame).
  apply read_file_resolve. exists p. split; [|done].
  rewrite (same_dirs_keys _ _ Hsame). by eapply resolve_same_dirs.
Qed.

(** *** [save_cert] *)

Lemma save_cert_domain_written (key_id : option string) (key_content : bytes)
    (cert : Certificate) (fs : tree) (domain : string) :
  written fs (save_cert_domain key_id key_content cert fs domain).1
          [Some domain] [Some domain].
Proof.
  unfold save_cert_domain.
  assert (written fs (if decide (Some domain ≠ key_id)
                      then write_file fs (keys_dir fs) (key_file (Some domain)) key_content
                      else (fs, Return tt)).1 [Some domain] [Some domain]) as Hfirst.
  { case_decide; [|apply written_refl].
    eapply written_mono; [done| |apply write_key_written]. list_incl. }
  destruct (if decide (Some domain ≠ key_id) then _ else _) as [fs1 [[]|e|]]; [|done..].
  cbn [and_then fst] in *. eapply written_trans; [exact Hfirst|].
  eapply written_mono; [|done|apply write_cert_written]. list_incl.
Qed.

Lemma save_cert_loop_written (key_id : option string) (key_content : bytes)
    (cert : Certificate) (domains : list string) (fs : tree) :
  written fs (save_cert_loop key_id key_content cert fs domains).1
          (Some <$> domains) (Some <$> domains).
Proof.
  revert fs. induction domains as [|d domains IH]; intros fs; [apply written_refl|].
  cbn [save_cert_loop].
  pose proof (save_cert_domain_written key_id key_content cert fs d) as Hd.
  destruct (save_cert_domain key_id key_content cert fs d) as [fs1 [[]|e|]];
    cbn [and_then fst] in *.
  - eapply written_trans.
    + eapply written_mono; [| |exact Hd]; list_incl.
    + eapply written_mono; [| |apply IH]; list_incl.
  - eapply written_mono; [| |exact Hd]; list_incl.
  - eapply written_mono; [| |exact Hd]; list_incl.
Qed.

(** The certificate names the call writes under. *)
Lemma save_cert_written (fs : tree) (key_id : option string) (cert : Certificate)
    (domains : list string) (name : option string) :
  written fs (save_cert fs key_id cert domains name).1
          (Some <$> domains)
          ((if truthy name then [name] else []) ++ (Some <$> domains)).
Proof.
  unfold save_cert.
  assert (written fs (if truthy name
                      then write_file fs (certs_dir fs) (cert_file name) (cert_to_pem cert)
                      else (fs, Return tt)).1
                  (Some <$> domains)
                  ((if truthy name then [name] else []) ++ (Some <$> domains))) as Hfirst.
  { destruct (truthy name); [|apply written_refl].
    eapply written_mono; [| |apply write_cert_written]; list_incl. }
  destruct (if truthy name then write_file _ _ _ _ else _) as [fs1 [[]|e|]]; [|done..].
  cbn [and_then fst] in *.
  destruct (read_file fs1 (keys_dir fs1) (key_file key_id)) as [key_content|e|]; [|done..].
  cbn [and_then].
  pose proof (save_cert_loop_written key_id key_content cert domains fs1) as Hloop.
  assert (written fs (save_cert_loop key_id key_content cert fs1 domains).1
                  (Some <$> domains)
                  ((if truthy name then [name] else []) ++ (Some <$> domains))) as Hall.
  { eapply written_trans; [exact Hfirst|].
    eapply written_mono; [| |exact Hloop]; list_incl. }
  by destruct (save_cert_loop key_id key_content cert fs1 domains) as [fs2 [[]|e|]].
Qed.

(** The loop writes one content to key files and one to certificate
    files: a file that holds it keeps it. *)
Lemma save_cert_domain_keeps (key_id : option string) (key_content : bytes)
    (cert : Certificate) (fs : tree) (domain : string) (p : path) (held : bytes) :
  (is_key_path p -> held = key_content) ->
  (is_cert_path p -> held = cert_to_pem cert) ->
  node_at fs p = Some (File held) ->
  node_at (save_cert_domain key_id key_content cert fs domain).1 p = Some (File held).
Proof.
  intros Hk Hc Hp. unfold save_cert_domain.
  assert (node_at (if decide (Some domain ≠ key_id)
                   then write_file fs (keys_dir fs) (key_file (Some domain)) key_content
                   else (fs, Return tt)).1 p = Some (File held)) as Hfirst.
  { case_decide; [|done]. by apply write_key_keeps. }
  destruct (if decide (Some domain ≠ key_id) then _ else _) as [fs1 [[]|e|]]; [|done..].
  cbn [and_then fst] in *. by apply write_cert_keeps.
Qed.

Lemma save_cert_loop_keeps (key_id : option string) (key_content : bytes)
    (cert : Certificate) (domains : list string) (fs : tree) (p : path) (held : bytes) :
  (is_key_path p -> held = key_content) ->
  (is_cert_path p -> held = cert_to_pem cert) ->
  node_at fs p = Some (File held) ->
  node_at (save_cert_loop key_id key_content cert fs domains).1 p = Some (File held).
Proof.
  intros Hk Hc. revert fs. induction domains as [|d domains IH]; intros fs Hp; [done|].
  cbn [save_cert_loop].
  pose proof (save_cert_domain_keeps key_id key_content cert fs d p held Hk Hc Hp) as Hd.
  destruct (save_cert_domain key_id key_content cert fs d) as [fs1 [[]|e|]];
    cbn [and_then fst] in *; [by apply IH|done..].
Qed.

(** What a key file holds is read again after the loop, if it is the
    content the loop writes; and the same for a certificate file. *)
Lemma save_cert_loop_key_read (key_id : option string) (key_content : bytes)
    (cert : Certificate) (domains : list string) (fs : tree) (name : option string) :
  let fs' := (save_cert_loop key_id key_content cert fs domains).1 in
  read_file fs (keys_dir fs) (key_file name) = Return key_content ->
  read_file fs' (keys_dir fs') (key_file name) = Return key_content.
Proof.
  cbn zeta. intros Hread.
  destruct (save_cert_loop_written key_id key_content cert domains fs) as [Hsame _].
  rewrite (same_dirs_keys _ _ Hsame).
  apply (read_file_keep fs); [done| |done].
  intros p Hres Hp. apply save_cert_loop_keeps; [done| |done].
  intros Hcp. destruct (key_cert_paths_apart p); [by eapply resolve_key_path|done].
Qed.

Lemma save_cert_loop_cert_read (key_id : option string) (key_content : bytes)
    (cert : Certificate) (domains : list string) (fs : tree) (name : option string) :
  let fs' := (save_cert_loop key_id key_content cert fs domains).1 in
  read_file fs (certs_dir fs) (cert_file name) = Return (cert_to_pem cert) ->
  read_file fs' (certs_dir fs') (cert_file name) = Return (cert_to_pem cert).
Proof.
  cbn zeta. intros Hread.
  destruct (save_cert_loop_written key_id key_content cert domains fs) as [Hsame _].
  rewrite (same_dirs_certs _ _ Hsame).
  apply (read_file_keep fs); [done| |done].
  intros p Hres Hp. apply save_cert_loop_keeps; [|done|done].
  intros Hkp. destruct (key_cert_paths_apart p); [done|by eapply resolve_cert_path].
Qed.

(** A turn of the loop that returned left the key content and the
    certificate under the name of its domain. *)
Lemma save_cert_domain_returned (key_id : option string) (key_content : bytes)
    (cert : Certificate) (fs fs' : tree) (domain : string) :
  save_cert_domain key_id key_content cert fs domain = (fs', Return tt) ->
  read_file fs (keys_dir fs) (key_file key_id) = Return key_content ->
  read_file fs' (keys_dir fs') (key_file (Some domain)) = Return key_content
  /\ read_file fs' (certs_dir fs') (cert_file (Some domain)) = Return (cert_to_pem cert).
Proof.
  unfold save_cert_domain. intros Hrun Hkey.
  assert (exists fs1,
            (if decide (Some domain ≠ key_id)
             then write_file fs (keys_dir fs) (key_file (Some domain)) key_content
             else (fs, Return tt)) = (fs1, Return tt)
            /\ read_file fs1 (keys_dir fs1) (key_file (Some domain)) = Return key_content)
    as (fs1 & Hfirst & Hk1).
  { destruct (if decide (Some domain ≠ key_id) then _ else _) as [fs1 [[]|e|]] eqn:Hfirst;
      [|done..].
    exists fs1. split; [done|]. case_decide as Hne.
    - destruct (write_file_returned _ _ _ _ _ Hfirst) as (p & Hres & Hp & Hsame).
      apply read_file_resolve. exists p. split; [|done].
      rewrite (same_dirs_keys _ _ Hsame). by eapply resolve_same_dirs.
    - injection Hfirst as <-. by rewrite Hne. }
  rewrite Hfirst in Hrun. cbn [and_then] in Hrun.
  destruct (write_file_returned _ _ _ _ _ Hrun) as (q & Hres & Hq & Hsame).
  split.
  - rewrite (same_dirs_keys _ _ Hsame). apply (read_file_keep fs1); [done| |done].
    intros p Hp Hheld.
    replace fs' with (write_file fs1 (certs_dir fs1) (cert_file (Some domain))
                        (cert_to_pem cert)).1 by by rewrite Hrun.
    apply write_cert_keeps; [|done].
    intros Hcp. destruct (key_cert_paths_apart p); [by eapply resolve_key_path|done].
  - apply read_file_resolve. exists q. split; [|done].
    rewrite (same_dirs_certs _ _ Hsame). by eapply resolve_same_dirs.
Qed.

(** After a loop that returned, every domain has the key content and the
    certificate under its own name. *)
Lemma save_cert_loop_returned (key_id : option string) (key_content : bytes)
    (cert : Certificate) (domains : list string) (fs fs' : tree) (domain : string) :
  save_cert_loop key_id key_content cert fs domains = (fs', Return tt) ->
  read_file fs (keys_dir fs) (key_file key_id) = Return key_content ->
  domain ∈ domains ->
  read_file fs' (keys_dir fs') (key_file (Some domain)) = Return key_content
  /\ read_file fs' (certs_dir fs') (cert_file (Some domain)) = Return (cert_to_pem cert).
Proof.
  revert fs. induction domains as [|d domains IH]; intros fs Hrun Hkey Hin;
    [by apply elem_of_nil in Hin|].
  cbn [save_cert_loop] in Hrun.
  destruct (save_cert_domain key_id key_content cert fs d) as [fs1 [[]|e|]] eqn:Hd;
    cbn [and_then] in Hrun; [|done..].
  destruct (save_cert_domain_returned _ _ _ _ _ _ Hd Hkey) as [Hk1 Hc1].
  assert (read_file fs1 (keys_dir fs1) (key_file key_id) = Return key_content) as Hkey1.
  { pose proof (save_cert_domain_written key_id key_content cert fs d) as [Hsame _].
    rewrite Hd in Hsame. cbn [fst] in Hsame. rewrite (same_dirs_keys _ _ Hsame).
    apply (read_file_keep fs); [done| |done].
    intros p Hres Hp.
    replace fs1 with (save_cert_domain key_id key_content cert fs d).1 by by rewrite Hd.
    apply save_cert_domain_keeps; [done| |done].
    intros Hcp. destruct (key_cert_paths_apart p); [by eapply resolve_key_path|done]. }
  destruct (decide (domain ∈ domains)) as [Hin'|Hnotin]; [by eapply IH|].
  apply elem_of_cons in Hin as [->|?]; [|done].
  replace fs' with (save_cert_loop key_id key_content cert fs1 domains).1
    by by rewrite Hrun.
  split; [by apply save_cert_loop_key_read|by apply save_cert_loop_cert_read].
Qed.

(** [save_cert] that returned, then [get_cert], in any file system. *)
Lemma fs_save_cert_returned (fs fs' : tree) (key_id : option string) (cert : Certificate)
    (domains : list string) (name id : option string) (key_content : bytes) :
  save_cert fs key_id cert domains name = (fs', Return id) ->
  read_file fs (keys_dir fs) (key_file key_id) = Return key_content ->
  (forall domain, domain ∈ domains ->
     read_file fs' (keys_dir fs') (key_file (Some domain)) = Return key_content
     /\ read_file fs' (certs_dir fs') (cert_file (Some domain)) = Return (cert_to_pem cert))
  /\ (if truthy name
      then id = name
           /\ read_file fs' (certs_dir fs') (cert_file name) = Return (cert_to_pem cert)
      else Some id = Some <$> head domains).
Proof.
  unfold save_cert. intros Hrun Hkey.
  assert (exists fs1,
            (if truthy name
             then write_file fs (certs_dir fs) (cert_file name) (cert_to_pem cert)
             else (fs, Return tt)) = (fs1, Return tt)
            /\ read_file fs1 (keys_dir fs1) (key_file key_id) = Return key_content
            /\ (truthy name = true ->
                read_file fs1 (certs_dir fs1) (cert_file name) = Return (cert_to_pem cert)))
    as (fs1 & Hfirst & Hkey1 & Hname1).
  { destruct (if truthy name then _ else _) as [fs1 [[]|e|]] eqn:Hfirst; [|done..].
    exists fs1. split; [done|]. destruct (truthy name).
    - destruct (write_file_returned _ _ _ _ _ Hfirst) as (q & Hres & Hq & Hsame).
      split.
      + rewrite (same_dirs_keys _ _ Hsame). apply (read_file_keep fs); [done| |done].
        intros p Hp Hheld.
        replace fs1 with (write_file fs (certs_dir fs) (cert_file name)
                            (cert_to_pem cert)).1 by by rewrite Hfirst.
        apply write_cert_keeps; [|done].
        intros Hcp. destruct (key_cert_paths_apart p); [by eapply resolve_key_path|done].
      + intros _. apply read_file_resolve. exists q. split; [|done].
        rewrite (same_dirs_certs _ _ Hsame). by eapply resolve_same_dirs.
    - injection Hfirst as <-. by split. }
  rewrite Hfirst in Hrun. cbn [and_then] in Hrun. rewrite Hkey1 in Hrun. cbn [and_then] in Hrun.
  destruct (save_cert_loop key_id key_content cert fs1 domains) as [fs2 [[]|e|]] eqn:Hloop;
    cbn [and_then] in Hrun; [|done..].
  injection Hrun as <- Hid. split.
  - intros domain Hin. by eapply save_cert_loop_returned.
  - destruct (truthy name).
    + injection Hid as <-. split; [done|].
      replace fs2 with (save_cert_loop key_id key_content cert fs1 domains).1
        by by rewrite Hloop.
      by apply save_cert_loop_cert_read, Hname1.
    + by destruct domains; [|injection Hid as <-].
Qed.

Lemma fs_save_cert_get_cert (fs fs' : tree) (key_id : option string) (cert : Certificate)
    (domains : list string) (name id : option string) (domain : string) (key : Key) :
  save_cert fs key_id cert domains name = (fs', Return id) ->
  read_file fs (keys_dir fs) (key_file key_id) = Return (key_to_pem key) ->
  Key_from_pem (key_to_pem key) = Some key ->
  cert_from_pem (cert_to_pem cert) = Some cert ->
  domain ∈ domains ->
  get_cert fs' domain = Return (Some (Some domain, key, cert)).
Proof.
  intros Hrun Hkey Hkdec Hcdec Hin.
  destruct (fs_save_cert_returned _ _ _ _ _ _ _ _ Hrun Hkey) as [Hfiles _].
  destruct (Hfiles domain Hin) as [Hk Hc].
  by rewrite (get_cert_read _ _ _ _ Hk Hc), Hkdec, Hcdec.
Qed.
End FilesystemFacts.

(** ** The two backends against the contract *)
Section BackendClaims.
Context {crypto : Crypto}.

(** C3: what [get_cert] does when the stored key bytes or certificate bytes
    of a domain do not decode.  The filesystem backend fails closed and
    returns the absent indicator; the relational backend does not guard
    its decoders and lets the [ValueError] out. *)
Theorem get_cert_undecodable_record :
  (forall (conn : SqliteKeyStore.connection) (domain : string) id key_der cert_der rest,
     SqliteKeyStore.select_cert (SqliteKeyStore.working conn) domain
       = (id, key_der, cert_der) :: rest ->
     Key_from_der key_der = None \/ cert_from_der cert_der = None ->
     SqliteKeyStore.get_cert conn domain = Raise ValueError)
  /\ (forall (fs : FilesystemKeyStore.tree) (domain : string) key_data cert_data,
       FilesystemKeyStore.read_file fs (FilesystemKeyStore.keys_dir fs)
         (FilesystemKeyStore.key_file (Some domain)) = Return key_data ->
       FilesystemKeyStore.read_file fs (FilesystemKeyStore.certs_dir fs)
         (FilesystemKeyStore.cert_file (Some domain)) = Return cert_data ->
       Key_from_pem key_data = None \/ cert_from_pem cert_data = None ->
       FilesystemKeyStore.get_cert fs domain = Return None).
Proof.
  split.
  - intros conn domain id key_der cert_der rest Hsel Hbad.
    unfold SqliteKeyStore.get_cert. rewrite Hsel.
    destruct Hbad as [-> | Hc]; [done|].
    rewrite Hc. by destruct (Key_from_der key_der).
  - intros fs domain key_data cert_data Hk Hc Hbad.
    rewrite (get_cert_read _ _ _ _ Hk Hc).
    destruct Hbad as [-> | ->]; [by destruct (cert_from_pem cert_data)|done].
Qed.

(** C7: the round trip of [save_cert] and [get_cert].  The filesystem
    backend keeps the law: in every file system in which the key file of
    [key_id] holds the key, after a [save_cert] that returned every domain
    of the call gets back the key and the certificate, and its key file
    holds byte for byte what the key file of [key_id] held.  The relational
    backend keeps it for the domains that had no index row before the
    call, and breaks it for a domain that had one: such a domain is still
    answered from the rows it read first before the call, with their
    identifier, which is not the one [save_cert] returned. *)
Theorem save_cert_get_cert_round_trip {laws : CryptoLaws} (key : Key) (cert : Certificate)
    (domains : list string) (name : option string) (domain : string) :
  domain ∈ domains ->
  (forall (fs fs' : FilesystemKeyStore.tree) (key_id id : option string),
     FilesystemKeyStore.read_file fs (FilesystemKeyStore.keys_dir fs)
       (FilesystemKeyStore.key_file key_id) = Return (key_to_pem key) ->
     FilesystemKeyStore.save_cert fs key_id cert domains name = (fs', Return id) ->
     FilesystemKeyStore.get_cert fs' domain = Return (Some (Some domain, key, cert))
     /\ FilesystemKeyStore.read_file fs' (FilesystemKeyStore.keys_dir fs')
          (FilesystemKeyStore.key_file (Some domain))
        = FilesystemKeyStore.read_file fs (FilesystemKeyStore.keys_dir fs)
            (FilesystemKeyStore.key_file key_id))
  /\ (forall (conn : SqliteKeyStore.connection) (key_id : Z) p,
       head (filter (fun p => SqliteKeyStore.pk_id p = key_id)
                    (SqliteKeyStore.private_keys (SqliteKeyStore.working conn))) = Some p ->
       SqliteKeyStore.pk_content p = key_to_der key ->
       (forall s, s ∈ SqliteKeyStore.ssl_domains (SqliteKeyStore.working conn) ->
                  SqliteKeyStore.s_domain s ≠ domain) ->
       let r := SqliteKeyStore.save_cert conn key_id cert domains name in
       SqliteKeyStore.get_cert r.1 domain = Return (Some (r.2, key, cert)))
  /\ (forall (conn : SqliteKeyStore.connection) (key_id : Z) s c p key0 cert0,
       SqliteKeyStore.first_rows (SqliteKeyStore.working conn) domain s c p ->
       Key_from_der (SqliteKeyStore.pk_content p) = Some key0 ->
       cert_from_der (SqliteKeyStore.c_content c) = Some cert0 ->
       let r := SqliteKeyStore.save_cert conn key_id cert domains name in
       SqliteKeyStore.get_cert conn domain
         = Return (Some (SqliteKeyStore.c_id c, key0, cert0))
       /\ SqliteKeyStore.get_cert r.1 domain
          = Return (Some (SqliteKeyStore.c_id c, key0, cert0))
       /\ SqliteKeyStore.c_id c < r.2).
Proof.
  intros Hin. split; [|split].
  - intros fs fs' key_id id Hkey Hrun.
    split.
    + eapply fs_save_cert_get_cert;
        [done..|apply Key_from_pem_to_pem|apply cert_from_pem_to_pem|done].
    + rewrite Hkey.
      destruct (fs_save_cert_returned _ _ _ _ _ _ _ _ Hrun Hkey) as [Hfiles _].
      by apply Hfiles.
  - intros conn key_id p Hp Hcontent Hnew. cbn zeta.
    destruct (first_rows_select _ _ _ _ _
                (first_rows_save_cert conn key_id cert domains name domain p Hnew Hin Hp))
      as [rest Hsel].
    unfold SqliteKeyStore.get_cert. rewrite Hsel. cbn.
    by rewrite Hcontent, Key_from_der_to_der, cert_from_der_to_der.
  - intros conn key_id s c p key0 cert0 Hrows Hkey0 Hcert0. cbn zeta.
    destruct (first_rows_select _ _ _ _ _ Hrows) as [rest Hsel].
    destruct (first_rows_select _ _ _ _ _
                (first_rows_save_cert_stable conn key_id cert domains name _ _ _ _ Hrows))
      as [rest' Hsel'].
    split; [|split].
    + unfold SqliteKeyStore.get_cert. by rewrite Hsel, Hkey0, Hcert0.
    + unfold SqliteKeyStore.get_cert. by rewrite Hsel', Hkey0, Hcert0.
    + rewrite save_cert_spec. cbn. apply next_rowid_fresh, list_elem_of_fmap.
      exists c. split; [done|]. destruct Hrows as (_ & Hc & _).
      apply head_Some_elem_of in Hc. by apply list_elem_of_filter in Hc as [_ ?].
Qed.

(** C4: two [save_cert] calls that both cover a domain.  On the
    filesystem backend the files are overwritten and the later call wins:
    [get_cert] returns its key and certificate.  On the relational backend
    the earlier record is not superseded: [save_cert] only appends, the
    domain ends up with an index row for each of the two certificates, and
    [get_cert] reads the first, so a domain that had no index row before
    is answered with the identifier, key and certificate of the earlier
    call. *)
Theorem save_cert_twice {laws : CryptoLaws} (key1 key2 : Key) (cert1 cert2 : Certificate)
    (domains1 domains2 : list string) (name1 name2 : option string) (domain : string) :
  domain ∈ domains1 ->
  domain ∈ domains2 ->
  (forall (conn : SqliteKeyStore.connection) (key_id1 key_id2 : Z) p,
     head (filter (fun p => SqliteKeyStore.pk_id p = key_id1)
                  (SqliteKeyStore.private_keys (SqliteKeyStore.working conn))) = Some p ->
     SqliteKeyStore.pk_content p = key_to_der key1 ->
     (forall s, s ∈ SqliteKeyStore.ssl_domains (SqliteKeyStore.working conn) ->
                SqliteKeyStore.s_domain s ≠ domain) ->
     let r1 := SqliteKeyStore.save_cert conn key_id1 cert1 domains1 name1 in
     let r2 := SqliteKeyStore.save_cert r1.1 key_id2 cert2 domains2 name2 in
     SqliteKeyStore.get_cert r2.1 domain = Return (Some (r1.2, key1, cert1))
     /\ r1.2 < r2.2
     /\ SqliteKeyStore.Ssl_domain domain r1.2
          ∈ SqliteKeyStore.ssl_domains (SqliteKeyStore.working r2.1)
     /\ SqliteKeyStore.Ssl_domain domain r2.2
          ∈ SqliteKeyStore.ssl_domains (SqliteKeyStore.working r2.1))
  /\ (forall (fs fs2 : FilesystemKeyStore.tree) (key_id1 key_id2 id2 : option string),
       let fs1 := (FilesystemKeyStore.save_cert fs key_id1 cert1 domains1 name1).1 in
       FilesystemKeyStore.read_file fs1 (FilesystemKeyStore.keys_dir fs1)
         (FilesystemKeyStore.key_file key_id2) = Return (key_to_pem key2) ->
       FilesystemKeyStore.save_cert fs1 key_id2 cert2 domains2 name2 = (fs2, Return id2) ->
       FilesystemKeyStore.get_cert fs2 domain = Return (Some (Some domain, key2, cert2))).
Proof.
  intros Hin1 Hin2. split.
  - intros conn key_id1 key_id2 p Hp Hcontent Hnew. cbn zeta.
    pose proof (first_rows_save_cert conn key_id1 cert1 domains1 name1 domain p Hnew Hin1 Hp)
      as Hrows.
    cbn zeta in Hrows.
    destruct (first_rows_select _ _ _ _ _
                (first_rows_save_cert_stable _ key_id2 cert2 domains2 name2 _ _ _ _ Hrows))
      as [rest Hsel].
    split.
    { unfold SqliteKeyStore.get_cert. rewrite Hsel. cbn.
      by rewrite Hcontent, Key_from_der_to_der, cert_from_der_to_der. }
    rewrite (save_cert_spec (SqliteKeyStore.save_cert conn key_id1 cert1 domains1 name1).1).
    rewrite (save_cert_spec conn). cbn.
    split; [|split].
    + apply next_rowid_fresh. rewrite fmap_app. apply elem_of_app. right.
      cbn. apply elem_of_cons. by left.
    + apply elem_of_app. left. apply elem_of_app. right.
      apply list_elem_of_fmap. eauto.
    + apply elem_of_app. right. apply list_elem_of_fmap. eauto.
  - cbn zeta. intros fs fs2 key_id1 key_id2 id2 Hkey Hrun.
    eapply fs_save_cert_get_cert;
      [done..|apply Key_from_pem_to_pem|apply cert_from_pem_to_pem|done].
Qed.

(** C9: transactions on the relational backend.  On a connection with no
    transaction open, [save_key] and [save_cert] each leave no transaction
    open and their rows in the database file: each call is its own
    committed transaction.  The per-domain rows of one [save_cert] are not
    atomic with each other: when the call is cut in its loop after [k] of
    its INSERTs, fewer than there are domains, the [k] index rows stay in
    the transaction left open on the connection, and the commit of the next
    call on that connection makes them durable, with the certificate row
    and without the other index rows of the call.  (At the cut itself the
    database file is still as before the call.) *)
Theorem save_cert_rows_not_atomic (db : SqliteKeyStore.database) (key : Key)
    (key_name : option string) (key_id : Z) (cert : Certificate) (domains : list string)
    (name : option string) (k : nat) :
  (k < length domains)%nat ->
  let conn := SqliteKeyStore.connect db in
  let cert_id :=
    SqliteKeyStore.next_rowid (SqliteKeyStore.certificates_seq db)
      (SqliteKeyStore.c_id <$> SqliteKeyStore.certificates db) in
  let index_rows (ds : list string) := (fun d => SqliteKeyStore.Ssl_domain d cert_id) <$> ds in
  (let r := SqliteKeyStore.save_key conn key key_name in
   SqliteKeyStore.txn r.1 = None
   /\ SqliteKeyStore.durable r.1
      = (SqliteKeyStore.insert_private_key db key_name (key_to_der key)).1)
  /\ (let r := SqliteKeyStore.save_cert conn key_id cert domains name in
      r.2 = cert_id
      /\ SqliteKeyStore.txn r.1 = None
      /\ SqliteKeyStore.certificates (SqliteKeyStore.durable r.1)
         = SqliteKeyStore.certificates db
           ++ [SqliteKeyStore.Certificate_row cert_id name key_id (cert_to_der cert)]
      /\ SqliteKeyStore.ssl_domains (SqliteKeyStore.durable r.1)
         = SqliteKeyStore.ssl_domains db ++ index_rows domains)
  /\ (let conn' := SqliteKeyStore.save_cert_interrupted k conn key_id cert domains name in
      let later := (SqliteKeyStore.save_key conn' key key_name).1 in
      SqliteKeyStore.durable conn' = db
      /\ SqliteKeyStore.ssl_domains (SqliteKeyStore.working conn')
         = SqliteKeyStore.ssl_domains db ++ index_rows (take k domains)
      /\ SqliteKeyStore.txn later = None
      /\ SqliteKeyStore.certificates (SqliteKeyStore.durable later)
         = SqliteKeyStore.certificates db
           ++ [SqliteKeyStore.Certificate_row cert_id name key_id (cert_to_der cert)]
      /\ SqliteKeyStore.ssl_domains (SqliteKeyStore.durable later)
         = SqliteKeyStore.ssl_domains db ++ index_rows (take k domains)
      /\ (length (index_rows (take k domains)) = k
          /\ k < length (index_rows domains))%nat
      /\ exists d rest, domains = take k domains ++ d :: rest).
Proof.
  intros Hk. cbn zeta. split; [done|]. split.
  - rewrite save_cert_spec. done.
  - unfold SqliteKeyStore.save_cert_interrupted.
    destruct (save_cert_statements_spec (SqliteKeyStore.connect db) key_id cert
                (take k domains) name) as (_ & Hd & Hw).
    cbn zeta in Hd, Hw. split; [done|]. split.
    { exact (f_equal SqliteKeyStore.ssl_domains Hw). }
    rewrite save_key_spec. cbn [fst].
    split; [done|]. split.
    { cbn. exact (f_equal SqliteKeyStore.certificates Hw). }
    split.
    { cbn. exact (f_equal SqliteKeyStore.ssl_domains Hw). }
    split.
    { rewrite !length_fmap, length_take. lia. }
    destruct (drop k domains) as [|d rest] eqn:Hdrop.
    + apply (f_equal length) in Hdrop. rewrite length_drop in Hdrop. cbn in Hdrop. lia.
    + exists d, rest. by rewrite <- Hdrop, take_drop.
Qed.
End BackendClaims.

(** ** The two backends side by side *)
Section Equivalence.
Context {crypto : Crypto}.

Lemma sqlite_get_cert_absent (conn : SqliteKeyStore.connection) (domain : string) :
  (forall s, s ∈ SqliteKeyStore.ssl_domains (SqliteKeyStore.working conn) ->
             SqliteKeyStore.s_domain s ≠ domain) ->
  SqliteKeyStore.get_cert conn domain = Return None.
Proof.
  intros Hnew. unfold SqliteKeyStore.get_cert, SqliteKeyStore.select_cert.
  assert (filter (fun s => SqliteKeyStore.s_domain s = domain)
                 (SqliteKeyStore.ssl_domains (SqliteKeyStore.working conn)) = []) as ->; [|done].
  apply elem_of_nil_inv. intros s [Hs Hin]%list_elem_of_filter. by apply (Hnew s).
Qed.

(** What [try ... except ValueError] leaves of a path that is missing or
    leads to a regular file. *)
Lemma guarded_no_dir {A} (fs : FilesystemKeyStore.tree) (dir : FilesystemKeyStore.path)
    (rel : string) (decode : bytes -> option A) :
  FilesystemKeyStore.entry fs dir rel <> Some FilesystemKeyStore.Dir ->
  exists o, FilesystemKeyStore.guarded fs dir rel decode = Return o
            /\ (FilesystemKeyStore.entry fs dir rel = None -> o = None).
Proof.
  intros Hnodir.
  destruct (FilesystemKeyStore.entry fs dir rel) as [[|content]|] eqn:Hentry; [done| |].
  - apply read_file_entry in Hentry. rewrite (guarded_read _ _ _ _ _ Hentry). by eexists.
  - rewrite guarded_absent by done. by eexists.
Qed.

(** C1, amended: what the two backends share and where they part.  Both
    answer with the absent indicator for a domain they hold nothing for.
    On the relational backend the domains of one [save_cert] call (none of
    them indexed before) all get the identifier of the new certificate; on
    the filesystem backend the identifier [get_cert] returns is the domain
    asked for.  Response assembly merges by identifier: its existing
    bundles are exactly the merges of the entries of each identifier, one
    bundle per identifier, listing the hosts of those entries, which are
    the same hosts in whatever order the lookups were made. *)
Theorem backends_identifiers_and_merging {laws : CryptoLaws} :
  (forall (conn : SqliteKeyStore.connection) (domain : string),
     (forall s, s ∈ SqliteKeyStore.ssl_domains (SqliteKeyStore.working conn) ->
                SqliteKeyStore.s_domain s ≠ domain) ->
     SqliteKeyStore.get_cert conn domain = Return None)
  /\ (forall (fs : FilesystemKeyStore.tree) (domain : string),
       let key_entry :=
         FilesystemKeyStore.entry fs (FilesystemKeyStore.keys_dir fs)
           (FilesystemKeyStore.key_file (Some domain)) in
       let cert_entry :=
         FilesystemKeyStore.entry fs (FilesystemKeyStore.certs_dir fs)
           (FilesystemKeyStore.cert_file (Some domain)) in
       key_entry <> Some FilesystemKeyStore.Dir ->
       cert_entry <> Some FilesystemKeyStore.Dir ->
       key_entry = None \/ cert_entry = None ->
       FilesystemKeyStore.get_cert fs domain = Return None)
  /\ (forall (conn : SqliteKeyStore.connection) (key_id : Z) p (key : Key)
             (cert : Certificate) (domains : list string) (name : option string),
       head (filter (fun p => SqliteKeyStore.pk_id p = key_id)
                    (SqliteKeyStore.private_keys (SqliteKeyStore.working conn))) = Some p ->
       SqliteKeyStore.pk_content p = key_to_der key ->
       (forall s, s ∈ SqliteKeyStore.ssl_domains (SqliteKeyStore.working conn) ->
                  SqliteKeyStore.s_domain s ∉ domains) ->
       let r := SqliteKeyStore.save_cert conn key_id cert domains name in
       forall domain, domain ∈ domains ->
         SqliteKeyStore.get_cert r.1 domain = Return (Some (r.2, key, cert)))
  /\ (forall (fs : FilesystemKeyStore.tree) (domain : string) id key cert,
       FilesystemKeyStore.get_cert fs domain = Return (Some (id, key, cert)) ->
       id = Some domain)
  /\ (forall (I : Type) (EqI : EqDecision I) (ex ex' : dict string (I * Key * Certificate))
             (issued_certs : list IssuedCert),
       (forall b, b ∈ existing (createExistingResponse ex issued_certs) <->
          exists id h key cert rest,
            with_id id ex = (h, (id, key, cert)) :: rest
            /\ b = Build_IssuedCert (key_to_pem key) (cert_to_pem cert) (with_id id ex).*1)
       /\ length (existing (createExistingResponse ex issued_certs))
          = length (remove_dups (ids_of ex))
       /\ (ex ≡ₚ ex' -> forall id, (with_id id ex).*1 ≡ₚ (with_id id ex').*1)).
Proof.
  split; [exact sqlite_get_cert_absent|]. split; [|split; [|split]].
  - intros fs domain key_entry cert_entry Hkdir Hcdir Habsent.
    unfold FilesystemKeyStore.get_cert.
    destruct (guarded_no_dir fs _ _ Key_from_pem Hkdir) as (key & -> & Hkey).
    destruct (guarded_no_dir fs _ _ cert_from_pem Hcdir) as (cert & -> & Hcert).
    cbn. destruct Habsent as [Hk|Hc].
    + rewrite (Hkey Hk). by destruct cert.
    + by rewrite (Hcert Hc).
  - intros conn key_id p key cert domains name Hp Hcontent Hnew. cbn zeta.
    intros domain Hin.
    destruct (first_rows_select _ _ _ _ _
                (first_rows_save_cert conn key_id cert domains name domain p
                   (fun s Hs Heq => Hnew s Hs (eq_ind_r (fun d => d ∈ domains) Hin Heq))
                   Hin Hp))
      as [rest Hsel].
    unfold SqliteKeyStore.get_cert. rewrite Hsel. cbn.
    by rewrite Hcontent, Key_from_der_to_der, cert_from_der_to_der.
  - intros fs domain id key cert. unfold FilesystemKeyStore.get_cert.
    destruct (FilesystemKeyStore.guarded fs _ _ Key_from_pem) as [[k|]| |]; cbn; [| |done..];
      (destruct (FilesystemKeyStore.guarded fs _ _ cert_from_pem) as [[c|]| |]; cbn;
       [|done..]); [|done].
    by intros [= <- _ _].
  - intros I EqI ex ex' issued_certs.
    split; [apply createExistingResponse_existing|].
    split; [apply createExistingResponse_length|].
    intros Hperm id. unfold with_id. by rewrite Hperm.
Qed.
End Equivalence.

(** ** More on the filesystem backend *)
Section FilesystemMore.
Import FilesystemKeyStore.
Context {crypto : Crypto}.

Lemma find_key_frame (fs fs' : tree) (name : option string) :
  same_dirs fs fs' ->
  (forall p, resolve fs (keys_dir fs) (key_file name) = Return p ->
             node_at fs' p = node_at fs p) ->
  find_key fs' name = find_key fs name.
Proof.
  intros Hsame Hframe. unfold find_key. rewrite (same_dirs_keys _ _ Hsame).
  unfold path_exists. rewrite (entry_frame _ _ _ _ Hsame Hframe).
  destruct (entry fs (keys_dir fs) (key_file name)) as [n|] eqn:Hentry; [|done].
  rewrite (read_file_frame _ _ _ _ Hsame Hframe); [done|].
  unfold path_exists. by rewrite Hentry.
Qed.

Lemma find_cert_frame (fs fs' : tree) (name : option string) :
  same_dirs fs fs' ->
  (forall p, resolve fs (certs_dir fs) (cert_file name) = Return p ->
             node_at fs' p = node_at fs p) ->
  find_cert fs' name = find_cert fs name.
Proof.
  intros Hsame Hframe. unfold find_cert. rewrite (same_dirs_certs _ _ Hsame).
  unfold path_exists. rewrite (entry_frame _ _ _ _ Hsame Hframe).
  destruct (entry fs (certs_dir fs) (cert_file name)) as [n|] eqn:Hentry; [|done].
  rewrite (read_file_frame _ _ _ _ Hsame Hframe); [done|].
  unfold path_exists. by rewrite Hentry.
Qed.

(** [save_key] that returned, then [find_key]. *)
Lemma fs_save_key_found {laws : CryptoLaws} (fs fs' : tree) (key : Key)
    (name id : option string) :
  save_key fs key name = (fs', Return id) ->
  id = name /\ find_key fs' name = Return (Some key).
Proof.
  intros [-> Hread]%save_key_returned. split; [done|].
  by rewrite (find_key_read _ _ _ Hread), Key_from_pem_to_pem.
Qed.

(** X1: [save_key] that returned, then [find_key] under the same name,
    gives the key back, whatever file was there before.  Whether it
    returned or not, [save_key] under a plain name leaves the key files of
    the other plain names as they were, and under any name it leaves every
    certificate file as it was. *)
Theorem fs_save_key_find_key {laws : CryptoLaws} (fs : tree) (key : Key)
    (name : option string) :
  let fs' := (save_key fs key name).1 in
  (forall id, (save_key fs key name).2 = Return id ->
     id = name /\ find_key fs' name = Return (Some key))
  /\ (forall other, plain (fmt name) -> plain (fmt other) -> fmt other <> fmt name ->
        find_key fs' other = find_key fs other)
  /\ (forall other, find_cert fs' other = find_cert fs other).
Proof.
  cbn zeta. pose proof (save_key_written fs key name) as Hw.
  split; [|split].
  - intros id Hid. apply (fs_save_key_found fs).
    destruct (save_key fs key name) as [fs' r]. cbn in Hid. by subst r.
  - intros other Hname Hother Hne. apply find_key_frame; [apply Hw|].
    intros p Hres. eapply (written_plain_key _ _ _ _ other); [done..| | |done].
    + intros n ->%list_elem_of_singleton. by split.
    + intros n Hn. inversion Hn.
  - intros other. apply find_cert_frame; [apply Hw|].
    intros p Hres. destruct Hw as [_ Hw].
    destruct (Hw p) as [?|[(n & _ & Hkey)|(n & Hn & _)]]; [done| |inversion Hn].
    destruct (key_cert_paths_apart p);
      [by eapply resolve_key_path|by eapply resolve_cert_path].
Qed.

(** X2: the account key is generated once.  When [_init_account_key]
    returns a key, that key is the one [find_key] reads under
    "acme_account" afterwards, and running [_init_account_key] again, with
    whatever key generator, returns the same key and writes nothing. *)
Theorem fs_init_account_key_once {laws : CryptoLaws} (gen_key_rsa gen_key_rsa' : Z -> Key)
    (fs : tree) (account_key : Key) :
  (_init_account_key gen_key_rsa fs).2 = Return account_key ->
  let fs' := (_init_account_key gen_key_rsa fs).1 in
  find_key fs' (Some "acme_account"%string) = Return (Some account_key)
  /\ _init_account_key gen_key_rsa' fs' = (fs', Return account_key).
Proof.
  cbn zeta.
  destruct (find_key fs (Some "acme_account"%string)) as [[k|]| |] eqn:Hfind.
  - assert (forall gen, _init_account_key gen fs = (fs, Return k)) as Hinit
      by (intros gen; unfold _init_account_key; by rewrite Hfind).
    rewrite !Hinit. cbn [fst snd]. by intros [= ->].
  - destruct (save_key fs (gen_key_rsa 4096) (Some "acme_account"%string))
      as [fs1 saved] eqn:Hsave.
    assert (_init_account_key gen_key_rsa fs
            = (fs1, match saved with
                    | Return _ => Return (gen_key_rsa 4096)
                    | Raise e => Raise e
                    | Diverge => Diverge
                    end)) as ->.
    { unfold _init_account_key, gen_key. rewrite Hfind. cbn [and_then].
      rewrite Hsave. by destruct saved. }
    cbn [fst snd]. destruct saved as [id|e|]; [|done..]. intros [= <-].
    apply fs_save_key_found in Hsave as [_ Hfound]. split; [done|].
    unfold _init_account_key. by rewrite Hfound.
  - unfold _init_account_key. by rewrite Hfind.
  - unfold _init_account_key. by rewrite Hfind.
Qed.

(** X3: an account key file that does not decode is not replaced:
    [_init_account_key] raises [ValueError] and leaves the file system as
    it was. *)
Theorem fs_init_account_key_corrupt (gen_key_rsa : Z -> Key) (fs : tree) (data : bytes) :
  read_file fs (keys_dir fs) (key_file (Some "acme_account"%string)) = Return data ->
  Key_from_pem data = None ->
  _init_account_key gen_key_rsa fs = (fs, Raise ValueError).
Proof.
  intros Hfile Hbad. unfold _init_account_key.
  by rewrite (find_key_read _ _ _ Hfile), Hbad.
Qed.

(** X5: [save_cert] under a key identifier that has no key file raises
    [FileNotFoundError] before any per-domain file is written: the file
    system is as before, except that the certificate file of [name] has
    already been written when a name was given.  (The store is set up, and
    the key identifier and the name are plain.) *)
Theorem fs_save_cert_missing_key (fs : tree) (key_id : option string) (cert : Certificate)
    (domains : list string) (name : option string) :
  initialised fs ->
  plain (fmt key_id) ->
  entry fs (keys_dir fs) (key_file key_id) = None ->
  (truthy name = true ->
   plain (fmt name) /\ entry fs (certs_dir fs) (cert_file name) <> Some Dir) ->
  let r := save_cert fs key_id cert domains name in
  r.2 = Raise FileNotFoundError
  /\ base_dir r.1 = base_dir fs
  /\ nodes r.1 =
     if truthy name
     then <[certs_dir fs ++ [cert_file name] := File (cert_to_pem cert)]> (nodes fs)
     else nodes fs.
Proof.
  intros [Hkeys Hcerts] Hplain Hnone Hname. cbn zeta. unfold save_cert.
  assert (forall fs1 : tree,
            same_dirs fs fs1 ->
            node_at fs1 (keys_dir fs ++ [key_file key_id]) = None ->
            read_file fs1 (keys_dir fs1) (key_file key_id) = Raise FileNotFoundError)
    as Hread.
  { intros fs1 Hsame Hnode. unfold read_file.
    rewrite (same_dirs_keys _ _ Hsame), resolve_plain_key by done.
    destruct Hsame as [_ Hdirs]. apply Hdirs in Hkeys. rewrite Hkeys. cbn.
    by rewrite Hnode. }
  assert (node_at fs (keys_dir fs ++ [key_file key_id]) = None) as Hnode.
  { unfold entry in Hnone. rewrite resolve_plain_key, Hkeys in Hnone by done. done. }
  destruct (truthy name) eqn:Htruthy.
  - destruct (Hname eq_refl) as [Hpn Hnodir].
    unfold entry in Hnodir. rewrite resolve_plain_cert, Hcerts in Hnodir by done.
    unfold write_file. rewrite resolve_plain_cert, Hcerts by done. lazy beta iota.
    set (p := certs_dir fs ++ [cert_file name]) in *.
    destruct (node_at fs p) as [[|c]|] eqn:Hp; [done|..]; cbn [and_then];
      (rewrite Hread;
       [done
       |apply same_dirs_write; by rewrite Hp
       |rewrite node_at_write by (by rewrite Hp); rewrite decide_False;
        [done|apply keys_certs_apart]]).
  - cbn [and_then]. rewrite Hread; [done|apply same_dirs_refl|done].
Qed.

(** X6: the identifier [save_cert] returns when it is given a name is that
    name, and [get_cert] does not resolve it: the certificate is written
    under the name, the key is not.  (The name and the domains are plain,
    the name is none of the domains and has no key file of its own.) *)
Theorem fs_save_cert_named_not_resolved {laws : CryptoLaws} (fs fs' : tree)
    (key_id id : option string) (cert : Certificate) (domains : list string)
    (name : string) :
  name <> ""%string ->
  plain name ->
  Forall plain domains ->
  name ∉ domains ->
  entry fs (keys_dir fs) (key_file (Some name)) = None ->
  save_cert fs key_id cert domains (Some name) = (fs', Return id) ->
  id = Some name
  /\ find_cert fs' (Some name) = Return (Some cert)
  /\ get_cert fs' name = Return None.
Proof.
  intros Hname Hplain Hdomains Hnotin Hnokey Hrun.
  assert (truthy (Some name) = true) as Htruthy by by destruct name.
  destruct (read_file fs (keys_dir fs) (key_file key_id)) as [key_content|e|] eqn:Hkey.
  2,3: exfalso; unfold save_cert in Hrun; rewrite Htruthy in Hrun;
       pose proof (write_cert_written fs (Some name) (cert_to_pem cert)) as [Hsame _];
       destruct (write_file fs (certs_dir fs) (cert_file (Some name)) (cert_to_pem cert))
         as [fs1 [[]|e'|]] eqn:Hfirst; cbn [and_then fst] in *; [|done..];
       destruct (read_file fs1 (keys_dir fs1) (key_file key_id)) as [kc|e'|] eqn:Hkey1;
         [|done..];
       apply read_file_resolve in Hkey1 as (p & Hres & Hp);
       rewrite (same_dirs_keys _ _ Hsame) in Hres;
       apply (resolve_same_dirs_iff fs fs1) in Hres; [|done];
       assert (node_at fs p = Some (File kc)) as Hp0;
       [pose proof (write_cert_written fs (Some name) (cert_to_pem cert)) as [_ Hw];
        rewrite Hfirst in Hw; cbn [fst] in Hw;
        destruct (Hw p) as [Heq|[(n & Hn & _)|(n & _ & Hcp)]];
        [congruence|inversion Hn|];
        destruct (key_cert_paths_apart p);
          [by eapply resolve_key_path|by eapply resolve_cert_path]|];
       assert (read_file fs (keys_dir fs) (key_file key_id) = Return kc)
         by (apply read_file_resolve; by exists p);
       congruence.
  destruct (fs_save_cert_returned _ _ _ _ _ _ _ _ Hrun Hkey) as [_ Hnamed].
  rewrite Htruthy in Hnamed. destruct Hnamed as [-> Hcert].
  split; [done|]. split.
  { by rewrite (find_cert_read _ _ _ Hcert), cert_from_pem_to_pem. }
  pose proof (save_cert_written fs key_id cert domains (Some name)) as Hw.
  rewrite Hrun, Htruthy in Hw. cbn [fst] in Hw.
  assert (entry fs' (keys_dir fs') (key_file (Some name)) = None) as Hnokey'.
  { rewrite (same_dirs_keys fs fs') by apply Hw.
    rewrite (entry_frame fs fs'); [done|apply Hw|].
    intros p Hres. eapply (written_plain_key _ _ _ _ (Some name)); [done..| | |done].
    - intros n (d & -> & Hd)%list_elem_of_fmap. cbn. split.
      + by eapply Forall_forall in Hdomains.
      + by intros ->.
    - intros n [->%list_elem_of_singleton|(d & -> & Hd)%list_elem_of_fmap]%elem_of_app;
        [done|]. by eapply Forall_forall in Hdomains. }
  unfold get_cert. rewrite (guarded_absent _ _ _ _ Hnokey'), (guarded_read _ _ _ _ _ Hcert).
  cbn. by destruct (cert_from_pem _).
Qed.

(** [save_cert] for plain names leaves the answer for any other plain
    domain as it was. *)
Lemma fs_save_cert_frame (fs : tree) (key_id : option string) (cert : Certificate)
    (domains : list string) (name : option string) (domain : string) :
  plain domain ->
  Forall plain domains ->
  (truthy name = true -> plain (fmt name)) ->
  domain ∉ domains ->
  name <> Some domain ->
  get_cert (save_cert fs key_id cert domains name).1 domain = get_cert fs domain.
Proof.
  intros Hplain Hdomains Hname Hnotin Hne.
  eapply written_get_cert; [apply save_cert_written|done|..].
  - intros n (d & -> & Hd)%list_elem_of_fmap. cbn. split.
    + by eapply Forall_forall in Hdomains.
    + by intros ->.
  - intros n [Hn|(d & -> & Hd)%list_elem_of_fmap]%elem_of_app.
    + destruct (truthy name) eqn:Htruthy; [|inversion Hn].
      apply list_elem_of_singleton in Hn as ->. split; [by apply Hname|].
      destruct name as [n|]; [|done]. cbn. by intros ->.
    + cbn. split; [by eapply Forall_forall in Hdomains|by intros ->].
Qed.

(** X7: [save_cert] changes the answer of [get_cert] for the domains of
    the call only: with plain names, a domain that is not in the call, and
    is not the name given, is answered as before. *)
Theorem fs_save_cert_other_domains (fs : tree) (key_id : option string) (cert : Certificate)
    (domains : list string) (name : option string) (domain : string) :
  plain domain ->
  Forall plain domains ->
  (truthy name = true -> plain (fmt name)) ->
  domain ∉ domains ->
  name <> Some domain ->
  get_cert (save_cert fs key_id cert domains name).1 domain = get_cert fs domain.
Proof. apply fs_save_cert_frame. Qed.
End FilesystemMore.

(** ** More on the relational backend *)
Section SqliteMore.
Import SqliteKeyStore.
Context {crypto : Crypto}.

Lemma filter_fresh_id {A} (get_id : A -> Z) (rows : list A) (seq id : Z) :
  next_rowid seq (get_id <$> rows) <= id ->
  filter (fun row => get_id row = id) rows = [].
Proof.
  intros Hid. apply elem_of_nil_inv. intros row [Heq Hin]%list_elem_of_filter.
  assert (get_id row < next_rowid seq (get_id <$> rows)); [|lia].
  apply next_rowid_fresh, list_elem_of_fmap. eauto.
Qed.

Lemma NoDup_snoc_fresh (ids : list Z) (seq : Z) :
  NoDup ids -> NoDup (ids ++ [next_rowid seq ids]).
Proof.
  intros Hnodup. apply NoDup_app. split; [done|]. split; [|apply NoDup_singleton].
  intros id Hin ->%list_elem_of_singleton. apply (next_rowid_fresh seq) in Hin. lia.
Qed.

Lemma bind_ext_elem {A B} (f g : A -> list B) (l : list A) :
  (forall x, x ∈ l -> f x = g x) -> l ≫= f = l ≫= g.
Proof.
  induction l as [|x l IH]; intros Hfg; [done|].
  rewrite !bind_cons, IH, Hfg; [done|apply elem_of_cons; by left|].
  intros y Hy. apply Hfg, elem_of_cons. by right.
Qed.

(** X4: the account key is generated once.  On a connection with no open
    transaction, when [_init_account_key] returns a key, running it again,
    with whatever key generator, returns the same key and inserts
    nothing. *)
Theorem sqlite_init_account_key_once {laws : CryptoLaws} (gen_key_rsa gen_key_rsa' : Z -> Key)
    (db : database) (account_key : Key) :
  (_init_account_key gen_key_rsa (connect db)).2 = Return account_key ->
  let conn := (_init_account_key gen_key_rsa (connect db)).1 in
  _init_account_key gen_key_rsa' conn = (conn, Return account_key).
Proof.
  cbn zeta. unfold _init_account_key at 1 3 4.
  destruct (head (filter _ (private_keys (durable (connect db))))) as [row|] eqn:Hrow.
  - destruct (Key_from_der (pk_content row)) as [k|] eqn:Hk; cbn; [|done].
    intros [= ->]. unfold _init_account_key. by rewrite Hrow, Hk.
  - cbn. intros [= <-]. unfold _init_account_key. cbn.
    apply head_None in Hrow. cbn in Hrow.
    rewrite filter_app, Hrow, app_nil_l, filter_cons_True by done.
    cbn. by rewrite Key_from_der_to_der.
Qed.

(** X8: the two writes keep the integrity of the database: the empty
    database has it, and [save_key] and [save_cert] hand out ids that no
    row has yet and leave every index row with a certificate row to
    name. *)
Theorem sqlite_integrity_kept (conn : connection) (key : Key) (key_name : option string)
    (key_id : Z) (cert : Certificate) (domains : list string) (name : option string) :
  integrity empty_db
  /\ (integrity (working conn) ->
      integrity (working (save_key conn key key_name).1)
      /\ (save_key conn key key_name).2 ∉ pk_id <$> private_keys (working conn))
  /\ (integrity (working conn) ->
      integrity (working (save_cert conn key_id cert domains name).1)
      /\ (save_cert conn key_id cert domains name).2 ∉ c_id <$> certificates (working conn)).
Proof.
  split; [|split].
  - split; cbn; [apply NoDup_nil_2..|]. intros s Hs. inversion Hs.
  - intros [Hk Hc Hi]. rewrite save_key_spec. cbn. split.
    + split; cbn; [|done|done]. rewrite fmap_app. by apply NoDup_snoc_fresh.
    + intros Hin%(next_rowid_fresh (private_keys_seq (working conn))). lia.
  - intros [Hk Hc Hi]. rewrite save_cert_spec. cbn. split.
    + split; cbn; [done| |].
      * rewrite fmap_app. by apply NoDup_snoc_fresh.
      * intros s [Hs|Hs]%elem_of_app; rewrite fmap_app; apply elem_of_app.
        -- left. by apply Hi.
        -- right. apply list_elem_of_fmap in Hs as (d & -> & _). cbn.
           apply elem_of_cons. by left.
    + intros Hin%(next_rowid_fresh (certificates_seq (working conn))). lia.
Qed.

(** X9: on a database that has its integrity, [save_cert] changes the
    answer of [get_cert] for the domains of the call only. *)
Theorem sqlite_save_cert_other_domains (conn : connection) (key_id : Z) (cert : Certificate)
    (domains : list string) (name : option string) (domain : string) :
  integrity (working conn) ->
  domain ∉ domains ->
  get_cert (save_cert conn key_id cert domains name).1 domain = get_cert conn domain.
Proof.
  intros [_ _ Hi] Hnotin.
  assert (select_cert (working (save_cert conn key_id cert domains name).1) domain
          = select_cert (working conn) domain) as Hsel; [|unfold get_cert; by rewrite Hsel].
  rewrite save_cert_spec. cbn [fst]. unfold connect, working at 1. cbn [txn durable default].
  set (cert_id := next_rowid _ _).
  unfold select_cert. cbn [ssl_domains certificates private_keys].
  rewrite filter_app.
  assert (filter (fun s => s_domain s = domain) ((fun d => Ssl_domain d cert_id) <$> domains)
          = []) as ->.
  { apply elem_of_nil_inv. intros s [Hs Hin]%list_elem_of_filter.
    apply list_elem_of_fmap in Hin as (d & -> & Hd). cbn in Hs. by subst. }
  rewrite app_nil_r. apply bind_ext_elem. intros s [_ Hs]%list_elem_of_filter.
  rewrite filter_app.
  assert (filter (fun c => c_id c = s_certificate_id s)
                 [Certificate_row cert_id name key_id (cert_to_der cert)] = []) as ->;
    [|by rewrite app_nil_r].
  rewrite filter_cons_False; [done|]. cbn. intros Heq.
  specialize (Hi s Hs). rewrite <- Heq in Hi.
  apply (next_rowid_fresh (certificates_seq (working conn))) in Hi. unfold cert_id in Hi. lia.
Qed.

(** X10: the two writes compose as [obtainCert] uses them: [save_key], then
    [save_cert] under the identifier it returned, then [get_cert] on a
    domain of the call that had no index row, gives the identifier
    [save_cert] returned with that key and that certificate. *)
Theorem sqlite_save_key_save_cert_get_cert {laws : CryptoLaws} (conn : connection)
    (key : Key) (key_name : option string) (cert : Certificate) (domains : list string)
    (name : option string) (domain : string) :
  domain ∈ domains ->
  (forall s, s ∈ ssl_domains (working conn) -> s_domain s ≠ domain) ->
  let saved_key := save_key conn key key_name in
  let saved_cert := save_cert saved_key.1 saved_key.2 cert domains name in
  get_cert saved_cert.1 domain = Return (Some (saved_cert.2, key, cert)).
Proof.
  intros Hin Hnew. cbn zeta.
  set (key_id := (save_key conn key key_name).2).
  assert (first_rows
            (working (save_cert (save_key conn key key_name).1 key_id cert domains name).1)
            domain
            (Ssl_domain domain
               (save_cert (save_key conn key key_name).1 key_id cert domains name).2)
            (Certificate_row
               (save_cert (save_key conn key key_name).1 key_id cert domains name).2
               name key_id (cert_to_der cert))
            (Private_key key_id key_name (key_to_der key))) as Hrows.
  { apply first_rows_save_cert; [by rewrite save_key_spec|done|].
    unfold key_id. rewrite save_key_spec. cbn. rewrite filter_app.
    rewrite (filter_fresh_id pk_id _ (private_keys_seq (working conn))) by done.
    rewrite app_nil_l. by rewrite filter_cons_True. }
  destruct (first_rows_select _ _ _ _ _ Hrows) as [rest Hsel].
  unfold get_cert. rewrite Hsel. cbn.
  by rewrite Key_from_der_to_der, cert_from_der_to_der.
Qed.

(** X11: [save_cert] does not check its key identifier.  Under an
    identifier that no row of [private_keys] has it returns as usual, and
    the domains of the call (without an index row before) are answered
    with the absent indicator: the certificate is stored and out of
    reach. *)
Theorem sqlite_save_cert_unknown_key (conn : connection) (key_id : Z) (cert : Certificate)
    (domains : list string) (name : option string) (domain : string) :
  key_id ∉ pk_id <$> private_keys (working conn) ->
  (forall s, s ∈ ssl_domains (working conn) -> s_domain s ≠ domain) ->
  let r := save_cert conn key_id cert domains name in
  Certificate_row r.2 name key_id (cert_to_der cert) ∈ certificates (durable r.1)
  /\ get_cert r.1 domain = Return None.
Proof.
  intros Hkey Hnew. cbn zeta. rewrite save_cert_spec. cbn. split.
  - apply elem_of_app. right. apply elem_of_cons. by left.
  - unfold get_cert, select_cert. cbn.
    set (cert_id := next_rowid _ _).
    assert (forall rows : list ssl_domains_row,
              (forall s, s ∈ rows -> s_certificate_id s = cert_id) ->
              rows ≫= (fun s =>
                filter (fun c => c_id c = s_certificate_id s)
                  (certificates (working conn)
                   ++ [Certificate_row cert_id name key_id (cert_to_der cert)]) ≫= fun c =>
                filter (fun p => pk_id p = c_priv_id c) (private_keys (working conn)) ≫= fun p =>
                [(c_id c, pk_content p, c_content c)]) = []) as Hempty.
    { intros rows Hrows. induction rows as [|s rows IH]; [done|].
      rewrite bind_cons, IH by (intros s' Hs'; apply Hrows, elem_of_cons; by right).
      rewrite app_nil_r, (Hrows s) by (apply elem_of_cons; by left).
      rewrite filter_app.
      rewrite (filter_fresh_id c_id _ (certificates_seq (working conn))) by done.
      rewrite app_nil_l, filter_cons_True by done. rewrite filter_nil, bind_singleton. cbn.
      assert (filter (fun p => pk_id p = key_id) (private_keys (working conn)) = []) as ->;
        [|done].
      apply elem_of_nil_inv. intros p [Hp Hin]%list_elem_of_filter.
      apply Hkey, list_elem_of_fmap. eauto. }
    rewrite Hempty; [done|].
    intros s [Hdom [Hs|Hs]%elem_of_app]%list_elem_of_filter.
    + exfalso. by apply (Hnew s Hs).
    + by apply list_elem_of_fmap in Hs as (d & -> & _).
Qed.
End SqliteMore.

(** ** More on the orchestrator *)
Section OrchestratorMore.
Context {crypto : Crypto} {acme : Acme} {S I : Type} {store : KeyStore S I} `{EqDecision I}.

Lemma key_store_emit (e : event) (w : world S) : key_store (emit e w) = key_store w.
Proof. reflexivity. Qed.

Lemma key_store_publish_all (challenges : list Challenge) (w : world S) :
  key_store (publish_all challenges w) = key_store w.
Proof.
  revert w. unfold publish_all.
  induction challenges as [|c challenges IH]; intros w; [done|].
  cbn [foldl]. by rewrite IH.
Qed.

(** The two ways [obtain_cert] returns: with a response, after [save_key]
    then [save_cert] on the key store as it found it, or with the failure
    and the key store as it found it. *)
Lemma obtain_cert_returns (order : Order) (error : option Response) (private_key : Key)
    (missing0 : string) (missing : list string) (ex : dict string (I * Key * Certificate))
    (depth : nat) (count : Z) (w : world S) :
  let r := obtain_cert order error private_key missing0 missing ex depth count w in
  (forall resp e, r.1 = Return (Some resp, e) ->
     e = None
     /\ exists certificate s1 key_id cert_id,
         save_key (key_store w) private_key (Some missing0) = (s1, Return key_id)
         /\ save_cert s1 key_id certificate missing None = (key_store r.2, Return cert_id)
         /\ resp = createExistingResponse ex
                     [IssuedCert_init (KeyBytes (key_to_pem private_key))
                        (CertObject certificate) missing])
  /\ (forall e, r.1 = Return (None, e) -> e = error /\ key_store r.2 = key_store w).
Proof.
  cbn zeta. revert count w. induction depth as [|depth IH]; intros count w; [done|].
  cbn [obtain_cert].
  set (w1 := emit (Sleep 3) w).
  set (status := order_status (log w1) order).
  set (w2 := emit (Refresh status) w1).
  destruct (decide (status = "valid"%string)) as [_|_].
  - set (certificate := get_certificate (log w2) order).
    change (key_store (emit GetCertificate w2)) with (key_store w).
    destruct (save_key (key_store w) private_key (Some missing0)) as [s1 [key_id|e|]] eqn:Hk;
      cbn [set_key_store key_store]; [|done..].
    destruct (save_cert s1 key_id certificate missing None) as [s2 [cert_id|e|]] eqn:Hc;
      cbn [set_key_store key_store fst snd]; [|done..].
    split; [|done]. intros resp e [= <- <-]. split; [done|].
    by exists certificate, s1, key_id, cert_id.
  - destruct (decide (status = "processing"%string)) as [_|_].
    + destruct (decide (count = 0)) as [_|_].
      * split; [done|]. by intros e [= <-].
      * destruct (IH 5 w2) as [IHsome IHnone]. split.
        -- intros resp e Hr. by apply IHsome.
        -- intros e Hr. by apply IHnone.
    + split; [done|]. by intros e [= <-].
Qed.

(** X12: when every lookup returns, the order is created for exactly the
    requested domains that did not resolve, in the order of the request:
    with none of them nothing happens, and otherwise the creation of that
    order is the first thing that does. *)
Theorem obtainCert_orders_unresolved (fuel depth : nat) (host : host_arg) (w : world S) :
  (forall h, h ∈ host_list host -> exists o, get_cert (key_store w) h = Return o) ->
  let missing := unresolved (key_store w) (host_list host) in
  (missing = [] -> (obtainCert fuel depth host w).2 = w)
  /\ (missing <> [] ->
      exists rest,
        log (obtainCert fuel depth host w).2 = log w ++ CreateAuthorizedOrder missing :: rest).
Proof.
  intros Hall. cbn zeta.
  destruct (lookups_total _ _ Hall) as [found Hlook].
  destruct (obtainCert_paths fuel depth host w found Hlook) as [Hnone Hsome].
  cbn zeta in Hsome. split; [intros Hnil; by rewrite Hnone|].
  intros Hne.
  destruct (unresolved (key_store w) (host_list host)) as [|missing0 rest] eqn:Hmissing;
    [done|].
  specialize (Hsome missing0 rest eq_refl).
  destruct (create_authorized_order (log w) (missing0 :: rest)) as [[order|] error].
  - set (wo := emit (CreateAuthorizedOrder (missing0 :: rest)) w) in *.
    set (challenges := remaining_challenges (log wo) order) in *.
    set (w0 := publish_all challenges (emit RemainingChallenges wo)) in *.
    assert (log w0 = log w ++ CreateAuthorizedOrder (missing0 :: rest)
                           :: RemainingChallenges :: publications challenges) as Hw0.
    { unfold w0, wo. rewrite publish_all_log, !log_emit. by rewrite <- !app_assoc. }
    destruct (poll_loop_run fuel (now w0 + 40) challenges 1 w0) as (polls & Hlog & _).
    destruct (poll_loop fuel (now w0 + 40) challenges 1 w0) as [[pr|e|] w1];
      cbn [fst snd] in Hlog; rewrite Hsome.
    + destruct (obtain_cert_log order error (gen_key_secp256r1 (log w)) missing0
                  (missing0 :: rest) (existing_of found) depth 5 (emit Finalize w1))
        as (after & -> & _).
      rewrite log_emit, Hlog, Hw0. eexists. by rewrite <- !app_assoc.
    + cbn [snd]. rewrite Hlog, Hw0. eexists. by rewrite <- !app_assoc.
    + cbn [snd]. rewrite Hlog, Hw0. eexists. by rewrite <- !app_assoc.
  - rewrite Hsome. by exists [].
Qed.

(** X13: when the protocol client hands out no order, [obtainCert] does
    not get to raise the [ValueError] it is about to build: it raises
    while it puts the message together, [AttributeError] when there is no
    error response, what the [json()] of the response raises when that
    raises, and otherwise [TypeError], for the second positional argument
    of [json.dumps].  The key store, the clock apart from the time the
    call took, and the challenge store are as before, and the request for
    the order is the only event. *)
Theorem obtainCert_order_rejected (fuel depth : nat) (host : host_arg) (w : world S)
    (error : option Response) :
  (forall h, h ∈ host_list host -> exists o, get_cert (key_store w) h = Return o) ->
  let missing := unresolved (key_store w) (host_list host) in
  missing <> [] ->
  create_authorized_order (log w) missing = (None, error) ->
  obtainCert fuel depth host w
  = (Raise (order_rejected error), emit (CreateAuthorizedOrder missing) w)
  /\ (error = None -> order_rejected error = AttributeError)
  /\ (forall err, error = Some err ->
        order_rejected error = default TypeError (json_raises err))
  /\ (order_rejected error = ValueError ->
      exists err, error = Some err /\ json_raises err = Some ValueError).
Proof.
  intros Hall missing Hne Hcreate.
  destruct (lookups_total _ _ Hall) as [found Hlook].
  destruct (obtainCert_paths fuel depth host w found Hlook) as [_ Hsome].
  cbn zeta in Hsome. fold missing in Hsome.
  destruct missing as [|missing0 rest] eqn:Hmissing; [done|].
  specialize (Hsome missing0 rest eq_refl). rewrite Hcreate in Hsome.
  split; [done|]. split; [by intros ->|]. split.
  - intros err ->. cbn. by destruct (json_raises err).
  - destruct error as [err|]; [|done]. cbn.
    destruct (json_raises err) as [e|] eqn:Hjson; [|done].
    intros ->. by exists err.
Qed.

(** What a successful [obtainCert] has done. *)
Lemma obtainCert_succeeds (fuel depth : nat) (host : host_arg) (w : world S)
    (resp : CertificateResponse) (e : option Response) :
  (obtainCert fuel depth host w).1 = Return (Some resp, e) ->
  let missing := unresolved (key_store w) (host_list host) in
  let private_key := gen_key_secp256r1 (log w) in
  e = None
  /\ (exists found,
        lookups (key_store w) (host_list host) = Return found
        /\ existing resp = existing (createExistingResponse (existing_of found) []))
  /\ ((missing = [] /\ issued resp = [] /\ (obtainCert fuel depth host w).2 = w)
      \/ exists missing0 certificate s1 key_id cert_id,
           head missing = Some missing0
           /\ save_key (key_store w) private_key (Some missing0) = (s1, Return key_id)
           /\ save_cert s1 key_id certificate missing None
              = (key_store (obtainCert fuel depth host w).2, Return cert_id)
           /\ issued resp
              = [Build_IssuedCert (key_to_pem private_key) (cert_to_pem certificate) missing]).
Proof.
  intros Hrun. cbn zeta.
  destruct (lookups (key_store w) (host_list host)) as [found| |] eqn:Hlook;
    [|unfold obtainCert in Hrun; by rewrite Hlook in Hrun..].
  destruct (obtainCert_paths fuel depth host w found Hlook) as [Hnone Hsome].
  cbn zeta in Hsome.
  destruct (unresolved (key_store w) (host_list host)) as [|missing0 rest] eqn:Hmissing.
  - rewrite Hnone in Hrun |- * by done. injection Hrun as <- <-.
    split; [done|]. split; [by exists found|]. by left.
  - specialize (Hsome missing0 rest eq_refl).
    destruct (create_authorized_order (log w) (missing0 :: rest)) as [[order|] error];
      [|by rewrite Hsome in Hrun].
    set (wo := emit (CreateAuthorizedOrder (missing0 :: rest)) w) in *.
    set (challenges := remaining_challenges (log wo) order) in *.
    set (w0 := publish_all challenges (emit RemainingChallenges wo)) in *.
    destruct (poll_loop_run fuel (now w0 + 40) challenges 1 w0) as (polls & _ & Hks & _).
    destruct (poll_loop fuel (now w0 + 40) challenges 1 w0) as [[pr|e'|] w1];
      [|by rewrite Hsome in Hrun..].
    cbn [fst snd] in Hks. rewrite Hsome in Hrun |- *.
    destruct (obtain_cert_returns order error (gen_key_secp256r1 (log w)) missing0
                (missing0 :: rest) (existing_of found) depth 5 (emit Finalize w1))
      as [Hret _].
    cbn zeta in Hret.
    destruct (Hret resp e Hrun) as (-> & certificate & s1 & key_id & cert_id & Hk & Hc & ->).
    rewrite key_store_emit, Hks in Hk. unfold w0, wo in Hk.
    rewrite key_store_publish_all, !key_store_emit in Hk.
    split; [done|]. split; [by exists found|]. right.
    by exists missing0, certificate, s1, key_id, cert_id.
Qed.

(** X14: what a successful [obtainCert] has done.  Either no requested
    domain was unresolved, and nothing was issued or written; or the key
    store is what [save_key] under the first unresolved domain followed by
    [save_cert] for all the unresolved domains left of the key store as
    found, and the response reports one issued bundle, with the PEM of the
    same fresh key and of the same certificate, covering exactly the
    unresolved domains.  The existing bundles are in both cases those of
    the domains that resolved. *)
Theorem obtainCert_success (fuel depth : nat) (host : host_arg) (w : world S)
    (resp : CertificateResponse) (e : option Response) :
  (obtainCert fuel depth host w).1 = Return (Some resp, e) ->
  let missing := unresolved (key_store w) (host_list host) in
  let private_key := gen_key_secp256r1 (log w) in
  e = None
  /\ (exists found,
        lookups (key_store w) (host_list host) = Return found
        /\ existing resp = existing (createExistingResponse (existing_of found) []))
  /\ ((missing = [] /\ issued resp = [] /\ (obtainCert fuel depth host w).2 = w)
      \/ exists missing0 certificate s1 key_id cert_id,
           head missing = Some missing0
           /\ save_key (key_store w) private_key (Some missing0) = (s1, Return key_id)
           /\ save_cert s1 key_id certificate missing None
              = (key_store (obtainCert fuel depth host w).2, Return cert_id)
           /\ issued resp
              = [Build_IssuedCert (key_to_pem private_key) (cert_to_pem certificate) missing]).
Proof. apply obtainCert_succeeds. Qed.

(** X15: a failed issuance persists nothing.  When [obtainCert] returns
    the failure pair, it was handed down from the creation of the order,
    and the key store is as it was found. *)
Theorem obtainCert_failure_persists_nothing (fuel depth : nat) (host : host_arg)
    (w : world S) (e : option Response) :
  (obtainCert fuel depth host w).1 = Return (None, e) ->
  key_store (obtainCert fuel depth host w).2 = key_store w
  /\ exists order,
      create_authorized_order (log w) (unresolved (key_store w) (host_list host))
      = (Some order, e).
Proof.
  intros Hrun.
  destruct (lookups (key_store w) (host_list host)) as [found| |] eqn:Hlook;
    [|unfold obtainCert in Hrun; by rewrite Hlook in Hrun..].
  destruct (obtainCert_paths fuel depth host w found Hlook) as [Hnone Hsome].
  cbn zeta in Hsome.
  destruct (unresolved (key_store w) (host_list host)) as [|missing0 rest] eqn:Hmissing;
    [by rewrite Hnone in Hrun|].
  specialize (Hsome missing0 rest eq_refl).
  destruct (create_authorized_order (log w) (missing0 :: rest)) as [[order|] error];
    [|by rewrite Hsome in Hrun].
  set (wo := emit (CreateAuthorizedOrder (missing0 :: rest)) w) in *.
  set (challenges := remaining_challenges (log wo) order) in *.
  set (w0 := publish_all challenges (emit RemainingChallenges wo)) in *.
  destruct (poll_loop_run fuel (now w0 + 40) challenges 1 w0) as (polls & _ & Hks & _).
  destruct (poll_loop fuel (now w0 + 40) challenges 1 w0) as [[pr|e'|] w1];
    [|by rewrite Hsome in Hrun..].
  cbn [fst snd] in Hks. rewrite Hsome in Hrun |- *.
  destruct (obtain_cert_returns order error (gen_key_secp256r1 (log w)) missing0
              (missing0 :: rest) (existing_of found) depth 5 (emit Finalize w1))
    as [_ Hret].
  cbn zeta in Hret. destruct (Hret e Hrun) as [-> Hstore].
  split; [|by exists order].
  rewrite Hstore, key_store_emit, Hks. unfold w0, wo.
  by rewrite key_store_publish_all, !key_store_emit.
Qed.

(** X18: a lookup that raises stops the call before anything else
    happens: when [get_cert] raises for a requested domain and returned
    for the domains before it, [obtainCert] raises the same exception and
    leaves the world as it found it. *)
Theorem obtainCert_lookup_raises (fuel depth : nat) (before after : list string) (h : string)
    (w : world S) (e : exn) :
  (forall h', h' ∈ before -> exists o, get_cert (key_store w) h' = Return o) ->
  get_cert (key_store w) h = Raise e ->
  obtainCert fuel depth (HostList (before ++ h :: after)) w = (Raise e, w).
Proof.
  intros Hbefore Hraise.
  assert (lookups (key_store w) (before ++ h :: after) = Raise e) as Hlook.
  { induction before as [|h0 before IH]; cbn.
    - by rewrite Hraise.
    - destruct (Hbefore h0) as [o ->]; [apply elem_of_cons; by left|]. cbn.
      rewrite IH; [done|]. intros h' Hin. apply Hbefore, elem_of_cons. by right. }
  unfold obtainCert. cbn [host_list]. by rewrite Hlook.
Qed.
End OrchestratorMore.

(** ** More on response assembly and on the challenge loop *)
Section ResponseMore.
Context {crypto : Crypto} {I : Type} `{EqDecision I}.

Lemma dict_set_fresh {K V} `{EqDecision K} (d : dict K V) (k : K) (v : V) :
  dict_get k d = None -> dict_set k v d = d ++ [(k, v)].
Proof.
  induction d as [|[k' v'] d IH]; cbn; [done|].
  destruct (decide (k = k')); [done|]. intros Hget. by rewrite IH.
Qed.

Lemma certMap_distinct (ex : dict string (I * Key * Certificate))
    (acc : dict I (list string * string * string)) :
  NoDup (acc.*1 ++ ids_of ex) ->
  foldl certMap_add acc ex
  = acc ++ ((fun item => (item.2.1.1, ([item.1], key_to_pem item.2.1.2, cert_to_pem item.2.2)))
              <$> ex).
Proof.
  revert acc. induction ex as [|[h [[id key] cert]] ex IH]; intros acc Hnodup.
  - cbn. by rewrite app_nil_r.
  - cbn [foldl certMap_add]. unfold ids_of in Hnodup. rewrite fmap_cons in Hnodup. cbn in Hnodup.
    assert (dict_get id acc = None) as Hfresh.
    { apply dict_get_None_keys. intros Hin.
      apply NoDup_app in Hnodup as (_ & Hdisj & _). apply (Hdisj id Hin).
      apply elem_of_cons. by left. }
    rewrite Hfresh, dict_set_fresh by done. rewrite IH.
    + rewrite fmap_cons. cbn. by rewrite <- app_assoc.
    + rewrite fmap_app. cbn. rewrite <- app_assoc. exact Hnodup.
Qed.

(** X16: when the entries of [existing] carry identifiers that are all
    different, as the identifiers of the filesystem backend are, every
    entry is reported as a bundle of its own, listing its one host, in
    the order of the entries; the issued bundles are passed through. *)
Theorem createExistingResponse_distinct_ids (ex : dict string (I * Key * Certificate))
    (issued_certs : list IssuedCert) :
  NoDup (ids_of ex) ->
  existing (createExistingResponse ex issued_certs)
  = (fun item => Build_IssuedCert (key_to_pem item.2.1.2) (cert_to_pem item.2.2) [item.1])
      <$> ex
  /\ issued (createExistingResponse ex issued_certs) = issued_certs.
Proof.
  intros Hnodup. split; [|done]. unfold createExistingResponse. cbn [existing].
  rewrite certMap_distinct by done. rewrite app_nil_l, <- list_fmap_compose.
  apply list_fmap_ext. by intros i [h [[id key] cert]] _.
Qed.
End ResponseMore.

Section LoopMore.
Context {crypto : Crypto} {acme : Acme} {S : Type}.

Lemma settled_app (l k : list event) :
  settled (l ++ k) <->
  settled l /\ settled k
  /\ forall c, QueryProgress c true ∈ l -> forall b, QueryProgress c b ∉ k.
Proof.
  induction l as [|e l IH]; cbn [app settled].
  - split; [intros Hk; repeat split; [done|]; intros c Hin; inversion Hin|by intros (_ & ? & _)].
  - rewrite IH. split.
    + intros (He & Hl & Hk & Hcross). split; [split; [|done]|split; [done|]].
      * destruct e as [| | | |c [|]| | | |]; try done.
        intros b Hin. apply (He b), elem_of_app. by left.
      * intros c [<-|Hin]%elem_of_cons b Hb; [|by apply (Hcross c Hin b)].
        apply (He b), elem_of_app. by right.
    + intros ((He & Hl) & Hk & Hcross). split; [|split; [done|split; [done|]]].
      * destruct e as [| | | |c [|]| | | |]; try done.
        intros b [Hin|Hin]%elem_of_app; [by apply (He b)|].
        apply (Hcross c (list_elem_of_here _ _) b Hin).
      * intros c Hin. apply Hcross, elem_of_cons. by right.
Qed.

(** One round asks each challenge once, and keeps for the next round only
    challenges that did not answer [True]. *)
Lemma query_round_settled (source : list Challenge) (w : world S) :
  NoDup source ->
  exists new,
    log (query_round source w).2 = log w ++ new
    /\ (forall c b, QueryProgress c b ∈ new -> c ∈ source)
    /\ Forall (fun e => is_query e = true) new
    /\ NoDup (query_round source w).1
    /\ (forall c, c ∈ (query_round source w).1 -> c ∈ source)
    /\ settled new
    /\ (forall c, QueryProgress c true ∈ new -> c ∉ (query_round source w).1).
Proof.
  revert w. induction source as [|c source IH]; intros w Hnodup.
  - exists []. cbn. rewrite app_nil_r.
    split; [done|]. split; [intros c b Hin; inversion Hin|]. split; [done|].
    split; [apply NoDup_nil_2|]. split; [done|]. split; [done|].
    intros c Hin. inversion Hin.
  - apply NoDup_cons in Hnodup as [Hc Hnodup]. cbn [query_round].
    set (status := query_progress (log w) c).
    destruct (IH (emit (QueryProgress c status) w) Hnodup)
      as (new & Hlog & Hsrc & Hq & Hnd & Hsink & Hset & Hconf).
    destruct (query_round source (emit (QueryProgress c status) w)) as [sink w'].
    cbn [fst snd] in *.
    exists (QueryProgress c status :: new).
    split; [by rewrite Hlog, log_emit, <- app_assoc|].
    split.
    { intros c' b [[= -> _]|Hin]%elem_of_cons; apply elem_of_cons; [by left|].
      right. by eapply Hsrc. }
    split; [by constructor|].
    split.
    { destruct status; [done|]. apply NoDup_cons. split; [|done].
      intros Hin. by apply Hc, Hsink. }
    split.
    { intros c' Hin. apply elem_of_cons. destruct status; [right; by apply Hsink|].
      apply elem_of_cons in Hin as [->|Hin]; [by left|right; by apply Hsink]. }
    split.
    { cbn [settled]. split; [|done]. destruct status; [|done].
      intros b Hin. by apply Hc, (Hsrc c b). }
    intros c' [[= -> Hst]|Hin]%elem_of_cons.
    + rewrite <- Hst. intros Hin. by apply Hc, Hsink.
    + destruct status; [by apply Hconf|].
      intros [->|Hin']%elem_of_cons; [by apply Hc, (Hsrc c true)|by apply (Hconf c')].
Qed.

(** X17: with challenges that are all different, the loop never asks a
    challenge again once it has answered [True]. *)
Theorem poll_loop_never_asks_confirmed (fuel : nat) (end_ : Z) (source : list Challenge)
    (counter : Z) (w : world S) :
  NoDup source ->
  exists new,
    log (poll_loop fuel end_ source counter w).2 = log w ++ new
    /\ (forall c b, QueryProgress c b ∈ new -> c ∈ source)
    /\ settled new.
Proof.
  revert source counter w.
  induction fuel as [|fuel IH]; intros [|c source] counter w Hnodup.
  1,3: rewrite poll_loop_nil; exists []; cbn; rewrite app_nil_r;
       split; [done|]; split; [intros c b Hin; inversion Hin|done].
  - exists []. cbn. rewrite app_nil_r.
    split; [by destruct (_ && _)|]. split; [intros c0 b Hin; inversion Hin|done].
  - rewrite poll_loop_cons.
    destruct (bool_decide (now w > end_) && bool_decide (counter > 4)).
    { exists []. cbn. rewrite app_nil_r.
      split; [done|]. split; [intros c0 b Hin; inversion Hin|done]. }
    cbn zeta.
    destruct (query_round_settled (c :: source) w Hnodup)
      as (new & Hlog & Hsrc & Hq & Hnd & Hsink & Hset & Hconf).
    destruct (query_round (c :: source) w) as [[|c' sink] w1]; cbn [fst snd] in *.
    + rewrite poll_loop_nil. cbn [snd]. by exists new.
    + destruct (IH (c' :: sink) (counter + 1) (emit (Sleep 3) w1) Hnd)
        as (new' & Hlog' & Hsrc' & Hset').
      exists (new ++ Sleep 3 :: new').
      split; [by rewrite Hlog', log_emit, Hlog, <- !app_assoc|].
      split.
      { intros c0 b [Hin|[[=]|Hin]%elem_of_cons]%elem_of_app; [by eapply Hsrc|].
        apply Hsink. by eapply Hsrc'. }
      apply settled_app. split; [done|]. split; [done|].
      intros c0 Hin b [[=]|Hb]%elem_of_cons.
      apply (Hconf c0 Hin). by eapply Hsrc'.
Qed.
End LoopMore.

(** ** Issuance on the filesystem backend *)
Section FilesystemIssuance.
Import FilesystemKeyStore.
Context {crypto : Crypto} {laws : CryptoLaws} {acme : Acme}.

(** X19: after a successful [obtainCert] for plain domains on the
    filesystem backend every requested domain resolves: the domains that
    resolved before are answered as before, and the others with the fresh
    key and the certificate of the issued bundle, so that the same request
    made again finds nothing missing. *)
Theorem fs_obtainCert_success_resolves (fuel depth : nat) (host : host_arg) (w : world tree)
    (resp : CertificateResponse) (e : option Response) :
  Forall plain (host_list host) ->
  (obtainCert (store := keystore) fuel depth host w).1 = Return (Some resp, e) ->
  let s' := key_store (obtainCert (store := keystore) fuel depth host w).2 in
  let missing := unresolved (store := keystore) (key_store w) (host_list host) in
  (forall h, h ∈ host_list host -> h ∉ missing -> get_cert s' h = get_cert (key_store w) h)
  /\ (forall h b, h ∈ missing -> b ∈ issued resp ->
        exists cert,
          certificate b = cert_to_pem cert
          /\ get_cert s' h = Return (Some (Some h, gen_key_secp256r1 (log w), cert)))
  /\ unresolved (store := keystore) s' (host_list host) = [].
Proof.
  intros Hplain Hrun. cbn zeta.
  destruct (obtainCert_succeeds (store := keystore) fuel depth host w resp e Hrun)
    as (_ & (found & Hlook & _) & Hcases).
  cbn zeta in Hcases.
  assert (forall h, h ∈ host_list host ->
            h ∉ unresolved (store := keystore) (key_store w) (host_list host) ->
            exists r, get_cert (key_store w) h = Return (Some r)) as Hresolved.
  { intros h Hin Hnotin. destruct (lookups_spec (store := keystore) _ _ _ Hlook) as [Hkeys Hall].
    rewrite <- Hkeys in Hin. apply list_elem_of_fmap in Hin as ([h' o] & -> & Hin').
    pose proof (Hall _ _ Hin') as Ho. cbn in Ho, Hnotin |- *.
    destruct o as [r|]; [by exists r|]. exfalso. apply Hnotin.
    apply list_elem_of_filter. split.
    - change (is_absent (get_cert (key_store w) h') = true). by rewrite Ho.
    - rewrite <- Hkeys. apply list_elem_of_fmap. by exists (h', None). }
  assert (forall s : tree,
            (forall h, h ∈ host_list host -> exists r, get_cert s h = Return (Some r)) ->
            unresolved (store := keystore) s (host_list host) = []) as Hall_resolved.
  { intros s Hs. apply elem_of_nil_inv. intros h [Habs Hin]%list_elem_of_filter.
    destruct (Hs h Hin) as [r Hr].
    change (is_absent (get_cert s h) = true) in Habs. by rewrite Hr in Habs. }
  destruct Hcases as [(Hnil & Hiss & Hw) | (missing0 & cert & s1 & key_id & cert_id
                                            & Hhead & Hk & Hc & Hiss)].
  - rewrite Hw. split; [done|]. split; [|done].
    rewrite Hnil. intros h b Hin. inversion Hin.
  - set (missing := unresolved (store := keystore) (key_store w) (host_list host)) in *.
    set (private_key := gen_key_secp256r1 (log w)) in *.
    set (s' := key_store (obtainCert (store := keystore) fuel depth host w).2) in *.
    change (save_key (key_store w) private_key (Some missing0) = (s1, Return key_id)) in Hk.
    change (save_cert s1 key_id cert missing None = (s', Return cert_id)) in Hc.
    assert (missing0 ∈ missing) as Hm0 by by apply head_Some_elem_of.
    assert (forall h, h ∈ missing -> plain h) as Hmplain.
    { intros h [_ Hin]%list_elem_of_filter. by eapply Forall_forall in Hplain. }
    pose proof (save_key_written (key_store w) private_key (Some missing0)) as Hwk.
    rewrite Hk in Hwk. cbn [fst] in Hwk.
    apply save_key_returned in Hk as [-> Hread].
    assert (forall h, h ∈ host_list host -> h ∉ missing ->
              get_cert s' h = get_cert (key_store w) h) as Hold.
    { intros h Hin Hnotin.
      assert (plain h) as Hh by by eapply Forall_forall in Hplain.
      replace s' with (save_cert s1 (Some missing0) cert missing None).1 by by rewrite Hc.
      rewrite fs_save_cert_frame; [|done|by apply Forall_forall|done..].
      eapply written_get_cert; [exact Hwk|done|..].
      - intros n ->%list_elem_of_singleton. cbn. split; [by apply Hmplain|by intros ->].
      - intros n Hn. inversion Hn. }
    assert (forall h, h ∈ missing ->
              get_cert s' h = Return (Some (Some h, private_key, cert))) as Hnew.
    { intros h Hin. eapply fs_save_cert_get_cert;
        [done..|apply Key_from_pem_to_pem|apply cert_from_pem_to_pem|done]. }
    split; [done|]. split.
    + intros h b Hin Hb. rewrite Hiss in Hb. apply list_elem_of_singleton in Hb as ->.
      exists cert. split; [done|]. by apply Hnew.
    + apply Hall_resolved. intros h Hin. destruct (decide (h ∈ missing)) as [Hm|Hm].
      * rewrite Hnew by done. by eexists.
      * rewrite Hold by done. by apply Hresolved.
Qed.
End FilesystemIssuance.

(** ** The properties at concrete inputs *)
Section Concrete.
Import FilesystemKeyStore.
Local Existing Instance Toy.crypto.

Lemma obtain_cert_processing_never_returns_witness :
  exists new w',
    obtain_cert (acme := Toy.acme [] Toy.never_confirms Toy.always_processing)
      tt None "fresh"%string "a.com"%string ["a.com"%string] [] 7 5 Toy.world0
      = (Raise RecursionError, w')
    /\ log w' = log Toy.world0 ++ new
    /\ length (filter (fun e => is_refresh e = true) new) = 7%nat.
Proof.
  apply (obtain_cert_processing_never_returns
           (acme := Toy.acme [] Toy.never_confirms Toy.always_processing)).
  intros events o. reflexivity.
Defined.

Lemma poll_loop_terminates_witness :
  (exists pr w',
     poll_loop (acme := Toy.acme [Toy.ch1; Toy.ch2] Toy.never_confirms Toy.always_processing)
       14 (now Toy.world0 + 40) [Toy.ch1; Toy.ch2] 1 Toy.world0 = (Return pr, w')
     /\ exit pr = Broke
     /\ pending pr = [Toy.ch1; Toy.ch2]
     /\ now Toy.world0 + 40 < now w'
     /\ 4 < rounds pr)
  /\ (exists pr w',
        poll_loop
          (acme := Toy.acme [Toy.ch1; Toy.ch2] Toy.confirms_in_third_round
                     Toy.always_processing)
          14 (now Toy.world0 + 40) [Toy.ch1; Toy.ch2] 1 Toy.world0 = (Return pr, w')
        /\ exit pr = Exhausted
        /\ pending pr = []
        /\ rounds pr <= 4).
Proof.
  split.
  - destruct (poll_loop_terminates
                (acme := Toy.acme [Toy.ch1; Toy.ch2] Toy.never_confirms Toy.always_processing)
                14 [Toy.ch1; Toy.ch2] Toy.world0)
      as (pr & w' & new & Hrun & _ & Hbroke & _ & Hnever & _); [lia|].
    destruct Hnever as [Hexit Hpend]; [intros; reflexivity|discriminate|].
    exists pr, w'. destruct (Hbroke Hexit) as (Hnow & Hrounds & _).
    exact (conj Hrun (conj Hexit (conj Hpend (conj Hnow Hrounds)))).
  - destruct (poll_loop_terminates
                (acme := Toy.acme [Toy.ch1; Toy.ch2] Toy.confirms_in_third_round
                           Toy.always_processing)
                14 [Toy.ch1; Toy.ch2] Toy.world0)
      as (pr & w' & new & Hrun & _ & _ & _ & _ & _ & _ & Hconfirm); [lia|].
    destruct (Hconfirm 2%nat) as (Hexit & Hpend & Hrounds).
    + intros c events _ Hk. apply bool_decide_eq_true_2. exact Hk.
    + left. lia.
    + exists pr, w'. exact (conj Hrun (conj Hexit (conj Hpend Hrounds))).
Defined.

(** Challenges that never confirm: 14 rounds, each followed by a pause of
    3, until the clock reads 42 and the counter 15. *)
Lemma poll_loop_never_confirms_run :
  let r :=
    poll_loop (acme := Toy.acme [Toy.ch1; Toy.ch2] Toy.never_confirms Toy.always_processing)
      14 40 [Toy.ch1; Toy.ch2] 1 Toy.world0 in
  r.1 = Return (Build_poll_result Broke [Toy.ch1; Toy.ch2] 15)
  /\ now r.2 = 42
  /\ length (filter (fun e => is_sleep e = true) (log r.2)) = 14%nat
  /\ length (filter (fun e => is_query e = true) (log r.2)) = 28%nat.
Proof. vm_compute. done. Qed.

(** A slow protocol client: the clock is past the deadline after the first
    round, yet the loop goes on until the counter has passed 4. *)
Lemma poll_loop_slow_run :
  let r :=
    poll_loop
      (acme := Toy.acme_taking 100 [Toy.ch1] Toy.never_confirms Toy.always_processing)
      14 40 [Toy.ch1] 1 Toy.world0 in
  r.1 = Return (Build_poll_result Broke [Toy.ch1] 5)
  /\ length (filter (fun e => is_query e = true) (log r.2)) = 4%nat.
Proof. vm_compute. done. Qed.

(** Challenges that confirm in the third round: the loop ends by its
    [else] branch after it, with nothing pending. *)
Lemma poll_loop_third_round_run :
  let r :=
    poll_loop
      (acme := Toy.acme [Toy.ch1; Toy.ch2] Toy.confirms_in_third_round Toy.always_processing)
      14 40 [Toy.ch1; Toy.ch2] 1 Toy.world0 in
  r.1 = Return (Build_poll_result Exhausted [] 4)
  /\ now r.2 = 6
  /\ QueryProgress Toy.ch1 true ∈ log r.2
  /\ QueryProgress Toy.ch2 true ∈ log r.2.
Proof. vm_compute. repeat split; repeat constructor. Qed.

Lemma Toy_crypto_laws : @CryptoLaws Toy.crypto.
Proof. split; intros; reflexivity. Qed.

Lemma obtainCert_all_stored_witness :
  exists resp,
    obtainCert (acme := Toy.acme [Toy.ch1] Toy.never_confirms Toy.always_processing)
      (store := SqliteKeyStore.keystore) 14 10 (HostList ["a.com"%string; "b.com"%string])
      Toy.world_sql = (Return (Some resp, None), Toy.world_sql)
    /\ issued resp = [].
Proof.
  destruct (obtainCert_all_stored
              (acme := Toy.acme [Toy.ch1] Toy.never_confirms Toy.always_processing)
              (store := SqliteKeyStore.keystore) 14 10
              (HostList ["a.com"%string; "b.com"%string]) Toy.world_sql)
    as (resp & Hrun & _ & Hiss & _).
  { intros h Hin. cbn in Hin.
    apply elem_of_cons in Hin as [->|Hin]; [eexists; reflexivity|].
    apply elem_of_cons in Hin as [->|Hin]; [eexists; reflexivity|inversion Hin]. }
  exists resp. exact (conj Hrun Hiss).
Defined.

(** The same calls on the two backends, then the same request: the
    relational backend answers with one bundle for the two domains, the
    filesystem backend with one bundle per domain, because the identifiers
    its [get_cert] returns are the domains themselves. *)
Lemma filesystem_bundles_not_merged :
  get_cert (crypto := Toy.crypto) (key_store Toy.world_fs) "a.com"
    = Return (Some (Some "a.com"%string, "key"%string, "cert"%string))
  /\ get_cert (crypto := Toy.crypto) (key_store Toy.world_fs) "b.com"
     = Return (Some (Some "b.com"%string, "key"%string, "cert"%string))
  /\ (obtainCert (acme := Toy.acme [Toy.ch1] Toy.never_confirms Toy.always_processing)
        (store := keystore) 14 10 (HostList ["a.com"%string; "b.com"%string])
        Toy.world_fs).1
     = Return (Some (Build_CertificateResponse
                       [Build_IssuedCert "Kkey" "Ccert" ["a.com"%string];
                        Build_IssuedCert "Kkey" "Ccert" ["b.com"%string]] []), None)
  /\ (obtainCert (acme := Toy.acme [Toy.ch1] Toy.never_confirms Toy.always_processing)
        (store := SqliteKeyStore.keystore) 14 10
        (HostList ["a.com"%string; "b.com"%string]) Toy.world_sql).1
     = Return (Some (Build_CertificateResponse
                       [Build_IssuedCert "Kkey" "Ccert" ["a.com"%string; "b.com"%string]]
                       []), None).
Proof. repeat split; reflexivity. Qed.

Lemma backends_identifiers_and_merging_witness :
  SqliteKeyStore.get_cert (crypto := Toy.crypto) (key_store Toy.world_sql) "a.com"
    = Return (Some (1, "key"%string, "cert"%string))
  /\ SqliteKeyStore.get_cert (crypto := Toy.crypto) (key_store Toy.world_sql) "b.com"
     = Return (Some (1, "key"%string, "cert"%string))
  /\ SqliteKeyStore.get_cert (crypto := Toy.crypto) Toy.conn1 "a.com" = Return None
  /\ get_cert (crypto := Toy.crypto) Toy.tree1 "b.com" = Return None
  /\ ["a.com"%string; "b.com"%string] ≡ₚ ["b.com"%string; "a.com"%string].
Proof.
  destruct (backends_identifiers_and_merging (crypto := Toy.crypto) (laws := Toy_crypto_laws))
    as (Habsent_sql & Habsent_fs & Hsame & _ & Hmerge).
  pose proof (Hsame Toy.conn1 1 (SqliteKeyStore.Private_key 1 None "kkey")
                "key"%string "cert"%string ["a.com"%string; "b.com"%string] None
                eq_refl eq_refl) as Hsql.
  cbn zeta in Hsql.
  assert (forall s, s ∈ SqliteKeyStore.ssl_domains (SqliteKeyStore.working Toy.conn1) ->
                    SqliteKeyStore.s_domain s ∉ ["a.com"%string; "b.com"%string]) as Hnone
    by (intros s Hs; inversion Hs).
  split; [apply (Hsql Hnone), list_elem_of_here|].
  split; [apply (Hsql Hnone), list_elem_of_further, list_elem_of_here|].
  split; [apply Habsent_sql; intros s Hs; inversion Hs|].
  split; [apply Habsent_fs; [discriminate|discriminate|left; reflexivity]|].
  destruct (Hmerge Z _
              [("a.com"%string, (1, "key"%string, "cert"%string));
               ("b.com"%string, (1, "key"%string, "cert"%string))]
              [("b.com"%string, (1, "key"%string, "cert"%string));
               ("a.com"%string, (1, "key"%string, "cert"%string))] [])
    as (_ & _ & Hperm).
  exact (Hperm (perm_swap _ _ _) 1).
Defined.

(** One domain stored, one missing: the missing one goes through order,
    publication, three rounds of queries, finalization and one refresh,
    and the response has one existing and one issued bundle. *)
Lemma obtainCert_partial_run :
  let r :=
    obtainCert (acme := Toy.acme [Toy.ch1] Toy.confirms_in_third_round Toy.always_valid)
      (store := keystore) 14 10 (HostList ["a.com"%string; "y.com"%string]) Toy.world_fs in
  r.1 = Return (Some (Build_CertificateResponse
                        [Build_IssuedCert "Kkey" "Ccert" ["a.com"%string]]
                        [Build_IssuedCert "Kfresh" "Cissued" ["y.com"%string]]), None)
  /\ log r.2 = [CreateAuthorizedOrder ["y.com"%string]; RemainingChallenges;
                Publish "token1" "proof1"; Verify Toy.ch1;
                QueryProgress Toy.ch1 false; Sleep 3;
                QueryProgress Toy.ch1 false; Sleep 3;
                QueryProgress Toy.ch1 true;
                Finalize; Sleep 3; Refresh "valid"; GetCertificate]
  /\ challengesStore r.2 !! "token1"%string = Some "proof1"%string
  /\ get_cert (crypto := Toy.crypto) (key_store r.2) "y.com"
     = Return (Some (Some "y.com"%string, "fresh"%string, "issued"%string)).
Proof. repeat split; reflexivity. Qed.

Lemma world_fs_lookups_return (h : string) :
  h ∈ ["a.com"%string; "y.com"%string] ->
  exists o, get_cert (crypto := Toy.crypto) (key_store Toy.world_fs) h = Return o.
Proof.
  intros Hin.
  apply elem_of_cons in Hin as [->|Hin]; [eexists; reflexivity|].
  apply elem_of_cons in Hin as [->|Hin]; [eexists; reflexivity|inversion Hin].
Qed.

Lemma obtainCert_order_of_events_witness :
  let w0 :=
    publish_all (acme := Toy.acme [Toy.ch1] Toy.confirms_in_third_round Toy.always_valid)
      [Toy.ch1]
      (emit (acme := Toy.acme [Toy.ch1] Toy.confirms_in_third_round Toy.always_valid)
         RemainingChallenges
         (emit (acme := Toy.acme [Toy.ch1] Toy.confirms_in_third_round Toy.always_valid)
            (CreateAuthorizedOrder ["y.com"%string]) Toy.world_fs)) in
  log w0 = [CreateAuthorizedOrder ["y.com"%string]; RemainingChallenges;
            Publish "token1" "proof1"; Verify Toy.ch1]
  /\ challengesStore w0 !! "token1"%string = Some "proof1"%string.
Proof.
  destruct (obtainCert_order_of_events
              (acme := Toy.acme [Toy.ch1] Toy.confirms_in_third_round Toy.always_valid)
              (store := keystore) 14 10 (HostList ["a.com"%string; "y.com"%string])
              Toy.world_fs tt None world_fs_lookups_return)
    as (Hlog & _ & Hstore & _); [discriminate|reflexivity|].
  split; [exact Hlog|].
  apply (Hstore Toy.ch1 (list_elem_of_here _ _)).
  intros c' Hc' _. apply list_elem_of_singleton in Hc'. rewrite Hc'. reflexivity.
Defined.

Lemma get_cert_undecodable_record_witness :
  SqliteKeyStore.get_cert (crypto := Toy.crypto) (SqliteKeyStore.connect Toy.corrupt_db)
    "z.com" = Raise ValueError
  /\ get_cert (crypto := Toy.crypto) Toy.corrupt_tree "z.com" = Return None.
Proof.
  destruct (get_cert_undecodable_record (crypto := Toy.crypto)) as [Hsql Hfs]. split.
  - eapply Hsql; [reflexivity|right; reflexivity].
  - eapply Hfs; [reflexivity|reflexivity|right; reflexivity].
Defined.

(** The round trip on the filesystem backend and, for a domain without an
    index row, on the relational one; a domain that already has a
    certificate does not get back what a later [save_cert] saved for it on
    the relational backend. *)
Lemma save_cert_get_cert_round_trip_witness :
  get_cert (crypto := Toy.crypto) Toy.tree2 "b.com"
    = Return (Some (Some "b.com"%string, "key"%string, "cert"%string))
  /\ SqliteKeyStore.get_cert (crypto := Toy.crypto)
       (SqliteKeyStore.save_cert (crypto := Toy.crypto) Toy.conn1 1 "cert"%string
          ["a.com"%string; "b.com"%string] None).1 "b.com"
     = Return (Some (1, "key"%string, "cert"%string))
  /\ Toy.saved_over.2 = 2
  /\ SqliteKeyStore.get_cert (crypto := Toy.crypto) Toy.saved_over.1 "a.com"
     = Return (Some (1, "old"%string, "old"%string)).
Proof.
  destruct (save_cert_get_cert_round_trip (crypto := Toy.crypto) (laws := Toy_crypto_laws)
              "key"%string "cert"%string ["a.com"%string; "b.com"%string] None
              "b.com"%string) as (Hfs & Hsql & _).
  { apply list_elem_of_further, list_elem_of_here. }
  destruct (save_cert_get_cert_round_trip (crypto := Toy.crypto) (laws := Toy_crypto_laws)
              "new"%string "new"%string ["a.com"%string; "b.com"%string] None
              "a.com"%string) as (_ & _ & Hstale).
  { apply list_elem_of_here. }
  split; [|split; [|split]].
  - apply (Hfs Toy.tree1 Toy.tree2 (Some "a.com"%string) (Some "a.com"%string));
      reflexivity.
  - apply (Hsql Toy.conn1 1 (SqliteKeyStore.Private_key 1 None "kkey"));
      [reflexivity|reflexivity|].
    intros s Hs. by apply elem_of_nil in Hs.
  - reflexivity.
  - apply (Hstale (SqliteKeyStore.connect Toy.indexed_db) 2
             (SqliteKeyStore.Ssl_domain "a.com" 1)
             (SqliteKeyStore.Certificate_row 1 None 1 "cold")
             (SqliteKeyStore.Private_key 1 None "kold") "old"%string "old"%string);
      [|reflexivity|reflexivity].
    repeat split; reflexivity.
Defined.

(** After two [save_cert] calls for "a.com" the relational backend still
    answers with the identifier and certificate of the first. *)
Lemma relational_last_write_loses :
  Toy.saved_twice.2 = 2
  /\ SqliteKeyStore.get_cert (crypto := Toy.crypto) Toy.saved_twice.1 "a.com"
     = Return (Some (1, "key"%string, "first"%string))
  /\ SqliteKeyStore.get_cert (crypto := Toy.crypto) Toy.saved_twice.1 "a.com"
     <> Return (Some (Toy.saved_twice.2, "key"%string, "second"%string)).
Proof. split; [reflexivity|]. split; [reflexivity|]. intros [=]. Qed.

Lemma save_cert_twice_witness :
  SqliteKeyStore.get_cert (crypto := Toy.crypto) Toy.saved_twice.1 "a.com"
    = Return (Some (1, "key"%string, "first"%string))
  /\ get_cert (crypto := Toy.crypto)
       (save_cert (crypto := Toy.crypto) Toy.tree2 (Some "a.com"%string) "later"%string
          ["a.com"%string] None).1 "a.com"
     = Return (Some (Some "a.com"%string, "key"%string, "later"%string)).
Proof.
  destruct (save_cert_twice (crypto := Toy.crypto) (laws := Toy_crypto_laws)
              "key"%string "key"%string "first"%string "second"%string
              ["a.com"%string] ["a.com"%string] None None "a.com"%string) as [Hsql _];
    [apply list_elem_of_here|apply list_elem_of_here|].
  destruct (save_cert_twice (crypto := Toy.crypto) (laws := Toy_crypto_laws)
              "key"%string "key"%string "cert"%string "later"%string
              ["a.com"%string; "b.com"%string] ["a.com"%string] None None "a.com"%string)
    as [_ Hfs];
    [apply list_elem_of_here|apply list_elem_of_here|].
  split.
  - apply (Hsql Toy.conn1 1 1 (SqliteKeyStore.Private_key 1 None "kkey"));
      [reflexivity|reflexivity|].
    intros s Hs. by apply elem_of_nil in Hs.
  - apply (Hfs Toy.tree1
             (save_cert (crypto := Toy.crypto) Toy.tree2 (Some "a.com"%string)
                "later"%string ["a.com"%string] None).1
             (Some "a.com"%string) (Some "a.com"%string) (Some "a.com"%string));
      reflexivity.
Defined.

(** A domain that already has a certificate does not get back what a later
    [save_cert] saved for it on the relational backend, while a domain of
    the same call that had none does. *)
Lemma relational_round_trip_fails_when_indexed :
  SqliteKeyStore.get_cert (crypto := Toy.crypto) Toy.saved_over.1 "a.com"
    = Return (Some (1, "old"%string, "old"%string))
  /\ SqliteKeyStore.get_cert (crypto := Toy.crypto) Toy.saved_over.1 "a.com"
     <> Return (Some (Toy.saved_over.2, "new"%string, "new"%string))
  /\ SqliteKeyStore.get_cert (crypto := Toy.crypto) Toy.saved_over.1 "b.com"
     = Return (Some (Toy.saved_over.2, "new"%string, "new"%string)).
Proof. split; [reflexivity|]. split; [intros [=]|reflexivity]. Qed.

(** [save_cert] for two domains cut after the first of its two per-domain
    INSERTs, then a [save_key] on the same connection: the database file
    has the index row of "a.com" and not that of "b.com". *)
Lemma save_cert_rows_not_atomic_witness :
  SqliteKeyStore.ssl_domains
    (SqliteKeyStore.durable
       (SqliteKeyStore.save_key (crypto := Toy.crypto) Toy.cut_after_one "other"%string None).1)
  = [SqliteKeyStore.Ssl_domain "a.com" 1]
  /\ SqliteKeyStore.durable Toy.cut_after_one = SqliteKeyStore.durable Toy.conn1.
Proof.
  destruct (save_cert_rows_not_atomic (crypto := Toy.crypto)
              (SqliteKeyStore.durable Toy.conn1) "other"%string None 1 "cert"%string
              ["a.com"%string; "b.com"%string] None 1)
    as (_ & _ & Hfile & _ & _ & _ & Hrows & _); [cbn; lia|].
  exact (conj Hrows Hfile).
Defined.
End Concrete.

(** ** The further properties at concrete inputs *)
Section ConcreteMore.
Import FilesystemKeyStore.

Lemma fs_save_key_find_key_witness :
  find_key (crypto := Toy.crypto)
    (save_key (crypto := Toy.crypto) Toy.tree1 "other"%string (Some "a.com"%string)).1
    (Some "a.com"%string) = Return (Some "other"%string).
Proof.
  exact (proj2 (proj1 (fs_save_key_find_key (crypto := Toy.crypto) (laws := Toy_crypto_laws)
                         Toy.tree1 "other"%string (Some "a.com"%string))
                  (Some "a.com"%string) eq_refl)).
Defined.

Lemma fs_init_account_key_once_witness :
  _init_account_key (crypto := Toy.crypto) Toy.gen_key_rsa'
    (_init_account_key (crypto := Toy.crypto) Toy.gen_key_rsa Toy.empty_tree).1
  = ((_init_account_key (crypto := Toy.crypto) Toy.gen_key_rsa Toy.empty_tree).1,
     Return "account"%string).
Proof.
  exact (proj2 (fs_init_account_key_once (crypto := Toy.crypto) (laws := Toy_crypto_laws)
                  Toy.gen_key_rsa Toy.gen_key_rsa' Toy.empty_tree "account"%string eq_refl)).
Defined.

Lemma fs_init_account_key_corrupt_witness :
  _init_account_key (crypto := Toy.crypto) Toy.gen_key_rsa Toy.corrupt_account_tree
  = (Toy.corrupt_account_tree, Raise ValueError).
Proof.
  exact (fs_init_account_key_corrupt (crypto := Toy.crypto) Toy.gen_key_rsa
           Toy.corrupt_account_tree "garbage"%string eq_refl eq_refl).
Defined.

Lemma sqlite_init_account_key_once_witness :
  SqliteKeyStore._init_account_key (crypto := Toy.crypto) Toy.gen_key_rsa'
    (SqliteKeyStore._init_account_key (crypto := Toy.crypto) Toy.gen_key_rsa
       (SqliteKeyStore.connect SqliteKeyStore.empty_db)).1
  = ((SqliteKeyStore._init_account_key (crypto := Toy.crypto) Toy.gen_key_rsa
        (SqliteKeyStore.connect SqliteKeyStore.empty_db)).1,
     Return "account"%string).
Proof.
  exact (sqlite_init_account_key_once (crypto := Toy.crypto) (laws := Toy_crypto_laws)
           Toy.gen_key_rsa Toy.gen_key_rsa' SqliteKeyStore.empty_db "account"%string eq_refl).
Defined.

Lemma fs_save_cert_missing_key_witness :
  (save_cert (crypto := Toy.crypto) Toy.empty_tree (Some "nokey"%string) "cert"%string
     ["a.com"%string] (Some "bundle"%string)).2 = Raise FileNotFoundError.
Proof.
  refine (proj1 (fs_save_cert_missing_key (crypto := Toy.crypto) Toy.empty_tree
                   (Some "nokey"%string) "cert"%string ["a.com"%string]
                   (Some "bundle"%string) _ _ eq_refl _)).
  - split; reflexivity.
  - split; reflexivity.
  - intros _. split; [split; reflexivity|discriminate].
Defined.

Lemma fs_save_cert_named_not_resolved_witness :
  get_cert (crypto := Toy.crypto)
    (save_cert (crypto := Toy.crypto) Toy.tree1 (Some "a.com"%string) "cert"%string
       ["a.com"%string] (Some "bundle"%string)).1 "bundle" = Return None.
Proof.
  refine (proj2 (proj2 (fs_save_cert_named_not_resolved (crypto := Toy.crypto)
                          (laws := Toy_crypto_laws) Toy.tree1 _ (Some "a.com"%string)
                          (Some "bundle"%string)
                          "cert"%string ["a.com"%string] "bundle"%string
                          _ _ _ _ eq_refl eq_refl))).
  - discriminate.
  - split; reflexivity.
  - repeat constructor.
  - intros Hin. apply list_elem_of_singleton in Hin. discriminate.
Defined.

Lemma fs_save_cert_other_domains_witness :
  get_cert (crypto := Toy.crypto)
    (save_cert (crypto := Toy.crypto) Toy.tree2 (Some "a.com"%string) "later"%string
       ["a.com"%string] None).1 "b.com"
  = get_cert (crypto := Toy.crypto) Toy.tree2 "b.com".
Proof.
  apply (fs_save_cert_other_domains (crypto := Toy.crypto)).
  - split; reflexivity.
  - repeat constructor.
  - discriminate.
  - intros Hin. apply list_elem_of_singleton in Hin. discriminate.
  - discriminate.
Defined.

Lemma Toy_conn1_integrity :
  SqliteKeyStore.integrity (SqliteKeyStore.working Toy.conn1).
Proof.
  split; cbn.
  - apply NoDup_singleton.
  - apply NoDup_nil_2.
  - intros s Hs. inversion Hs.
Qed.

Lemma sqlite_integrity_kept_witness :
  SqliteKeyStore.integrity
    (SqliteKeyStore.working
       (SqliteKeyStore.save_cert (crypto := Toy.crypto)
          (SqliteKeyStore.save_key (crypto := Toy.crypto)
             (SqliteKeyStore.connect SqliteKeyStore.empty_db) "key"%string None).1
          1 "cert"%string ["a.com"%string] None).1).
Proof.
  destruct (sqlite_integrity_kept (crypto := Toy.crypto)
              (SqliteKeyStore.connect SqliteKeyStore.empty_db) "key"%string None
              1 "cert"%string ["a.com"%string] None) as (Hempty & Hkey & _).
  destruct (sqlite_integrity_kept (crypto := Toy.crypto)
              (SqliteKeyStore.save_key (crypto := Toy.crypto)
                 (SqliteKeyStore.connect SqliteKeyStore.empty_db) "key"%string None).1
              "key"%string None 1 "cert"%string ["a.com"%string] None) as (_ & _ & Hcert).
  exact (proj1 (Hcert (proj1 (Hkey Hempty)))).
Defined.

Lemma sqlite_save_cert_other_domains_witness :
  SqliteKeyStore.get_cert (crypto := Toy.crypto)
    (SqliteKeyStore.save_cert (crypto := Toy.crypto) Toy.conn1 1 "cert"%string
       ["a.com"%string] None).1 "b.com"
  = SqliteKeyStore.get_cert (crypto := Toy.crypto) Toy.conn1 "b.com".
Proof.
  apply (sqlite_save_cert_other_domains (crypto := Toy.crypto)).
  - exact Toy_conn1_integrity.
  - intros Hin. apply list_elem_of_singleton in Hin. discriminate.
Defined.

Lemma sqlite_save_key_save_cert_get_cert_witness :
  SqliteKeyStore.get_cert (crypto := Toy.crypto)
    (SqliteKeyStore.save_cert (crypto := Toy.crypto) Toy.conn1 1 "cert"%string
       ["a.com"%string] None).1 "a.com"
  = Return (Some (1, "key"%string, "cert"%string)).
Proof.
  apply (sqlite_save_key_save_cert_get_cert (crypto := Toy.crypto) (laws := Toy_crypto_laws)
           (SqliteKeyStore.connect SqliteKeyStore.empty_db) "key"%string None "cert"%string
           ["a.com"%string] None "a.com"%string).
  - apply list_elem_of_here.
  - intros s Hs. inversion Hs.
Defined.

Lemma sqlite_save_cert_unknown_key_witness :
  SqliteKeyStore.get_cert (crypto := Toy.crypto)
    (SqliteKeyStore.save_cert (crypto := Toy.crypto) Toy.conn1 7 "cert"%string
       ["a.com"%string] None).1 "a.com" = Return None.
Proof.
  refine (proj2 (sqlite_save_cert_unknown_key (crypto := Toy.crypto) Toy.conn1 7
                   "cert"%string ["a.com"%string] None "a.com"%string _ _)).
  - intros Hin. apply list_elem_of_singleton in Hin. discriminate.
  - intros s Hs. inversion Hs.
Defined.

Lemma obtainCert_orders_unresolved_witness :
  exists rest,
    log (obtainCert (acme := Toy.acme [Toy.ch1] Toy.confirms_in_third_round Toy.always_valid)
           (store := keystore) 14 10 (HostList ["a.com"%string; "y.com"%string])
           Toy.world_fs).2
    = log Toy.world_fs ++ CreateAuthorizedOrder ["y.com"%string] :: rest.
Proof.
  refine (proj2 (obtainCert_orders_unresolved
                   (acme := Toy.acme [Toy.ch1] Toy.confirms_in_third_round Toy.always_valid)
                   (store := keystore) 14 10 (HostList ["a.com"%string; "y.com"%string])
                   Toy.world_fs world_fs_lookups_return) _).
  discriminate.
Defined.

Lemma obtainCert_order_rejected_witness :
  obtainCert (acme := Toy.rejecting_acme) (store := keystore) 14 10
    (HostList ["a.com"%string; "y.com"%string]) Toy.world_fs
  = (Raise TypeError,
     World (key_store Toy.world_fs) 0 [CreateAuthorizedOrder ["y.com"%string]] ∅).
Proof.
  refine (proj1 (obtainCert_order_rejected (acme := Toy.rejecting_acme) (store := keystore)
                   14 10 (HostList ["a.com"%string; "y.com"%string]) Toy.world_fs
                   (Some "rejected"%string) world_fs_lookups_return _ eq_refl)).
  discriminate.
Defined.

Lemma obtainCert_success_witness :
  exists certificate,
    issued (Build_CertificateResponse
              [Build_IssuedCert "Kkey" "Ccert" ["a.com"%string]]
              [Build_IssuedCert "Kfresh" "Cissued" ["y.com"%string]])
    = [Build_IssuedCert (key_to_pem (Crypto := Toy.crypto) "fresh"%string)
         (cert_to_pem (Crypto := Toy.crypto) certificate) ["y.com"%string]].
Proof.
  destruct (obtainCert_success
              (acme := Toy.acme [Toy.ch1] Toy.confirms_in_third_round Toy.always_valid)
              (store := keystore) 14 10 (HostList ["a.com"%string; "y.com"%string])
              Toy.world_fs
              (Build_CertificateResponse
                 [Build_IssuedCert "Kkey" "Ccert" ["a.com"%string]]
                 [Build_IssuedCert "Kfresh" "Cissued" ["y.com"%string]])
              None eq_refl) as (_ & _ & [(Hnil & _) | Hissued]).
  - discriminate Hnil.
  - destruct Hissued as (missing0 & certificate & s1 & key_id & cert_id & _ & _ & _ & Hiss).
    exists certificate. exact Hiss.
Defined.

Lemma obtainCert_failure_persists_nothing_witness :
  key_store
    (obtainCert (acme := Toy.acme [Toy.ch1] Toy.confirms_in_third_round Toy.always_invalid)
       (store := keystore) 14 10 (HostList ["a.com"%string; "y.com"%string])
       Toy.world_fs).2
  = key_store Toy.world_fs.
Proof.
  exact (proj1 (obtainCert_failure_persists_nothing
                  (acme := Toy.acme [Toy.ch1] Toy.confirms_in_third_round Toy.always_invalid)
                  (store := keystore) 14 10 (HostList ["a.com"%string; "y.com"%string])
                  Toy.world_fs None eq_refl)).
Defined.

Lemma createExistingResponse_distinct_ids_witness :
  existing (createExistingResponse (crypto := Toy.crypto)
              [("a.com"%string, (Some "a.com"%string, "key"%string, "cert"%string));
               ("b.com"%string, (Some "b.com"%string, "key"%string, "cert"%string))] [])
  = [Build_IssuedCert "Kkey" "Ccert" ["a.com"%string];
     Build_IssuedCert "Kkey" "Ccert" ["b.com"%string]].
Proof.
  refine (proj1 (createExistingResponse_distinct_ids (crypto := Toy.crypto)
                   [("a.com"%string, (Some "a.com"%string, "key"%string, "cert"%string));
                    ("b.com"%string, (Some "b.com"%string, "key"%string, "cert"%string))]
                   [] _)).
  apply NoDup_cons. split; [|apply NoDup_singleton].
  intros Hin. apply list_elem_of_singleton in Hin. discriminate.
Defined.

Lemma poll_loop_never_asks_confirmed_witness :
  exists new,
    log (poll_loop
           (acme := Toy.acme [Toy.ch1; Toy.ch2] Toy.confirms_in_third_round
                      Toy.always_processing)
           14 40 [Toy.ch1; Toy.ch2] 1 Toy.world0).2
    = log Toy.world0 ++ new
    /\ settled new.
Proof.
  destruct (poll_loop_never_asks_confirmed
              (acme := Toy.acme [Toy.ch1; Toy.ch2] Toy.confirms_in_third_round
                         Toy.always_processing)
              14 40 [Toy.ch1; Toy.ch2] 1 Toy.world0) as (new & Hlog & _ & Hset).
  - apply NoDup_cons. split; [|apply NoDup_singleton].
    intros Hin. apply list_elem_of_singleton in Hin. discriminate.
  - exists new. exact (conj Hlog Hset).
Defined.

Lemma obtainCert_lookup_raises_witness :
  obtainCert (acme := Toy.acme [Toy.ch1] Toy.never_confirms Toy.always_processing)
    (store := SqliteKeyStore.keystore) 14 10 (HostList ["z.com"%string]) Toy.world_corrupt
  = (Raise ValueError, Toy.world_corrupt).
Proof.
  refine (obtainCert_lookup_raises
            (acme := Toy.acme [Toy.ch1] Toy.never_confirms Toy.always_processing)
            (store := SqliteKeyStore.keystore) 14 10 [] [] "z.com"%string Toy.world_corrupt
            ValueError _ eq_refl).
  intros h' Hin. inversion Hin.
Defined.

Lemma fs_obtainCert_success_resolves_witness :
  unresolved (crypto := Toy.crypto) (store := keystore)
    (key_store
       (obtainCert (acme := Toy.acme [Toy.ch1] Toy.confirms_in_third_round Toy.always_valid)
          (store := keystore) 14 10 (HostList ["a.com"%string; "y.com"%string])
          Toy.world_fs).2)
    ["a.com"%string; "y.com"%string] = [].
Proof.
  refine (proj2 (proj2 (fs_obtainCert_success_resolves (crypto := Toy.crypto)
                         (laws := Toy_crypto_laws)
                         (acme := Toy.acme [Toy.ch1] Toy.confirms_in_third_round
                                    Toy.always_valid)
                         14 10 (HostList ["a.com"%string; "y.com"%string]) Toy.world_fs
                         (Build_CertificateResponse
                            [Build_IssuedCert "Kkey" "Ccert" ["a.com"%string]]
                            [Build_IssuedCert "Kfresh" "Cissued" ["y.com"%string]])
                         None _ eq_refl))).
  repeat constructor.
Defined.
End ConcreteMore.
